(** * casync: the synchronization driver (src/casync.c)

    A shallow embedding of [CaSync], the driver that sits between the
    archive encoder/decoder, the chunker, the object stores and the index.

    The driver is stateful C code that calls into collaborators which are
    declared in headers only (caencoder.h, cadecoder.h, castore.h,
    caindex.h, chunker.h, util.h) and into the operating system.  The
    embedding threads an explicit machine state through a small state and
    outcome monad.  Collaborators are an interface ([Collaborators]): their
    private state is an abstract type and every call is a transition
    function on it.  Every call that leaves the driver is appended to a
    trace, so that statements can speak about what was renamed, written,
    stored or handed to the decoder.

    Modelling conventions:
    - [int], [size_t], [uint64_t], [mode_t] values are [Z]; a byte range
      [(p, l)] is a [list byte] and [l] is its length;
    - a C pointer argument that the code tests against NULL is an [option];
      the [CaSync *s] argument itself is always a valid object;
    - heap allocation succeeds ([new0], [strdup], [realloc],
      [realloc_buffer_append], the [*_new] constructors, [gcry_md_open],
      [gcry_md_read]), so the [-ENOMEM] / [-EIO] returns that guard them
      are not taken;
    - a libgcrypt SHA-256 handle is the list of bytes written to it so far;
      reading it yields [sha256] of that list;
    - a failing system call is reported as [-errno] (a negative number), the
      way the code returns it;
    - an outcome is either a return or a fault: a failed [assert], a read
      through a released or too short block, or a chunking loop that makes
      no progress.  The loop of [ca_sync_write_chunks] is given one round
      per input byte and one more, which is all a chunker that cuts at
      least one byte per round can use ([write_chunks_returns]). *)

From Stdlib Require Import ZArith List String Bool Lia.
From Stdlib.Strings Require Import Byte.
Import ListNotations.
Open Scope Z_scope.

(** ** Constants of errno.h, fcntl.h and sys/stat.h (Linux values) *)

Module Errno.
Definition ENOENT : Z := 2.
Definition EIO : Z := 5.
Definition ENOMEM : Z := 12.
Definition EBUSY : Z := 16.
Definition EEXIST : Z := 17.
Definition ENOTDIR : Z := 20.
Definition EINVAL : Z := 22.
Definition ENOTTY : Z := 25.
Definition ENOSPC : Z := 28.
Definition EROFS : Z := 30.
Definition EPIPE : Z := 32.
Definition EUNATCH : Z := 49.
Definition EBADMSG : Z := 74.
End Errno.
Import Errno.

Definition O_RDONLY : Z := 0.
Definition O_WRONLY : Z := 1.
Definition O_CREAT : Z := 64.
Definition O_EXCL : Z := 128.
Definition O_NOCTTY : Z := 256.
Definition O_DIRECTORY : Z := 65536.
Definition O_CLOEXEC : Z := 524288.

Definition S_IFMT : Z := 61440.
Definition S_IFDIR : Z := 16384.
Definition S_IFBLK : Z := 24576.
Definition S_IFREG : Z := 32768.
Definition S_IRUSR : Z := 256.
Definition S_IWUSR : Z := 128.
Definition S_IRGRP : Z := 32.
Definition S_IWGRP : Z := 16.
Definition S_IROTH : Z := 4.
Definition S_IWOTH : Z := 2.

Definition S_ISREG (m : Z) : bool := Z.land m S_IFMT =? S_IFREG.
Definition S_ISDIR (m : Z) : bool := Z.land m S_IFMT =? S_IFDIR.
Definition S_ISBLK (m : Z) : bool := Z.land m S_IFMT =? S_IFBLK.

(** [(mode_t) -1] for a 32-bit [mode_t], [(size_t) -1] for a 64-bit
    [size_t]. *)
Definition MODE_INVALID : Z := 2 ^ 32 - 1.
Definition SIZE_MAX : Z := 2 ^ 64 - 1.

(** [~x] on a 32-bit [mode_t]. *)
Definition mode_not (x : Z) : Z := Z.lxor x MODE_INVALID.

Definition ObjectID : Type := list byte.

Definition len (p : list byte) : Z := Z.of_nat (List.length p).

(** ** The collaborators

    Everything [casync.c] calls but does not define.  A transition returns
    the collaborator's next private state together with the C return
    value.  [os_open], [os_rename] and [os_mkdir] return the system call's
    result when it is non-negative and [-errno] otherwise. *)

Class Collaborators : Type := {
  CaEncoder : Type;
  CaDecoder : Type;
  CaStore : Type;
  CaIndex : Type;
  CaChunker : Type;
  OS : Type;

  (* gcrypt.h: the digest GCRY_MD_SHA256 computes *)
  sha256 : list byte -> ObjectID;

  (* casync.h, caencoder.h, cadecoder.h: enumerators *)
  CA_SYNC_FINISHED : Z;
  CA_SYNC_STEP : Z;
  CA_SYNC_NEXT_FILE : Z;
  CA_ENCODER_FINISHED : Z;
  CA_ENCODER_NEXT_FILE : Z;
  CA_ENCODER_DATA : Z;
  CA_DECODER_FINISHED : Z;
  CA_DECODER_NEXT_FILE : Z;
  CA_DECODER_STEP : Z;
  CA_DECODER_PAYLOAD : Z;
  CA_DECODER_REQUEST : Z;
  (* enumerators are non-negative and pairwise distinct within an enum *)
  sync_enum :
    0 <= CA_SYNC_FINISHED /\ 0 <= CA_SYNC_STEP /\ 0 <= CA_SYNC_NEXT_FILE /\
    NoDup [CA_SYNC_FINISHED; CA_SYNC_STEP; CA_SYNC_NEXT_FILE];
  encoder_enum :
    0 <= CA_ENCODER_FINISHED /\ 0 <= CA_ENCODER_NEXT_FILE /\
    0 <= CA_ENCODER_DATA /\
    NoDup [CA_ENCODER_FINISHED; CA_ENCODER_NEXT_FILE; CA_ENCODER_DATA];
  decoder_enum :
    0 <= CA_DECODER_FINISHED /\ 0 <= CA_DECODER_NEXT_FILE /\
    0 <= CA_DECODER_STEP /\ 0 <= CA_DECODER_PAYLOAD /\
    0 <= CA_DECODER_REQUEST /\
    NoDup [CA_DECODER_FINISHED; CA_DECODER_NEXT_FILE; CA_DECODER_STEP;
           CA_DECODER_PAYLOAD; CA_DECODER_REQUEST];

  (* caencoder.h *)
  ca_encoder_new : CaEncoder;
  ca_encoder_set_base_fd : CaEncoder -> Z -> CaEncoder * Z;
  ca_encoder_step : CaEncoder -> CaEncoder * Z;
  ca_encoder_get_data : CaEncoder -> CaEncoder * Z * list byte;

  (* cadecoder.h *)
  ca_decoder_new : CaDecoder;
  ca_decoder_set_base_fd : CaDecoder -> Z -> CaDecoder * Z;
  ca_decoder_set_base_mode : CaDecoder -> Z -> CaDecoder * Z;
  ca_decoder_step : CaDecoder -> CaDecoder * Z;
  ca_decoder_put_data : CaDecoder -> list byte -> CaDecoder * Z;
  ca_decoder_put_data_fd : CaDecoder -> Z -> Z -> Z -> CaDecoder * Z;
  ca_decoder_put_eof : CaDecoder -> CaDecoder * Z;

  (* castore.h; [ca_store_get] receives the store pointer as it is, NULL
     included, and returns the code and the object *)
  ca_store_new : CaStore;
  ca_store_set_local : CaStore -> string -> CaStore * Z;
  ca_store_get : option CaStore -> ObjectID -> Z * list byte;
  ca_store_put : CaStore -> ObjectID -> list byte -> CaStore * Z;

  (* caindex.h; [ca_index_read_object] returns the code, the id and the
     size of the record *)
  ca_index_new_write : CaIndex;
  ca_index_new_read : CaIndex;
  ca_index_set_fd : CaIndex -> Z -> CaIndex * Z;
  ca_index_set_path : CaIndex -> string -> CaIndex * Z;
  ca_index_open : CaIndex -> CaIndex * Z;
  ca_index_write_object : CaIndex -> ObjectID -> Z -> CaIndex * Z;
  ca_index_read_object : CaIndex -> CaIndex * Z * ObjectID * Z;
  ca_index_set_digest : CaIndex -> ObjectID -> CaIndex * Z;
  ca_index_write_eof : CaIndex -> CaIndex * Z;
  ca_index_close : CaIndex -> CaIndex * Z;

  (* chunker.h: the cut position, or (size_t) -1 *)
  chunker_init : CaChunker;
  ca_chunker_scan : CaChunker -> list byte -> CaChunker * Z;

  (* the operating system and util.h *)
  os_open : OS -> string -> Z -> Z -> OS * Z;
  os_rename : OS -> string -> string -> OS * Z;
  os_mkdir : OS -> string -> Z -> OS * Z;
  tempfn_random : OS -> string -> OS * Z * string;
  loop_write : OS -> Z -> list byte -> OS * Z
}.

(** ** The driver's state *)

Inductive CaDirection := CA_SYNC_ENCODE | CA_SYNC_DECODE.

Definition is_encode (d : CaDirection) : bool :=
  match d with CA_SYNC_ENCODE => true | CA_SYNC_DECODE => false end.

Definition is_decode (d : CaDirection) : bool := negb (is_encode d).

(** What leaves the driver: one event per call, with the call's return
    code where the code looks at it. *)
Inductive Event :=
| EvOpen (path : string) (flags mode : Z) (r : Z)
| EvMkdir (path : string) (r : Z)
| EvRename (src dst : string) (r : Z)
| EvEncoderGetData (r : Z) (p : list byte)
| EvLoopWrite (fd : Z) (p : list byte) (r : Z)
| EvChunkerScan (p : list byte) (k : Z)
| EvStorePut (id : ObjectID) (p : list byte) (r : Z)
| EvIndexOpen (r : Z)
| EvIndexWriteObject (id : ObjectID) (size : Z) (r : Z)
| EvIndexSetDigest (digest : ObjectID) (r : Z)
| EvIndexWriteEof (r : Z)
| EvIndexClose (r : Z)
| EvDecoderPutData (p : list byte) (r : Z)
| EvDecoderPutDataFd (fd : Z) (r : Z)
| EvDecoderPutEof (r : Z).

(** Ways in which the C program leaves defined behaviour or fails to
    return. *)
Inductive Fault :=
| AssertionFailed
| UseAfterFree
| OutOfBounds
| NoProgress.

Inductive Outcome (A : Type) : Type :=
| Ret (a : A)
| Undefined (f : Fault).
Arguments Ret {A} a.
Arguments Undefined {A} f.

(** A heap block obtained from [malloc]: its bytes while it is live. *)
Inductive Block :=
| Live (bytes : list byte)
| Freed.

Definition free (b : Block) : Block := Freed.

(** Reading [l] bytes through a pointer to the block. *)
Definition read_block (b : Block) (l : Z) : Outcome (list byte) :=
  match b with
  | Live bytes =>
      if l <=? len bytes then Ret (firstn (Z.to_nat l) bytes)
      else Undefined OutOfBounds
  | Freed => if l =? 0 then Ret [] else Undefined UseAfterFree
  end.

Section Driver.

Context {C : Collaborators}.

(** [struct CaSync].  A pointer field is an [option]; the two digest
    handles hold the bytes written to them; [buffer] is the contents of the
    [ReallocBuffer]. *)
Record CaSync : Type := mkCaSync {
  direction : CaDirection;
  encoder : option CaEncoder;
  decoder : option CaDecoder;
  wstore : option CaStore;
  rstores : list CaStore;
  chunker : CaChunker;
  base_fd : Z;
  archive_fd : Z;
  base_path : option string;
  archive_path : option string;
  temporary_base_path : option string;
  temporary_archive_path : option string;
  base_mode : Z;
  make_perm_mode : Z;
  buffer : list byte;
  object_digest : option (list byte);
  archive_digest : option (list byte);
  index : option CaIndex;
  eof : bool
}.

Definition with_encoder (x : option CaEncoder) (s : CaSync) : CaSync :=
  mkCaSync (direction s) x (decoder s) (wstore s) (rstores s) (chunker s)
    (base_fd s) (archive_fd s) (base_path s) (archive_path s)
    (temporary_base_path s) (temporary_archive_path s) (base_mode s)
    (make_perm_mode s) (buffer s) (object_digest s) (archive_digest s)
    (index s) (eof s).

Definition with_decoder (x : option CaDecoder) (s : CaSync) : CaSync :=
  mkCaSync (direction s) (encoder s) x (wstore s) (rstores s) (chunker s)
    (base_fd s) (archive_fd s) (base_path s) (archive_path s)
    (temporary_base_path s) (temporary_archive_path s) (base_mode s)
    (make_perm_mode s) (buffer s) (object_digest s) (archive_digest s)
    (index s) (eof s).

Definition with_wstore (x : option CaStore) (s : CaSync) : CaSync :=
  mkCaSync (direction s) (encoder s) (decoder s) x (rstores s) (chunker s)
    (base_fd s) (archive_fd s) (base_path s) (archive_path s)
    (temporary_base_path s) (temporary_archive_path s) (base_mode s)
    (make_perm_mode s) (buffer s) (object_digest s) (archive_digest s)
    (index s) (eof s).

Definition with_rstores (x : list CaStore) (s : CaSync) : CaSync :=
  mkCaSync (direction s) (encoder s) (decoder s) (wstore s) x (chunker s)
    (base_fd s) (archive_fd s) (base_path s) (archive_path s)
    (temporary_base_path s) (temporary_archive_path s) (base_mode s)
    (make_perm_mode s) (buffer s) (object_digest s) (archive_digest s)
    (index s) (eof s).

Definition with_chunker (x : CaChunker) (s : CaSync) : CaSync :=
  mkCaSync (direction s) (encoder s) (decoder s) (wstore s) (rstores s) x
    (base_fd s) (archive_fd s) (base_path s) (archive_path s)
    (temporary_base_path s) (temporary_archive_path s) (base_mode s)
    (make_perm_mode s) (buffer s) (object_digest s) (archive_digest s)
    (index s) (eof s).

Definition with_base_fd (x : Z) (s : CaSync) : CaSync :=
  mkCaSync (direction s) (encoder s) (decoder s) (wstore s) (rstores s)
    (chunker s) x (archive_fd s) (base_path s) (archive_path s)
    (temporary_base_path s) (temporary_archive_path s) (base_mode s)
    (make_perm_mode s) (buffer s) (object_digest s) (archive_digest s)
    (index s) (eof s).

Definition with_archive_fd (x : Z) (s : CaSync) : CaSync :=
  mkCaSync (direction s) (encoder s) (decoder s) (wstore s) (rstores s)
    (chunker s) (base_fd s) x (base_path s) (archive_path s)
    (temporary_base_path s) (temporary_archive_path s) (base_mode s)
    (make_perm_mode s) (buffer s) (object_digest s) (archive_digest s)
    (index s) (eof s).

Definition with_base_path (x : option string) (s : CaSync) : CaSync :=
  mkCaSync (direction s) (encoder s) (decoder s) (wstore s) (rstores s)
    (chunker s) (base_fd s) (archive_fd s) x (archive_path s)
    (temporary_base_path s) (temporary_archive_path s) (base_mode s)
    (make_perm_mode s) (buffer s) (object_digest s) (archive_digest s)
    (index s) (eof s).

Definition with_archive_path (x : option string) (s : CaSync) : CaSync :=
  mkCaSync (direction s) (encoder s) (decoder s) (wstore s) (rstores s)
    (chunker s) (base_fd s) (archive_fd s) (base_path s) x
    (temporary_base_path s) (temporary_archive_path s) (base_mode s)
    (make_perm_mode s) (buffer s) (object_digest s) (archive_digest s)
    (index s) (eof s).

Definition with_temporary_base_path (x : option string) (s : CaSync)
  : CaSync :=
  mkCaSync (direction s) (encoder s) (decoder s) (wstore s) (rstores s)
    (chunker s) (base_fd s) (archive_fd s) (base_path s) (archive_path s)
    x (temporary_archive_path s) (base_mode s)
    (make_perm_mode s) (buffer s) (object_digest s) (archive_digest s)
    (index s) (eof s).

Definition with_temporary_archive_path (x : option string) (s : CaSync)
  : CaSync :=
  mkCaSync (direction s) (encoder s) (decoder s) (wstore s) (rstores s)
    (chunker s) (base_fd s) (archive_fd s) (base_path s) (archive_path s)
    (temporary_base_path s) x (base_mode s)
    (make_perm_mode s) (buffer s) (object_digest s) (archive_digest s)
    (index s) (eof s).

Definition with_base_mode (x : Z) (s : CaSync) : CaSync :=
  mkCaSync (direction s) (encoder s) (decoder s) (wstore s) (rstores s)
    (chunker s) (base_fd s) (archive_fd s) (base_path s) (archive_path s)
    (temporary_base_path s) (temporary_archive_path s) x
    (make_perm_mode s) (buffer s) (object_digest s) (archive_digest s)
    (index s) (eof s).

Definition with_make_perm_mode (x : Z) (s : CaSync) : CaSync :=
  mkCaSync (direction s) (encoder s) (decoder s) (wstore s) (rstores s)
    (chunker s) (base_fd s) (archive_fd s) (base_path s) (archive_path s)
    (temporary_base_path s) (temporary_archive_path s) (base_mode s)
    x (buffer s) (object_digest s) (archive_digest s)
    (index s) (eof s).

Definition with_buffer (x : list byte) (s : CaSync) : CaSync :=
  mkCaSync (direction s) (encoder s) (decoder s) (wstore s) (rstores s)
    (chunker s) (base_fd s) (archive_fd s) (base_path s) (archive_path s)
    (temporary_base_path s) (temporary_archive_path s) (base_mode s)
    (make_perm_mode s) x (object_digest s) (archive_digest s)
    (index s) (eof s).

Definition with_object_digest (x : option (list byte)) (s : CaSync)
  : CaSync :=
  mkCaSync (direction s) (encoder s) (decoder s) (wstore s) (rstores s)
    (chunker s) (base_fd s) (archive_fd s) (base_path s) (archive_path s)
    (temporary_base_path s) (temporary_archive_path s) (base_mode s)
    (make_perm_mode s) (buffer s) x (archive_digest s)
    (index s) (eof s).

Definition with_archive_digest (x : option (list byte)) (s : CaSync)
  : CaSync :=
  mkCaSync (direction s) (encoder s) (decoder s) (wstore s) (rstores s)
    (chunker s) (base_fd s) (archive_fd s) (base_path s) (archive_path s)
    (temporary_base_path s) (temporary_archive_path s) (base_mode s)
    (make_perm_mode s) (buffer s) (object_digest s) x
    (index s) (eof s).

Definition with_index (x : option CaIndex) (s : CaSync) : CaSync :=
  mkCaSync (direction s) (encoder s) (decoder s) (wstore s) (rstores s)
    (chunker s) (base_fd s) (archive_fd s) (base_path s) (archive_path s)
    (temporary_base_path s) (temporary_archive_path s) (base_mode s)
    (make_perm_mode s) (buffer s) (object_digest s) (archive_digest s)
    x (eof s).

Definition with_eof (x : bool) (s : CaSync) : CaSync :=
  mkCaSync (direction s) (encoder s) (decoder s) (wstore s) (rstores s)
    (chunker s) (base_fd s) (archive_fd s) (base_path s) (archive_path s)
    (temporary_base_path s) (temporary_archive_path s) (base_mode s)
    (make_perm_mode s) (buffer s) (object_digest s) (archive_digest s)
    (index s) x.

(** ** The machine and its monad

    The driver object, the operating system behind it, and the trace of
    calls made so far (oldest first). *)
Record Machine : Type := mkMachine {
  sync : CaSync;
  os : OS;
  trace : list Event
}.

Definition M (A : Type) : Type := Machine -> Outcome (A * Machine).

Definition ret {A} (a : A) : M A := fun m => Ret (a, m).

Definition bind {A B} (c : M A) (k : A -> M B) : M B :=
  fun m =>
    match c m with
    | Ret (a, m') => k a m'
    | Undefined f => Undefined f
    end.

Definition fault {A} (f : Fault) : M A := fun _ => Undefined f.

Definition get_sync : M CaSync := fun m => Ret (sync m, m).

Definition modify (f : CaSync -> CaSync) : M unit :=
  fun m => Ret (tt, mkMachine (f (sync m)) (os m) (trace m)).

Definition emit (e : Event) : M unit :=
  fun m => Ret (tt, mkMachine (sync m) (os m) (trace m ++ [e])).

Definition lift {A} (o : Outcome A) : M A :=
  fun m => match o with Ret a => Ret (a, m) | Undefined f => Undefined f end.

Definition sys {A} (f : OS -> OS * A) : M A :=
  fun m => let '(o, a) := f (os m) in Ret (a, mkMachine (sync m) o (trace m)).

End Driver.

Declare Scope casync_scope.
Delimit Scope casync_scope with casync.

Notation "x <- c ;; k" := (bind c (fun x => k))
  (at level 61, c at next level, right associativity) : casync_scope.
Notation "c ;; k" := (bind c (fun _ => k))
  (at level 61, right associativity) : casync_scope.
(** [r = c; if (r < 0) return r;] *)
Notation "'check' r <- c ;; k" :=
  (bind c (fun r => if r <? 0 then ret r else k))
  (at level 61, r name, c at next level, right associativity) : casync_scope.

Local Open Scope casync_scope.

Section Code.

Context {C : Collaborators}.

(** Calls on the collaborator objects the driver points to.  The code only
    makes them behind a NULL test or an assertion. *)
Definition on_encoder {A} (f : CaEncoder -> CaEncoder * A) : M A :=
  s <- get_sync ;;
  match encoder s with
  | Some e => let '(e', a) := f e in modify (with_encoder (Some e')) ;; ret a
  | None => fault AssertionFailed
  end.

Definition on_decoder {A} (f : CaDecoder -> CaDecoder * A) : M A :=
  s <- get_sync ;;
  match decoder s with
  | Some d => let '(d', a) := f d in modify (with_decoder (Some d')) ;; ret a
  | None => fault AssertionFailed
  end.

Definition on_wstore {A} (f : CaStore -> CaStore * A) : M A :=
  s <- get_sync ;;
  match wstore s with
  | Some st => let '(st', a) := f st in modify (with_wstore (Some st')) ;; ret a
  | None => fault AssertionFailed
  end.

Definition on_index {A} (f : CaIndex -> CaIndex * A) : M A :=
  s <- get_sync ;;
  match index s with
  | Some i => let '(i', a) := f i in modify (with_index (Some i')) ;; ret a
  | None => fault AssertionFailed
  end.

Definition sys_open (path : string) (flags mode : Z) : M Z :=
  r <- sys (fun o => os_open o path flags mode) ;;
  emit (EvOpen path flags mode r) ;; ret r.

Definition sys_rename (src dst : string) : M Z :=
  r <- sys (fun o => os_rename o src dst) ;;
  emit (EvRename src dst r) ;; ret r.

Definition sys_mkdir (path : string) (mode : Z) : M Z :=
  r <- sys (fun o => os_mkdir o path mode) ;;
  emit (EvMkdir path r) ;; ret r.

(** The value an [int] descriptor slot holds after [slot = open(...)]. *)
Definition fd_of (r : Z) : Z := if r <? 0 then -1 else r.

Definition is_some {A} (o : option A) : bool :=
  match o with Some _ => true | None => false end.

Definition lor_all (l : list Z) : Z := fold_right Z.lor 0 l.

(** ** Construction *)

Definition ca_sync_new : CaSync :=
  mkCaSync CA_SYNC_ENCODE None None None [] chunker_init (-1) (-1)
    None None None None MODE_INVALID MODE_INVALID [] None None None false.

Definition with_direction (d : CaDirection) (s : CaSync) : CaSync :=
  mkCaSync d (encoder s) (decoder s) (wstore s) (rstores s) (chunker s)
    (base_fd s) (archive_fd s) (base_path s) (archive_path s)
    (temporary_base_path s) (temporary_archive_path s) (base_mode s)
    (make_perm_mode s) (buffer s) (object_digest s) (archive_digest s)
    (index s) (eof s).

Definition ca_sync_new_encode : CaSync :=
  with_direction CA_SYNC_ENCODE ca_sync_new.

Definition ca_sync_new_decode : CaSync :=
  with_direction CA_SYNC_DECODE ca_sync_new.

(** ** Configuration *)

Definition ca_sync_allocate_index : M Z :=
  s <- get_sync ;;
  if is_some (index s) then ret (- EBUSY)
  else
    modify (with_index
              (Some (match direction s with
                     | CA_SYNC_ENCODE => ca_index_new_write
                     | CA_SYNC_DECODE => ca_index_new_read
                     end))) ;;
    ret 0.

Definition ca_sync_set_index_fd (fd : Z) : M Z :=
  if fd <? 0 then ret (- EINVAL)
  else
    check r <- ca_sync_allocate_index ;;
    r <- on_index (fun i => ca_index_set_fd i fd) ;;
    if r <? 0 then modify (with_index None) ;; ret r
    else ret 0.

Definition ca_sync_set_index_path (path : option string) : M Z :=
  match path with
  | None => ret (- EINVAL)
  | Some path =>
      check r <- ca_sync_allocate_index ;;
      r <- on_index (fun i => ca_index_set_path i path) ;;
      if r <? 0 then modify (with_index None) ;; ret r
      else ret 0
  end.

Definition ca_sync_set_base_fd (fd : Z) : M Z :=
  s <- get_sync ;;
  if fd <? 0 then ret (- EINVAL)
  else if base_fd s >=? 0 then ret (- EBUSY)
  else if negb (base_mode s =? MODE_INVALID) then ret (- EBUSY)
  else if is_some (base_path s) then ret (- EBUSY)
  else modify (with_base_fd fd) ;; ret 0.

Definition ca_sync_set_base_path (path : option string) : M Z :=
  s <- get_sync ;;
  match path with
  | None => ret (- EINVAL)
  | Some path =>
      if base_fd s >=? 0 then ret (- EBUSY)
      else if is_some (base_path s) then ret (- EBUSY)
      else
        r <- sys_open path
               (lor_all [O_RDONLY; O_CLOEXEC; O_NOCTTY; O_DIRECTORY]) 0 ;;
        modify (with_base_fd (fd_of r)) ;;
        if r >=? 0 then ret 0
        else
          match direction s with
          | CA_SYNC_ENCODE =>
              if negb (- r =? ENOTDIR) then ret r
              else
                r <- sys_open path
                       (lor_all [O_RDONLY; O_CLOEXEC; O_NOCTTY]) 0 ;;
                modify (with_base_fd (fd_of r)) ;;
                if r <? 0 then ret r else ret 0
          | CA_SYNC_DECODE =>
              modify (with_base_path (Some path)) ;; ret 0
          end
  end.

Definition ca_sync_set_make_perm_mode (m : Z) : M Z :=
  s <- get_sync ;;
  if negb (Z.land m (mode_not (lor_all [S_IRUSR; S_IWUSR; S_IRGRP; S_IWGRP;
                                        S_IROTH; S_IWOTH])) =? 0)
  then ret (- EINVAL)
  else if negb (is_encode (direction s)) then ret (- ENOTTY)
  else if negb (make_perm_mode s =? MODE_INVALID) then ret (- EBUSY)
  else modify (with_make_perm_mode m) ;; ret 0.

Definition ca_sync_set_base_mode (m : Z) : M Z :=
  s <- get_sync ;;
  if negb (Z.land m (mode_not (Z.lor 4095 S_IFMT)) =? 0) then ret (- EINVAL)
  else if negb (S_ISREG m) && negb (S_ISDIR m) && negb (S_ISBLK m)
  then ret (- ENOTTY)
  else if is_encode (direction s) then ret (- ENOTTY)
  else if base_fd s >=? 0 then ret (- EBUSY)
  else if negb (base_mode s =? MODE_INVALID) then ret (- EBUSY)
  else modify (with_base_mode m) ;; ret 0.

Definition ca_sync_set_archive_fd (fd : Z) : M Z :=
  s <- get_sync ;;
  if fd <? 0 then ret (- EINVAL)
  else if archive_fd s >=? 0 then ret (- EBUSY)
  else if is_some (archive_path s) then ret (- EBUSY)
  else modify (with_archive_fd fd) ;; ret 0.

Definition ca_sync_set_archive_path (path : option string) : M Z :=
  s <- get_sync ;;
  match path with
  | None => ret (- EINVAL)
  | Some path =>
      if archive_fd s >=? 0 then ret (- EBUSY)
      else if is_some (archive_path s) then ret (- EBUSY)
      else
        match direction s with
        | CA_SYNC_ENCODE =>
            modify (with_archive_path (Some path)) ;; ret 0
        | CA_SYNC_DECODE =>
            r <- sys_open path (lor_all [O_RDONLY; O_CLOEXEC; O_NOCTTY]) 0 ;;
            modify (with_archive_fd (fd_of r)) ;;
            if r <? 0 then ret r else ret 0
        end
  end.

Definition ca_sync_set_store_local (path : option string) : M Z :=
  s <- get_sync ;;
  match path with
  | None => ret (- EINVAL)
  | Some path =>
      if is_some (wstore s) then ret (- EBUSY)
      else
        modify (with_wstore (Some ca_store_new)) ;;
        r <- on_wstore (fun st => ca_store_set_local st path) ;;
        if r <? 0 then modify (with_wstore None) ;; ret r
        else ret 0
  end.

Definition ca_sync_add_seed_store_local (path : option string) : M Z :=
  match path with
  | None => ret (- EINVAL)
  | Some path =>
      let '(store, r) := ca_store_set_local ca_store_new path in
      if r <? 0 then ret r
      else
        s <- get_sync ;;
        modify (with_rstores (rstores s ++ [store])) ;; ret 0
  end.

(** ** Lazy start *)

Definition sys_tempfn_random (path : string) : M (Z * string) :=
  sys (fun o => let '(o', r, t) := tempfn_random o path in (o', (r, t))).

Definition index_open : M Z :=
  r <- on_index ca_index_open ;; emit (EvIndexOpen r) ;; ret r.

(** First block of [ca_sync_start]: the temporary archive output. *)
Definition start_archive : M Z :=
  s <- get_sync ;;
  match archive_path s with
  | Some ap =>
      if is_encode (direction s) && (archive_fd s <? 0) then
        check r <-
          (if is_some (temporary_archive_path s) then ret 0
           else
             x <- sys_tempfn_random ap ;;
             let '(r, t) := x in
             if r <? 0 then ret r
             else modify (with_temporary_archive_path (Some t)) ;; ret 0) ;;
        s <- get_sync ;;
        match temporary_archive_path s with
        | Some tp =>
            r <- sys_open tp
                   (lor_all [O_WRONLY; O_CLOEXEC; O_NOCTTY; O_CREAT; O_EXCL])
                   (Z.land (make_perm_mode s) 438) ;;
            modify (with_archive_fd (fd_of r)) ;;
            if r <? 0 then
              modify (with_temporary_archive_path None) ;; ret r
            else ret 0
        | None => fault AssertionFailed
        end
      else ret 0
  | None => ret 0
  end.

(** Second block: the encoder takes over the base descriptor. *)
Definition start_encoder : M Z :=
  s <- get_sync ;;
  if is_encode (direction s) && negb (is_some (encoder s)) then
    if base_fd s <? 0 then ret (- EUNATCH)
    else
      modify (with_encoder (Some ca_encoder_new)) ;;
      r <- on_encoder (fun e => ca_encoder_set_base_fd e (base_fd s)) ;;
      if r <? 0 then modify (with_encoder None) ;; ret r
      else modify (with_base_fd (-1)) ;; ret 0
  else ret 0.

(** Third block, first half: the base of a decode is materialized from
    [base_path] and [base_mode]. *)
Definition start_base : M Z :=
  s <- get_sync ;;
  match base_path s with
  | Some bp =>
      if base_fd s <? 0 then
        if base_mode s =? MODE_INVALID then ret (- EUNATCH)
        else if S_ISDIR (base_mode s) then
          r <- sys_mkdir bp 511 ;;
          if (r <? 0) && negb (- r =? EEXIST) then ret r
          else
            r <- sys_open bp
                   (lor_all [O_RDONLY; O_CLOEXEC; O_NOCTTY; O_DIRECTORY]) 0 ;;
            modify (with_base_fd (fd_of r)) ;;
            if r <? 0 then ret r else ret 0
        else if S_ISREG (base_mode s) then
          check r <-
            (if is_some (temporary_base_path s) then ret 0
             else
               x <- sys_tempfn_random bp ;;
               let '(r, t) := x in
               if r <? 0 then ret r
               else modify (with_temporary_base_path (Some t)) ;; ret 0) ;;
          s <- get_sync ;;
          match temporary_base_path s with
          | Some tp =>
              r <- sys_open tp
                     (lor_all [O_WRONLY; O_CLOEXEC; O_NOCTTY; O_CREAT; O_EXCL])
                     511 ;;
              modify (with_base_fd (fd_of r)) ;;
              if r <? 0 then
                modify (with_temporary_base_path None) ;; ret r
              else ret 0
          | None => fault AssertionFailed
          end
        else if S_ISBLK (base_mode s) then
          r <- sys_open bp (lor_all [O_WRONLY; O_CLOEXEC; O_NOCTTY]) 0 ;;
          modify (with_base_fd (fd_of r)) ;;
          if r <? 0 then ret r else ret 0
        else fault AssertionFailed
      else ret 0
  | None => ret 0
  end.

(** Third block: the decoder is created and given the base. *)
Definition start_decoder : M Z :=
  s <- get_sync ;;
  if is_decode (direction s) && negb (is_some (decoder s)) then
    check r <- start_base ;;
    modify (with_decoder (Some ca_decoder_new)) ;;
    s <- get_sync ;;
    if base_fd s >=? 0 then
      check r <- on_decoder (fun d => ca_decoder_set_base_fd d (base_fd s)) ;;
      modify (with_base_fd (-1)) ;; ret 0
    else if base_mode s =? MODE_INVALID then ret (- EUNATCH)
    else
      check r <- on_decoder
                   (fun d => ca_decoder_set_base_mode d (base_mode s)) ;;
      ret 0
  else ret 0.

(** Fourth block: the index is opened, on every call. *)
Definition start_index : M Z :=
  s <- get_sync ;;
  if is_some (index s) then check r <- index_open ;; ret 0
  else ret 0.

Definition ca_sync_start : M Z :=
  check r <- start_archive ;;
  check r <- start_encoder ;;
  check r <- start_decoder ;;
  check r <- start_index ;;
  ret 0.

(** ** Digests *)

Definition digest_bytes (h : option (list byte)) : list byte :=
  match h with Some acc => acc | None => [] end.

Definition ca_sync_allocate_archive_digest : M Z :=
  s <- get_sync ;;
  if is_some (archive_digest s) then ret 0
  else modify (with_archive_digest (Some [])) ;; ret 0.

(** [gcry_md_write (s->archive_digest, p, l)] reads [l] bytes through
    [p]. *)
Definition ca_sync_write_archive_digest (p : Block) (l : Z) : M Z :=
  check r <- ca_sync_allocate_archive_digest ;;
  bytes <- lift (read_block p l) ;;
  s <- get_sync ;;
  modify (with_archive_digest
            (Some (digest_bytes (archive_digest s) ++ bytes))) ;;
  ret 0.

(** The handle is opened on first use and reset on every later one. *)
Definition ca_sync_make_object_id (p : list byte) : M (Z * ObjectID) :=
  modify (with_object_digest (Some [])) ;;
  s <- get_sync ;;
  modify (with_object_digest (Some (digest_bytes (object_digest s) ++ p))) ;;
  s <- get_sync ;;
  ret (0, sha256 (digest_bytes (object_digest s))).

Definition ca_sync_get_digest : M (Z * option ObjectID) :=
  s <- get_sync ;;
  if negb (eof s) then ret (- EBUSY, None)
  else
    r <- ca_sync_allocate_archive_digest ;;
    if r <? 0 then ret (r, None)
    else
      s <- get_sync ;;
      ret (0, Some (sha256 (digest_bytes (archive_digest s)))).

(** ** Store fan-in *)

Fixpoint get_rstores (l : list CaStore) (id : ObjectID) : Z * list byte :=
  match l with
  | [] => (- ENOENT, [])
  | st :: l' =>
      let '(r, obj) := ca_store_get (Some st) id in
      if negb (r =? - ENOENT) then (r, obj) else get_rstores l' id
  end.

(** Returns the code and, when it is not negative, the object. *)
Definition ca_sync_get (s : CaSync) (object_id : option ObjectID)
  : Z * list byte :=
  match object_id with
  | None => (- EINVAL, [])
  | Some id =>
      let '(r, obj) := ca_store_get (wstore s) id in
      if negb (r =? - ENOENT) then (r, obj) else get_rstores (rstores s) id
  end.

(** ** Encode pipeline *)

Definition ca_sync_write_archive (p : list byte) : M Z :=
  s <- get_sync ;;
  if archive_fd s <? 0 then ret 0
  else
    r <- sys (fun o => loop_write o (archive_fd s) p) ;;
    emit (EvLoopWrite (archive_fd s) p r) ;; ret r.

Definition store_put (id : ObjectID) (p : list byte) : M Z :=
  r <- on_wstore (fun st => ca_store_put st id p) ;;
  emit (EvStorePut id p r) ;; ret r.

Definition index_write_object (id : ObjectID) (size : Z) : M Z :=
  r <- on_index (fun i => ca_index_write_object i id size) ;;
  emit (EvIndexWriteObject id size r) ;; ret r.

Definition ca_sync_write_one_chunk (p : list byte) : M Z :=
  x <- ca_sync_make_object_id p ;;
  let '(r, id) := x in
  if r <? 0 then ret r
  else
    check r <- store_put id p ;;
    s <- get_sync ;;
    if is_some (index s) then index_write_object id (len p)
    else ret 0.

Definition chunker_scan (p : list byte) : M Z :=
  s <- get_sync ;;
  let '(c, k) := ca_chunker_scan (chunker s) p in
  modify (with_chunker c) ;;
  emit (EvChunkerScan p k) ;; ret k.

(** The [while (l > 0)] loop of [ca_sync_write_chunks].  A cut position
    beyond the input would make the code read past [p + l].  Every round
    with a cut of at least one byte shortens the input, so [fuel] rounds
    are given for an input of [fuel - 1] bytes; a chunker that keeps
    cutting at 0 uses them up. *)
Fixpoint write_chunks_loop (fuel : nat) (p : list byte) : M Z :=
  if len p >? 0 then
    match fuel with
    | O => fault NoProgress
    | S fuel' =>
        k <- chunker_scan p ;;
        if k =? SIZE_MAX then
          s <- get_sync ;;
          modify (with_buffer (buffer s ++ p)) ;; ret 0
        else if (k <? 0) || (k >? len p) then fault OutOfBounds
        else
          s <- get_sync ;;
          check r <-
            (if len (buffer s) =? 0 then
               ca_sync_write_one_chunk (firstn (Z.to_nat k) p)
             else
               modify (with_buffer (buffer s ++ firstn (Z.to_nat k) p)) ;;
               s <- get_sync ;;
               ca_sync_write_one_chunk (buffer s)) ;;
          modify (with_buffer []) ;;
          write_chunks_loop fuel' (skipn (Z.to_nat k) p)
    end
  else ret 0.

Definition ca_sync_write_chunks (p : list byte) : M Z :=
  s <- get_sync ;;
  if negb (is_some (wstore s)) then ret 0
  else write_chunks_loop (S (List.length p)) p.

Definition index_set_digest (q : ObjectID) : M Z :=
  r <- on_index (fun i => ca_index_set_digest i q) ;;
  emit (EvIndexSetDigest q r) ;; ret r.

Definition index_write_eof : M Z :=
  r <- on_index ca_index_write_eof ;; emit (EvIndexWriteEof r) ;; ret r.

Definition index_close : M Z :=
  r <- on_index ca_index_close ;; emit (EvIndexClose r) ;; ret r.

Definition ca_sync_write_final_chunk : M Z :=
  s <- get_sync ;;
  if negb (is_some (wstore s)) then ret 0
  else if len (buffer s) =? 0 then ret 0
  else
    check r <- ca_sync_write_one_chunk (buffer s) ;;
    s <- get_sync ;;
    if is_some (index s) then
      check r <- ca_sync_allocate_archive_digest ;;
      s <- get_sync ;;
      check r <- index_set_digest (sha256 (digest_bytes (archive_digest s))) ;;
      check r <- index_write_eof ;;
      check r <- index_close ;;
      ret 0
    else ret 0.

Definition encoder_get_data : M (Z * list byte) :=
  x <- on_encoder (fun e =>
                     let '(e', r, p) := ca_encoder_get_data e in (e', (r, p))) ;;
  emit (EvEncoderGetData (fst x) (snd x)) ;; ret x.

(** The rename of a finished temporary onto its target, shared in shape by
    the two [FINISHED] cases. *)
Definition rename_temporary (tmp dst : option string)
  (clear : CaSync -> CaSync) : M Z :=
  match tmp, dst with
  | Some t, Some d =>
      r <- sys_rename t d ;;
      if r <? 0 then ret r else modify clear ;; ret 0
  | _, _ => ret 0
  end.

Definition ca_sync_step_encode : M Z :=
  s <- get_sync ;;
  if eof s then ret (- EPIPE)
  else if is_some (encoder s) then
    step <- on_encoder ca_encoder_step ;;
    if step <? 0 then ret step
    else if step =? CA_ENCODER_FINISHED then
      check r <- rename_temporary (temporary_archive_path s) (archive_path s)
                   (with_temporary_archive_path None) ;;
      check r <- ca_sync_write_final_chunk ;;
      modify (with_eof true) ;;
      ret CA_SYNC_FINISHED
    else if (step =? CA_ENCODER_NEXT_FILE) || (step =? CA_ENCODER_DATA) then
      x <- encoder_get_data ;;
      let '(r, p) := x in
      if r <? 0 then ret r
      else
        check r <- ca_sync_write_archive p ;;
        check r <- ca_sync_write_archive_digest (Live p) (len p) ;;
        check r <- ca_sync_write_chunks p ;;
        ret (if step =? CA_ENCODER_NEXT_FILE then CA_SYNC_NEXT_FILE
             else CA_SYNC_STEP)
    else fault AssertionFailed
  else fault AssertionFailed.

(** ** Decode pipeline *)

Definition index_read_object : M (Z * ObjectID * Z) :=
  on_index (fun i =>
              let '(i', r, id, size) := ca_index_read_object i in
              (i', (r, id, size))).

Definition decoder_put_eof : M Z :=
  r <- on_decoder ca_decoder_put_eof ;; emit (EvDecoderPutEof r) ;; ret r.

Definition decoder_put_data (p : list byte) : M Z :=
  r <- on_decoder (fun d => ca_decoder_put_data d p) ;;
  emit (EvDecoderPutData p r) ;; ret r.

Definition decoder_put_data_fd (fd offset size : Z) : M Z :=
  r <- on_decoder (fun d => ca_decoder_put_data_fd d fd offset size) ;;
  emit (EvDecoderPutDataFd fd r) ;; ret r.

Definition UINT64_MAX : Z := 2 ^ 64 - 1.

(** The object returned by [ca_sync_get] lives in a block [p] of its own.
    [ca_decoder_put_data] reads it while it is live; the block is then
    released, and the released block is what [ca_sync_write_archive_digest]
    is given. *)
Definition ca_sync_process_decoder_request : M Z :=
  s <- get_sync ;;
  if is_some (index s) then
    x <- index_read_object ;;
    let '(r, id, index_size) := x in
    if r <? 0 then ret r
    else if r =? 0 then
      check r <- decoder_put_eof ;;
      ret 0
    else
      s <- get_sync ;;
      let '(r, obj) := ca_sync_get s (Some id) in
      if r <? 0 then ret r
      else
        let p := Live obj in
        let object_size := len obj in
        if negb (index_size =? object_size) then
          let p := free p in
          ret (- EBADMSG)
        else
          bytes <- lift (read_block p index_size) ;;
          r <- decoder_put_data bytes ;;
          let p := free p in
          if r <? 0 then ret r
          else
            check r <- ca_sync_write_archive_digest p index_size ;;
            ret 0
  else if archive_fd s >=? 0 then
    check r <- decoder_put_data_fd (archive_fd s) UINT64_MAX UINT64_MAX ;;
    ret 0
  else ret (- ENOTTY).

Definition ca_sync_step_decode : M Z :=
  s <- get_sync ;;
  if eof s then ret (- EPIPE)
  else if is_some (decoder s) then
    step <- on_decoder ca_decoder_step ;;
    if step <? 0 then ret step
    else if step =? CA_DECODER_FINISHED then
      check r <- rename_temporary (temporary_base_path s) (base_path s)
                   (with_temporary_base_path None) ;;
      modify (with_eof true) ;;
      ret CA_SYNC_FINISHED
    else if step =? CA_DECODER_NEXT_FILE then ret CA_SYNC_NEXT_FILE
    else if (step =? CA_DECODER_STEP) || (step =? CA_DECODER_PAYLOAD) then
      ret CA_SYNC_STEP
    else if step =? CA_DECODER_REQUEST then
      check r <- ca_sync_process_decoder_request ;;
      ret CA_SYNC_STEP
    else ret (- ENOTTY)
  else ret (- ENOTTY).

(** ** The step function *)

Definition ca_sync_step : M Z :=
  check r <- ca_sync_start ;;
  s <- get_sync ;;
  match direction s with
  | CA_SYNC_ENCODE => ca_sync_step_encode
  | CA_SYNC_DECODE => ca_sync_step_decode
  end.

(** ** Runs

    The calls a caller can make on a driver, and the machine after a
    sequence of them.  [run] stops at the first call that leaves defined
    behaviour. *)
Inductive Call :=
| SetIndexFd (fd : Z)
| SetIndexPath (path : option string)
| SetBaseFd (fd : Z)
| SetBasePath (path : option string)
| SetMakePermMode (m : Z)
| SetBaseMode (m : Z)
| SetArchiveFd (fd : Z)
| SetArchivePath (path : option string)
| SetStoreLocal (path : option string)
| AddSeedStoreLocal (path : option string)
| Step
| GetDigest.

Definition call (c : Call) : M Z :=
  match c with
  | SetIndexFd fd => ca_sync_set_index_fd fd
  | SetIndexPath path => ca_sync_set_index_path path
  | SetBaseFd fd => ca_sync_set_base_fd fd
  | SetBasePath path => ca_sync_set_base_path path
  | SetMakePermMode m => ca_sync_set_make_perm_mode m
  | SetBaseMode m => ca_sync_set_base_mode m
  | SetArchiveFd fd => ca_sync_set_archive_fd fd
  | SetArchivePath path => ca_sync_set_archive_path path
  | SetStoreLocal path => ca_sync_set_store_local path
  | AddSeedStoreLocal path => ca_sync_add_seed_store_local path
  | Step => ca_sync_step
  | GetDigest => x <- ca_sync_get_digest ;; ret (fst x)
  end.

(** The results of the calls, oldest first, and the machine after the
    last one. *)
Fixpoint run (cs : list Call) (m : Machine) : Outcome (list Z * Machine) :=
  match cs with
  | [] => Ret ([], m)
  | c :: cs' =>
      match call c m with
      | Ret (r, m') =>
          match run cs' m' with
          | Ret (rs, m'') => Ret (r :: rs, m'')
          | Undefined f => Undefined f
          end
      | Undefined f => Undefined f
      end
  end.

Definition start_machine (s : CaSync) (o : OS) : Machine :=
  mkMachine s o [].

End Code.

(** ** A small concrete set of collaborators

    Scripted stand-ins, used to run the driver on concrete inputs: the
    encoder and the decoder replay a script of step results, a store is the
    list of its objects, an index is the list of its records, the chunker
    cuts where [k_cut] says, and the digest is the identity on byte
    lists. *)

Module Toy.

Record Knobs : Type := mkKnobs {
  k_encoder : list (Z * list byte);
  k_decoder : list Z;
  k_put_rc : Z;
  k_reopen_rc : Z;
  k_records : list (ObjectID * Z);
  k_disk : string -> list (ObjectID * list byte);
  k_cut : list byte -> Z
}.

Record Index : Type := mkIndex {
  ti_closed : bool;
  ti_records : list (ObjectID * Z);
  ti_digest : option ObjectID;
  ti_eof : bool
}.

Definition bytes_eqb (a b : list byte) : bool :=
  if list_eq_dec Byte.byte_eq_dec a b then true else false.

Fixpoint lookup (id : ObjectID) (l : list (ObjectID * list byte))
  : option (list byte) :=
  match l with
  | [] => None
  | (i, obj) :: l' => if bytes_eqb i id then Some obj else lookup id l'
  end.

Definition encoder_step (e : list (Z * list byte) * list byte)
  : (list (Z * list byte) * list byte) * Z :=
  match fst e with
  | [] => (e, 0)
  | (r, d) :: rest => ((rest, d), r)
  end.

Definition decoder_step (d : list Z * list (list byte))
  : (list Z * list (list byte)) * Z :=
  match fst d with
  | [] => (d, 0)
  | r :: rest => ((rest, snd d), r)
  end.

Definition store_get (st : option (list (ObjectID * list byte)))
  (id : ObjectID) : Z * list byte :=
  match st with
  | None => (- EINVAL, [])
  | Some objs =>
      match lookup id objs with
      | Some obj => (0, obj)
      | None => (- ENOENT, [])
      end
  end.

Definition index_read (i : Index) : Index * Z * ObjectID * Z :=
  match ti_records i with
  | [] => (i, 0, [], 0)
  | (id, size) :: rest =>
      (mkIndex (ti_closed i) rest (ti_digest i) (ti_eof i), 1, id, size)
  end.

Lemma nodup3 : NoDup [0; 1; 2].
Proof. repeat constructor; simpl; intuition lia. Qed.

Lemma nodup5 : NoDup [0; 1; 2; 3; 4].
Proof. repeat constructor; simpl; intuition lia. Qed.

Definition collaborators (k : Knobs) : Collaborators := {|
  CaEncoder := list (Z * list byte) * list byte;
  CaDecoder := list Z * list (list byte);
  CaStore := list (ObjectID * list byte);
  CaIndex := Index;
  CaChunker := unit;
  OS := Z;
  sha256 := fun p => p;
  CA_SYNC_FINISHED := 0;
  CA_SYNC_STEP := 1;
  CA_SYNC_NEXT_FILE := 2;
  CA_ENCODER_FINISHED := 0;
  CA_ENCODER_NEXT_FILE := 1;
  CA_ENCODER_DATA := 2;
  CA_DECODER_FINISHED := 0;
  CA_DECODER_NEXT_FILE := 1;
  CA_DECODER_STEP := 2;
  CA_DECODER_PAYLOAD := 3;
  CA_DECODER_REQUEST := 4;
  sync_enum := conj (Z.le_refl 0) (conj (Z.le_0_1) (conj (Z.le_0_2) nodup3));
  encoder_enum :=
    conj (Z.le_refl 0) (conj (Z.le_0_1) (conj (Z.le_0_2) nodup3));
  decoder_enum :=
    conj (Z.le_refl 0)
      (conj Z.le_0_1
         (conj Z.le_0_2
            (conj (Z.lt_le_incl 0 3 eq_refl)
               (conj (Z.lt_le_incl 0 4 eq_refl) nodup5))));
  ca_encoder_new := (k_encoder k, []);
  ca_encoder_set_base_fd := fun e _ => (e, 0);
  ca_encoder_step := encoder_step;
  ca_encoder_get_data := fun e => (e, 0, snd e);
  ca_decoder_new := (k_decoder k, []);
  ca_decoder_set_base_fd := fun d _ => (d, 0);
  ca_decoder_set_base_mode := fun d _ => (d, 0);
  ca_decoder_step := decoder_step;
  ca_decoder_put_data := fun d p => ((fst d, snd d ++ [p]), 0);
  ca_decoder_put_data_fd := fun d _ _ _ => (d, 0);
  ca_decoder_put_eof := fun d => (d, 0);
  ca_store_new := [];
  ca_store_set_local := fun _ path => (k_disk k path, 0);
  ca_store_get := store_get;
  ca_store_put :=
    fun st id p =>
      if k_put_rc k <? 0 then (st, k_put_rc k) else (st ++ [(id, p)], 0);
  ca_index_new_write := mkIndex false [] None false;
  ca_index_new_read := mkIndex false (k_records k) None false;
  ca_index_set_fd := fun i _ => (i, 0);
  ca_index_set_path := fun i _ => (i, 0);
  ca_index_open := fun i => (i, if ti_closed i then k_reopen_rc k else 0);
  ca_index_write_object :=
    fun i id size =>
      (mkIndex (ti_closed i) (ti_records i ++ [(id, size)]) (ti_digest i)
         (ti_eof i), 0);
  ca_index_read_object := index_read;
  ca_index_set_digest :=
    fun i q => (mkIndex (ti_closed i) (ti_records i) (Some q) (ti_eof i), 0);
  ca_index_write_eof :=
    fun i => (mkIndex (ti_closed i) (ti_records i) (ti_digest i) true, 0);
  ca_index_close :=
    fun i => (mkIndex true (ti_records i) (ti_digest i) (ti_eof i), 0);
  chunker_init := tt;
  ca_chunker_scan := fun c p => (c, k_cut k p);
  os_open := fun o _ _ _ => (o + 1, o);
  os_rename := fun o _ _ => (o, 0);
  os_mkdir := fun o _ _ => (o, 0);
  tempfn_random := fun o path => (o, 0, (path ++ ".tmp")%string);
  loop_write := fun o _ _ => (o, 0)
|}.

(** Cut after every second byte of the input at hand. *)
Definition cut2 (p : list byte) : Z := if len p >=? 2 then 2 else SIZE_MAX.

Definition no_disk (path : string) : list (ObjectID * list byte) := [].

End Toy.

(** ** What a trace says

    Projections of the trace onto the sinks and sources the driver
    connects. *)

(** The archive byte stream: the data obtained from the encoder. *)
Fixpoint archive_stream (t : list Event) : list byte :=
  match t with
  | [] => []
  | EvEncoderGetData r p :: t' =>
      (if r <? 0 then [] else p) ++ archive_stream t'
  | _ :: t' => archive_stream t'
  end.

(** The bytes given to [loop_write] on descriptor [fd]. *)
Fixpoint written (fd : Z) (t : list Event) : list byte :=
  match t with
  | [] => []
  | EvLoopWrite fd' p _ :: t' =>
      (if fd' =? fd then p else []) ++ written fd t'
  | _ :: t' => written fd t'
  end.

(** The bytes the chunker consumed: up to the cut, or the whole input when
    it found none. *)
Fixpoint chunked (t : list Event) : list byte :=
  match t with
  | [] => []
  | EvChunkerScan p k :: t' =>
      (if k =? SIZE_MAX then p else firstn (Z.to_nat k) p) ++ chunked t'
  | _ :: t' => chunked t'
  end.

(** The chunk payloads submitted to the writable store, in order. *)
Fixpoint submitted (t : list Event) : list (list byte) :=
  match t with
  | [] => []
  | EvStorePut _ p _ :: t' => p :: submitted t'
  | _ :: t' => submitted t'
  end.

(** The records appended to the index, in order. *)
Fixpoint indexed (t : list Event) : list (ObjectID * Z) :=
  match t with
  | [] => []
  | EvIndexWriteObject id size _ :: t' => (id, size) :: indexed t'
  | _ :: t' => indexed t'
  end.

(** The byte ranges handed to the decoder by [ca_decoder_put_data]. *)
Fixpoint handed (t : list Event) : list (list byte) :=
  match t with
  | [] => []
  | EvDecoderPutData p _ :: t' => p :: handed t'
  | _ :: t' => handed t'
  end.

(** The successful renames, as (source, target). *)
Fixpoint renamed (t : list Event) : list (string * string) :=
  match t with
  | [] => []
  | EvRename src dst r :: t' =>
      (if r <? 0 then [] else [(src, dst)]) ++ renamed t'
  | _ :: t' => renamed t'
  end.

(** The digests written to the index by [ca_index_set_digest]. *)
Fixpoint digests_set (t : list Event) : list ObjectID :=
  match t with
  | [] => []
  | EvIndexSetDigest q _ :: t' => q :: digests_set t'
  | _ :: t' => digests_set t'
  end.

Definition is_index_finalization (e : Event) : bool :=
  match e with
  | EvIndexSetDigest _ _ | EvIndexWriteEof _ | EvIndexClose _ => true
  | _ => false
  end.

(** Events of [ca_sync_start]: they touch none of the projections. *)
Definition quiet (e : Event) : bool :=
  match e with
  | EvOpen _ _ _ _ | EvMkdir _ _ | EvIndexOpen _ => true
  | _ => false
  end.

(** * Properties *)

Section Properties.

Context {C : Collaborators}.

(** ** Store fan-in *)







(** ** Proof tools *)

Ltac munfold :=
  unfold bind, ret, get_sync, modify, emit, lift, sys, fault in *.

Ltac fields :=
  cbn [sync os trace direction encoder decoder wstore rstores chunker
       base_fd archive_fd base_path archive_path temporary_base_path
       temporary_archive_path base_mode make_perm_mode buffer object_digest
       archive_digest index eof with_encoder with_decoder with_wstore
       with_rstores with_chunker with_base_fd with_archive_fd with_base_path
       with_archive_path with_temporary_base_path
       with_temporary_archive_path with_base_mode with_make_perm_mode
       with_buffer with_object_digest with_archive_digest with_index
       with_eof with_direction is_some fst snd] in *.

Lemma eqb_false (a b : Z) : a <> b -> (a =? b) = false.
Proof. intros H. apply Z.eqb_neq. exact H. Qed.

Lemma ltb_false (a : Z) : 0 <= a -> (a <? 0) = false.
Proof. intros H. apply Z.ltb_ge. exact H. Qed.

Lemma decoder_enum_facts :
  0 <= CA_DECODER_REQUEST /\
  CA_DECODER_REQUEST <> CA_DECODER_FINISHED /\
  CA_DECODER_REQUEST <> CA_DECODER_NEXT_FILE /\
  CA_DECODER_REQUEST <> CA_DECODER_STEP /\
  CA_DECODER_REQUEST <> CA_DECODER_PAYLOAD.
Proof.
  destruct decoder_enum as (_ & _ & _ & _ & H0 & Hnd).
  inversion Hnd as [|? ? H1 Hnd1]; subst.
  inversion Hnd1 as [|? ? H2 Hnd2]; subst.
  inversion Hnd2 as [|? ? H3 Hnd3]; subst.
  inversion Hnd3 as [|? ? H4 Hnd4]; subst.
  cbn [In] in *. repeat split; auto; intros E; rewrite E in *; tauto.
Qed.

(** ** Decode: a chunk whose size disagrees with the index *)

Lemma ca_sync_get_with_index (s : CaSync) (x : option CaIndex)
  (id : option ObjectID) :
  ca_sync_get (with_index x s) id = ca_sync_get s id.
Proof. reflexivity. Qed.

Lemma process_request_size_mismatch (m : Machine) (i i' : CaIndex)
  (r size rc : Z) (id : ObjectID) (obj : list byte) :
  index (sync m) = Some i ->
  ca_index_read_object i = (i', r, id, size) ->
  0 < r ->
  ca_sync_get (sync m) (Some id) = (rc, obj) ->
  0 <= rc ->
  len obj <> size ->
  ca_sync_process_decoder_request m =
  Ret (- EBADMSG, mkMachine (with_index (Some i') (sync m)) (os m) (trace m)).
Proof.
  intros Hi Hread Hr Hget Hrc Hsize.
  unfold ca_sync_process_decoder_request, index_read_object, on_index.
  munfold. fields.
  repeat (progress (rewrite ?Hi, ?Hread, ?ca_sync_get_with_index, ?Hget,
                      ?(ltb_false r), ?(eqb_false r 0), ?(ltb_false rc),
                      ?(eqb_false size (len obj)) by (lia || congruence);
                    fields)).
  reflexivity.
Qed.

(** ** Frames

    A computation is framed by a view [proj] of the driver and a class
    [ok] of events when it keeps the view and emits only events of the
    class. *)

Section Frames.

Context {X : Type} (proj : CaSync -> X) (ok : Event -> bool).

Definition framed_by {A} (c : M A) : Prop :=
  forall m a m',
    c m = Ret (a, m') ->
    proj (sync m') = proj (sync m) /\
    exists t', trace m' = trace m ++ t' /\ forallb ok t' = true.

Lemma framed_ret {A} (a : A) : framed_by (ret a).
Proof.
  intros m a' m' H. inversion H; subst. split; [reflexivity|].
  exists []. rewrite app_nil_r. auto.
Qed.

Lemma framed_fault {A} (f : Fault) : framed_by (@fault C A f).
Proof. intros m a m' H. discriminate. Qed.

Lemma framed_lift {A} (o : Outcome A) : framed_by (lift o).
Proof.
  intros m a m' H. unfold lift in H. destruct o; [|discriminate].
  inversion H; subst. split; [reflexivity|].
  exists []. rewrite app_nil_r. auto.
Qed.

Lemma framed_get_sync : framed_by get_sync.
Proof.
  intros m a m' H. inversion H; subst. split; [reflexivity|].
  exists []. rewrite app_nil_r. auto.
Qed.

Lemma framed_modify (f : CaSync -> CaSync) :
  (forall s, proj (f s) = proj s) -> framed_by (modify f).
Proof.
  intros Hf m a m' H. inversion H; subst. fields. split; [apply Hf|].
  exists []. rewrite app_nil_r. auto.
Qed.

Lemma framed_emit (e : Event) : ok e = true -> framed_by (emit e).
Proof.
  intros He m a m' H. inversion H; subst. fields. split; [reflexivity|].
  exists [e]. split; [reflexivity|]. simpl. rewrite He. reflexivity.
Qed.

Lemma framed_sys {A} (f : OS -> OS * A) : framed_by (sys f).
Proof.
  intros m a m' H. unfold sys in H. destruct (f (os m)) as [o x].
  inversion H; subst. fields. split; [reflexivity|].
  exists []. rewrite app_nil_r. auto.
Qed.

Lemma framed_bind {A B} (c : M A) (k : A -> M B) :
  framed_by c -> (forall a, framed_by (k a)) -> framed_by (bind c k).
Proof.
  intros Hc Hk m b m' H. unfold bind in H.
  destruct (c m) as [[a m1]|f] eqn:E; [|discriminate].
  destruct (Hc _ _ _ E) as (Hcore1 & t1 & Ht1 & Hq1).
  destruct (Hk a _ _ _ H) as (Hcore2 & t2 & Ht2 & Hq2).
  split; [congruence|].
  exists (t1 ++ t2). split.
  - rewrite Ht2, Ht1, app_assoc. reflexivity.
  - rewrite forallb_app, Hq1, Hq2. reflexivity.
Qed.

(** A call on a collaborator object is framed when replacing an object
    that is there by its next state keeps the view. *)
Lemma framed_on_encoder {A} (f : CaEncoder -> CaEncoder * A) :
  (forall s e e', encoder s = Some e ->
                  proj (with_encoder (Some e') s) = proj s) ->
  framed_by (on_encoder f).
Proof.
  intros Hp m a m' H. unfold on_encoder in H. munfold. fields.
  destruct (encoder (sync m)) as [e|] eqn:He; [|discriminate].
  destruct (f e) as [e' x]. inversion H; subst. fields.
  split; [eapply Hp; eauto|]. exists []. rewrite app_nil_r. auto.
Qed.

Lemma framed_on_decoder {A} (f : CaDecoder -> CaDecoder * A) :
  (forall s d d', decoder s = Some d ->
                  proj (with_decoder (Some d') s) = proj s) ->
  framed_by (on_decoder f).
Proof.
  intros Hp m a m' H. unfold on_decoder in H. munfold. fields.
  destruct (decoder (sync m)) as [e|] eqn:He; [|discriminate].
  destruct (f e) as [e' x]. inversion H; subst. fields.
  split; [eapply Hp; eauto|]. exists []. rewrite app_nil_r. auto.
Qed.

Lemma framed_on_wstore {A} (f : CaStore -> CaStore * A) :
  (forall s w w', wstore s = Some w ->
                  proj (with_wstore (Some w') s) = proj s) ->
  framed_by (on_wstore f).
Proof.
  intros Hp m a m' H. unfold on_wstore in H. munfold. fields.
  destruct (wstore (sync m)) as [e|] eqn:He; [|discriminate].
  destruct (f e) as [e' x]. inversion H; subst. fields.
  split; [eapply Hp; eauto|]. exists []. rewrite app_nil_r. auto.
Qed.

Lemma framed_on_index {A} (f : CaIndex -> CaIndex * A) :
  (forall s i i', index s = Some i ->
                  proj (with_index (Some i') s) = proj s) ->
  framed_by (on_index f).
Proof.
  intros Hp m a m' H. unfold on_index in H. munfold. fields.
  destruct (index (sync m)) as [e|] eqn:He; [|discriminate].
  destruct (f e) as [e' x]. inversion H; subst. fields.
  split; [eapply Hp; eauto|]. exists []. rewrite app_nil_r. auto.
Qed.

End Frames.

(** Side condition of the [framed_on_*] lemmas for views that see of a
    collaborator only whether it is there. *)
Ltac object_kept :=
  let s := fresh "s" in
  let H := fresh "H" in
  intros s ? ? H; destruct s; fields; rewrite ?H; reflexivity.

Ltac framed_step :=
  first
    [ apply framed_ret
    | apply framed_fault
    | apply framed_lift
    | apply framed_get_sync
    | apply framed_sys
    | apply framed_on_encoder; object_kept
    | apply framed_on_decoder; object_kept
    | apply framed_on_wstore; object_kept
    | apply framed_on_index; object_kept
    | apply framed_modify; reflexivity
    | apply framed_emit; reflexivity
    | apply framed_bind; [|intros]
    | match goal with
      | |- framed_by _ _ (if ?b then _ else _) => destruct b
      | |- framed_by _ _ (match ?x with _ => _ end) => destruct x
      end ].

Ltac framed_auto := repeat framed_step.

(** ** What [ca_sync_start] leaves alone

    The part of the driver that lazy start never changes; the events of
    lazy start are the [quiet] ones. *)

Definition core (s : CaSync) :=
  (direction s, wstore s, rstores s, chunker s, base_path s, archive_path s,
   base_mode s, make_perm_mode s, buffer s, object_digest s,
   archive_digest s, is_some (index s), eof s).

Definition framed {A} (c : M A) : Prop := framed_by core quiet c.

Lemma framed_start_archive : framed start_archive.
Proof.
  unfold framed, start_archive, sys_open, sys_tempfn_random. framed_auto.
Qed.

Lemma framed_start_encoder : framed start_encoder.
Proof. unfold framed, start_encoder. framed_auto. Qed.

Lemma framed_start_base : framed start_base.
Proof.
  unfold framed, start_base, sys_open, sys_mkdir, sys_tempfn_random.
  framed_auto.
Qed.

Lemma framed_start_decoder : framed start_decoder.
Proof.
  unfold framed, start_decoder. framed_auto; try apply framed_start_base.
Qed.

Lemma framed_start_index : framed start_index.
Proof. unfold framed, start_index, index_open. framed_auto. Qed.

Lemma framed_start : framed ca_sync_start.
Proof.
  unfold ca_sync_start. unfold framed.
  repeat first [ apply framed_start_archive | apply framed_start_encoder
               | apply framed_start_decoder | apply framed_start_index
               | framed_step ].
Qed.

(** ** Projections and quiet events *)

Ltac proj_app t :=
  induction t as [|e t IH]; intros t2; cbn [app];
  [ reflexivity
  | destruct e; simpl; rewrite ?IH, ?app_assoc; reflexivity ].

Lemma archive_stream_app (t : list Event) :
  forall t2, archive_stream (t ++ t2) = archive_stream t ++ archive_stream t2.
Proof. proj_app t. Qed.

Lemma written_app (fd : Z) (t : list Event) :
  forall t2, written fd (t ++ t2) = written fd t ++ written fd t2.
Proof. proj_app t. Qed.

Lemma chunked_app (t : list Event) :
  forall t2, chunked (t ++ t2) = chunked t ++ chunked t2.
Proof. proj_app t. Qed.

Lemma submitted_app (t : list Event) :
  forall t2, submitted (t ++ t2) = submitted t ++ submitted t2.
Proof. proj_app t. Qed.

Lemma indexed_app (t : list Event) :
  forall t2, indexed (t ++ t2) = indexed t ++ indexed t2.
Proof. proj_app t. Qed.

Lemma handed_app (t : list Event) :
  forall t2, handed (t ++ t2) = handed t ++ handed t2.
Proof. proj_app t. Qed.

Lemma renamed_app (t : list Event) :
  forall t2, renamed (t ++ t2) = renamed t ++ renamed t2.
Proof. proj_app t. Qed.

Lemma digests_set_app (t : list Event) :
  forall t2, digests_set (t ++ t2) = digests_set t ++ digests_set t2.
Proof. proj_app t. Qed.

Ltac proj_quiet t :=
  induction t as [|e t IH]; intros Hq;
  [ reflexivity
  | destruct e; simpl in Hq; try discriminate; simpl; apply IH; exact Hq ].

Lemma archive_stream_quiet (t : list Event) :
  forallb quiet t = true -> archive_stream t = [].
Proof. proj_quiet t. Qed.

Lemma written_quiet (fd : Z) (t : list Event) :
  forallb quiet t = true -> written fd t = [].
Proof. proj_quiet t. Qed.

Lemma chunked_quiet (t : list Event) :
  forallb quiet t = true -> chunked t = [].
Proof. proj_quiet t. Qed.

Lemma submitted_quiet (t : list Event) :
  forallb quiet t = true -> submitted t = [].
Proof. proj_quiet t. Qed.

Lemma indexed_quiet (t : list Event) :
  forallb quiet t = true -> indexed t = [].
Proof. proj_quiet t. Qed.

Lemma handed_quiet (t : list Event) :
  forallb quiet t = true -> handed t = [].
Proof. proj_quiet t. Qed.

Lemma renamed_quiet (t : list Event) :
  forallb quiet t = true -> renamed t = [].
Proof. proj_quiet t. Qed.

Lemma digests_set_quiet (t : list Event) :
  forallb quiet t = true -> digests_set t = [].
Proof. proj_quiet t. Qed.

(** The pieces of [core] one at a time. *)
Lemma core_fields (s s' : CaSync) :
  core s' = core s ->
  direction s' = direction s /\ wstore s' = wstore s /\
  rstores s' = rstores s /\ chunker s' = chunker s /\
  base_path s' = base_path s /\ archive_path s' = archive_path s /\
  buffer s' = buffer s /\ archive_digest s' = archive_digest s /\
  is_some (index s') = is_some (index s) /\ eof s' = eof s.
Proof. unfold core. intros H. inversion H. repeat split; assumption. Qed.

(** Case analysis on a finished computation: every test the code made on
    the way is destructed, then the result is read off. *)
Ltac mcase :=
  match goal with
  | H : Undefined _ = Ret _ |- _ => discriminate H
  | H : Ret _ = Ret _ |- _ => inversion H; subst; clear H; fields
  | H : false = true |- _ => discriminate H
  | H : true = false |- _ => discriminate H
  | H : ?x = ?x |- _ => clear H
  | H : (_, _) = (_, _) |- _ => inversion H; subst; clear H; fields
  | H : Some _ = Some _ |- _ => inversion H; subst; clear H; fields
  | H : context [match ?x with _ => _ end] |- _ =>
      destruct x eqn:?; fields
  end.

Ltac mcases := munfold; fields; repeat mcase; fields.

Ltac zbool :=
  repeat match goal with
    | H : (_ <? _) = true |- _ => apply Z.ltb_lt in H
    | H : (_ <? _) = false |- _ => apply Z.ltb_ge in H
    | H : (_ =? _) = true |- _ => apply Z.eqb_eq in H
    | H : (_ =? _) = false |- _ => apply Z.eqb_neq in H
    | H : (_ >? _) = true |- _ => apply Z.gtb_lt in H
    | H : (_ >? _) = false |- _ => rewrite Z.gtb_ltb in H
    | H : (_ >=? _) = true |- _ => rewrite Z.geb_leb in H
    | H : (_ >=? _) = false |- _ => rewrite Z.geb_leb in H
    | H : (_ <=? _) = true |- _ => apply Z.leb_le in H
    | H : (_ <=? _) = false |- _ => apply Z.leb_gt in H
    | H : (_ || _) = false |- _ => apply orb_false_elim in H; destruct H
    | H : negb _ = true |- _ => apply negb_true_iff in H
    | H : negb _ = false |- _ => apply negb_false_iff in H
    end.

Ltac gsimp :=
  repeat (progress (rewrite ?Z.ltb_irrefl;
                    cbn [is_encode is_decode negb andb orb]; fields)).

(** Case analysis on the innermost test of the goal. *)
Ltac gcase :=
  match goal with
  | |- context [match ?x with _ => _ end] =>
      lazymatch x with
      | context [match _ with _ => _ end] => fail
      | _ => destruct x eqn:?; gsimp
      end
  end.

(** Name the fields of a machine, so that what is known of them
    computes. *)
Ltac open_machine m :=
  destruct m as [[] ? ?]; fields; subst.

(** ** Decode without an index: the archive digest stays empty *)

Definition configures_index (c : Call) : bool :=
  match c with
  | SetIndexFd _ | SetIndexPath _ => true
  | _ => false
  end.

(** A decoding driver without an index whose archive digest has absorbed
    nothing. *)
Definition undigested (s : CaSync) : Prop :=
  direction s = CA_SYNC_DECODE /\ index s = None /\
  digest_bytes (archive_digest s) = [].

Lemma step_decode_undigested (m m' : Machine) (r : Z) :
  undigested (sync m) ->
  ca_sync_step_decode m = Ret (r, m') ->
  undigested (sync m').
Proof.
  intros (Hd & Hi & Hdig) H.
  unfold ca_sync_step_decode, ca_sync_process_decoder_request,
    rename_temporary, on_decoder, decoder_put_data_fd, sys_rename,
    on_decoder in H.
  open_machine m. mcases; unfold undigested; fields; auto.
Qed.

Lemma step_undigested (m m' : Machine) (r : Z) :
  undigested (sync m) ->
  ca_sync_step m = Ret (r, m') ->
  undigested (sync m').
Proof.
  intros Hu H. unfold ca_sync_step in H. unfold bind at 1 in H.
  destruct (ca_sync_start m) as [[r0 m1]|f] eqn:Hs; [|discriminate].
  destruct (framed_start _ _ _ Hs) as (Hcore & _).
  apply core_fields in Hcore.
  destruct Hcore as (Ed & _ & _ & _ & _ & _ & _ & Edig & Ei & _).
  assert (Hu1 : undigested (sync m1)).
  { destruct Hu as (Hd & Hi & Hdig). unfold undigested.
    rewrite Ed, Edig. rewrite Hi in Ei.
    destruct (index (sync m1)); [discriminate|]. auto. }
  destruct (r0 <? 0).
  - inversion H; subst. exact Hu1.
  - unfold bind, get_sync in H. fields.
    destruct Hu1 as (Hd1 & Hi1 & Hdig1). rewrite Hd1 in H.
    eapply step_decode_undigested; [|exact H].
    unfold undigested. auto.
Qed.

Ltac unfold_setters H :=
  unfold call, ca_sync_set_index_fd, ca_sync_set_index_path,
    ca_sync_allocate_index, ca_sync_set_base_fd, ca_sync_set_base_path,
    ca_sync_set_make_perm_mode, ca_sync_set_base_mode,
    ca_sync_set_archive_fd, ca_sync_set_archive_path,
    ca_sync_set_store_local, ca_sync_add_seed_store_local,
    ca_sync_get_digest, ca_sync_allocate_archive_digest,
    on_index, on_wstore, sys_open in H.

Lemma call_undigested (c : Call) (m m' : Machine) (r : Z) :
  configures_index c = false ->
  undigested (sync m) ->
  call c m = Ret (r, m') ->
  undigested (sync m').
Proof.
  intros Hc Hu H.
  destruct c; try discriminate Hc;
    try (eapply step_undigested; [exact Hu | exact H]);
    destruct Hu as (Hd & Hi & Hdig); open_machine m;
    unfold_setters H; mcases; unfold undigested; fields; auto.
Qed.

Lemma run_undigested (cs : list Call) :
  forall m rs m',
    forallb (fun c => negb (configures_index c)) cs = true ->
    undigested (sync m) ->
    run cs m = Ret (rs, m') ->
    undigested (sync m').
Proof.
  induction cs as [|c cs IH]; intros m rs m' Hcs Hu H; cbn [run] in H.
  - inversion H; subst. exact Hu.
  - cbn [forallb] in Hcs. apply andb_prop in Hcs. destruct Hcs as [Hc Hcs].
    apply negb_true_iff in Hc.
    destruct (call c m) as [[r m1]|f] eqn:E; [|discriminate].
    destruct (run cs m1) as [[rs1 m2]|f] eqn:E2; [|discriminate].
    inversion H; subst.
    eapply IH; [exact Hcs | | exact E2].
    eapply call_undigested; eauto.
Qed.

Lemma get_digest_undigested (m : Machine) :
  undigested (sync m) ->
  eof (sync m) = true ->
  exists m',
    ca_sync_get_digest m = Ret ((0, Some (sha256 [])), m') /\
    undigested (sync m').
Proof.
  intros (Hd & Hi & Hdig) He. open_machine m.
  unfold ca_sync_get_digest, ca_sync_allocate_archive_digest.
  munfold. fields.
  destruct archive_digest0 as [acc|]; fields; cbn [digest_bytes] in *;
    subst; eexists; (split; [reflexivity|]); unfold undigested; fields; auto.
Qed.

(** C10. A decoding driver for which no index is ever configured absorbs
    nothing into the archive digest, whatever else is called on it; once
    [eof] is latched, [ca_sync_get_digest] succeeds and returns the
    SHA-256 of the empty byte string. *)
Theorem decode_without_index_digest (cs : list Call) (o : OS)
  (rs : list Z) (m : Machine) :
  forallb (fun c => negb (configures_index c)) cs = true ->
  run cs (start_machine ca_sync_new_decode o) = Ret (rs, m) ->
  digest_bytes (archive_digest (sync m)) = [] /\
  (eof (sync m) = true ->
   exists m', ca_sync_get_digest m = Ret ((0, Some (sha256 [])), m')).
Proof.
  intros Hcs Hrun.
  assert (Hu : undigested (sync m)).
  { eapply run_undigested; [exact Hcs | | exact Hrun].
    unfold undigested, start_machine, ca_sync_new_decode, ca_sync_new.
    fields. auto. }
  split.
  - apply Hu.
  - intros He. destruct (get_digest_undigested m Hu He) as (m' & Hg & _).
    exists m'. exact Hg.
Qed.

(** ** The chunker sink *)

(** What the chunker sink never changes, and the events it emits. *)
Definition kept (s : CaSync) :=
  (direction s, is_some (encoder s), decoder s, rstores s, base_fd s,
   archive_fd s, base_path s, archive_path s, temporary_base_path s,
   temporary_archive_path s, base_mode s, make_perm_mode s,
   archive_digest s, eof s, is_some (wstore s), is_some (index s)).

Definition chunk_event (e : Event) : bool :=
  match e with
  | EvChunkerScan _ _ | EvStorePut _ _ _ | EvIndexWriteObject _ _ _ => true
  | _ => false
  end.

Lemma framed_write_one_chunk (p : list byte) :
  framed_by kept chunk_event (ca_sync_write_one_chunk p).
Proof.
  unfold ca_sync_write_one_chunk, ca_sync_make_object_id, store_put,
    index_write_object.
  framed_auto.
Qed.

Lemma framed_write_chunks_loop (fuel : nat) :
  forall p, framed_by kept chunk_event (write_chunks_loop fuel p).
Proof.
  induction fuel as [|fuel IH]; intros p; cbn [write_chunks_loop].
  - framed_auto.
  - unfold chunker_scan.
    repeat first
      [ match goal with
        | |- framed_by _ _ (write_chunks_loop _ _) => apply IH
        | |- framed_by _ _ (ca_sync_write_one_chunk _) =>
            apply framed_write_one_chunk
        end
      | framed_step ].
Qed.

Lemma len_nil (p : list byte) : len p <= 0 -> p = [].
Proof. unfold len. destruct p; simpl; [reflexivity | lia]. Qed.

Lemma len_eqb_0 (p : list byte) : (len p =? 0) = true -> p = [].
Proof. intros H. apply Z.eqb_eq in H. apply len_nil. lia. Qed.

Lemma write_one_chunk_account (q : list byte) (m m1 : Machine) (r : Z) :
  ca_sync_write_one_chunk q m = Ret (r, m1) ->
  submitted (trace m1) = submitted (trace m) ++ [q] /\
  chunked (trace m1) = chunked (trace m) /\
  buffer (sync m1) = buffer (sync m) /\
  (0 <= r -> indexed (trace m1) =
             indexed (trace m) ++
             (if is_some (index (sync m)) then [(sha256 q, len q)] else [])).
Proof.
  intros H. open_machine m.
  unfold ca_sync_write_one_chunk, ca_sync_make_object_id, store_put,
    index_write_object, on_wstore, on_index in H.
  mcases; subst; fields;
    rewrite ?submitted_app, ?chunked_app, ?indexed_app, ?app_nil_r;
    cbn [submitted chunked indexed app digest_bytes];
    rewrite ?app_nil_r; repeat split; auto; try lia;
    match goal with H : is_some _ = _ |- _ => rewrite H end;
    rewrite ?app_nil_r; reflexivity.
Qed.

(** The loop consumes its input exactly: on success the payloads it
    submitted, followed by what it left in the buffer, are the old buffer
    followed by the input; and the chunker consumed the input once. *)
Lemma write_chunks_loop_account (fuel : nat) :
  forall p m r m',
    write_chunks_loop fuel p m = Ret (r, m') ->
    0 <= r ->
    List.concat (submitted (trace m')) ++ buffer (sync m') =
    List.concat (submitted (trace m)) ++ buffer (sync m) ++ p /\
    chunked (trace m') = chunked (trace m) ++ p.
Proof.
  induction fuel as [|fuel IH]; intros p m r m' H Hr;
    cbn [write_chunks_loop] in H.
  - destruct (len p >? 0) eqn:Hl; [discriminate|].
    inversion H; subst. rewrite (len_nil p) by lia.
    rewrite !app_nil_r. auto.
  - destruct (len p >? 0) eqn:Hl.
    2:{ inversion H; subst. rewrite (len_nil p) by lia.
        rewrite !app_nil_r. auto. }
    unfold chunker_scan in H. open_machine m. mcases;
      try (zbool; lia);
      repeat match goal with
        | Hw : ca_sync_write_one_chunk _ _ = Ret _ |- _ =>
            apply write_one_chunk_account in Hw; fields;
            destruct Hw as (Hs & Hc & _ & _)
        | Hrec : write_chunks_loop _ _ _ = Ret _ |- _ =>
            apply IH in Hrec; [|assumption]; fields;
            destruct Hrec as (H1 & H2)
        | Hb : (len _ =? 0) = true |- _ => apply len_eqb_0 in Hb; subst
        end;
      rewrite ?H1, ?H2, ?Hs, ?Hc, ?submitted_app, ?chunked_app;
      cbn [submitted chunked];
      match goal with Hk : (_ =? SIZE_MAX) = _ |- _ => rewrite Hk end;
      rewrite ?app_nil_r, ?concat_app; cbn [List.concat app];
      rewrite ?app_nil_r, <- ?app_assoc, ?firstn_skipn; auto.
Qed.

(** ** The chunking loop returns

    A chunker honours its contract when, on a non-empty input, it reports
    no boundary or a cut of at least one byte inside the input.  With such
    a chunker the loop needs no more rounds than the input has bytes, and
    never reads past it. *)

Definition chunker_contract : Prop :=
  forall (c : CaChunker) (q : list byte),
    q <> [] ->
    snd (ca_chunker_scan c q) = SIZE_MAX \/
    1 <= snd (ca_chunker_scan c q) <= len q.

Lemma write_one_chunk_returns (q : list byte) (m : Machine) :
  is_some (wstore (sync m)) = true ->
  exists r m',
    ca_sync_write_one_chunk q m = Ret (r, m') /\
    is_some (wstore (sync m')) = true.
Proof.
  intros Hw. open_machine m. destruct wstore0; [|discriminate Hw].
  unfold ca_sync_write_one_chunk, ca_sync_make_object_id, store_put,
    index_write_object, on_wstore, on_index.
  munfold. gsimp. repeat gcase; try congruence;
    (eexists; eexists; split; [reflexivity|]); reflexivity.
Qed.

Lemma write_chunks_loop_returns (Hc : chunker_contract) (fuel : nat) :
  forall p m,
    (List.length p < fuel)%nat ->
    is_some (wstore (sync m)) = true ->
    exists r m', write_chunks_loop fuel p m = Ret (r, m').
Proof.
  induction fuel as [|fuel IH]; intros p m Hlen Hw; [lia|].
  cbn [write_chunks_loop].
  destruct (len p >? 0) eqn:Hl; [|eexists; eexists; reflexivity].
  assert (Hp : p <> []).
  { intros E. subst p. discriminate Hl. }
  unfold chunker_scan. unfold bind at 1. unfold bind at 1.
  unfold get_sync at 1. fields.
  pose proof (Hc (chunker (sync m)) p Hp) as Hk.
  destruct (ca_chunker_scan (chunker (sync m)) p) as [c k] eqn:Hscan.
  cbn [snd] in Hk. munfold. fields.
  destruct (k =? SIZE_MAX) eqn:Emax; [eexists; eexists; reflexivity|].
  destruct Hk as [Hk | Hk]; [apply Z.eqb_neq in Emax; contradiction|].
  replace ((k <? 0) || (k >? len p)) with false
    by (symmetry; apply orb_false_iff; split;
        [apply Z.ltb_ge; lia | rewrite Z.gtb_ltb; apply Z.ltb_ge; lia]).
  assert (Hrest : (List.length (skipn (Z.to_nat k) p) < fuel)%nat).
  { rewrite length_skipn. unfold len in Hk. lia. }
  match goal with
  | |- context [if ?b then ?x else ?y] =>
      destruct b;
      match goal with
      | |- context [ca_sync_write_one_chunk ?q ?m1] =>
          destruct (write_one_chunk_returns q m1) as (r1 & m2 & Hone & Hw2);
          [exact Hw|]; rewrite Hone;
          destruct (r1 <? 0); [eexists; eexists; reflexivity|];
          apply IH; [exact Hrest | exact Hw2]
      end
  end.
Qed.

Lemma write_chunks_returns (Hc : chunker_contract) (p : list byte)
  (m : Machine) :
  exists r m', ca_sync_write_chunks p m = Ret (r, m').
Proof.
  unfold ca_sync_write_chunks. unfold bind, get_sync. fields.
  destruct (is_some (wstore (sync m))) eqn:Hw; cbn [negb].
  - apply write_chunks_loop_returns; [exact Hc | lia | exact Hw].
  - eexists. eexists. reflexivity.
Qed.

(** ** One encode step that obtains data *)

Lemma sync_enum_facts :
  0 <= CA_SYNC_FINISHED /\ 0 <= CA_SYNC_STEP /\ 0 <= CA_SYNC_NEXT_FILE /\
  CA_SYNC_FINISHED <> CA_SYNC_STEP /\
  CA_SYNC_FINISHED <> CA_SYNC_NEXT_FILE /\
  CA_SYNC_STEP <> CA_SYNC_NEXT_FILE.
Proof.
  destruct sync_enum as (H0 & H1 & H2 & Hnd).
  inversion Hnd as [|? ? Ha Hnd1]; subst.
  inversion Hnd1 as [|? ? Hb Hnd2]; subst.
  cbn [In] in *. repeat split; auto; intros E; rewrite E in *; tauto.
Qed.

Lemma firstn_len (p : list byte) : firstn (Z.to_nat (len p)) p = p.
Proof. unfold len. rewrite Nat2Z.id. apply firstn_all. Qed.

Lemma kept_fields (s s' : CaSync) :
  kept s' = kept s ->
  direction s' = direction s /\ archive_fd s' = archive_fd s /\
  archive_path s' = archive_path s /\
  archive_digest s' = archive_digest s /\ eof s' = eof s /\
  is_some (encoder s') = is_some (encoder s) /\
  is_some (wstore s') = is_some (wstore s) /\
  is_some (index s') = is_some (index s).
Proof. unfold kept. intros H. inversion H. repeat split; assumption. Qed.

Lemma chunk_event_stream (t : list Event) :
  forallb chunk_event t = true ->
  archive_stream t = [] /\ (forall fd, written fd t = []) /\
  renamed t = [] /\ digests_set t = [] /\ handed t = [].
Proof.
  induction t as [|e t IH]; intros Hq; [repeat split; reflexivity|].
  destruct e; simpl in Hq; try discriminate; simpl; apply IH; exact Hq.
Qed.

(** Rewrite with the tests the code made. *)
Ltac use_tests :=
  repeat match goal with
    | H : ?x = ?x |- _ => clear H
    | H : negb _ = true |- _ => apply negb_true_iff in H
    | H : negb _ = false |- _ => apply negb_false_iff in H
    | H : is_some ?o = false |- _ =>
        is_var o; destruct o; [discriminate H|]; fields
    | H : is_some ?o = true |- _ =>
        is_var o; destruct o; [|discriminate H]; fields
    | H : _ = true |- _ => rewrite H
    | H : _ = false |- _ => rewrite H
    end.

(** The data obtained by one successful encode step reaches each sink
    once, relative to the machine after lazy start. *)
Lemma step_encode_data (m m' : Machine) (r : Z) :
  ca_sync_step_encode m = Ret (r, m') ->
  r = CA_SYNC_STEP \/ r = CA_SYNC_NEXT_FILE ->
  exists p,
    archive_stream (trace m') = archive_stream (trace m) ++ p /\
    (forall fd,
        written fd (trace m') =
        written fd (trace m) ++
        (if negb (archive_fd (sync m) <? 0) && (archive_fd (sync m) =? fd)
         then p else [])) /\
    digest_bytes (archive_digest (sync m')) =
    digest_bytes (archive_digest (sync m)) ++ p /\
    chunked (trace m') =
    chunked (trace m) ++ (if is_some (wstore (sync m)) then p else []) /\
    List.concat (submitted (trace m')) ++ buffer (sync m') =
    List.concat (submitted (trace m)) ++ buffer (sync m) ++
    (if is_some (wstore (sync m)) then p else []) /\
    renamed (trace m') = renamed (trace m) /\
    digests_set (trace m') = digests_set (trace m) /\
    direction (sync m') = direction (sync m) /\
    archive_fd (sync m') = archive_fd (sync m) /\
    archive_path (sync m') = archive_path (sync m) /\
    eof (sync m') = false /\
    is_some (encoder (sync m')) = is_some (encoder (sync m)) /\
    is_some (wstore (sync m')) = is_some (wstore (sync m)) /\
    is_some (index (sync m')) = is_some (index (sync m)).
Proof.
  intros H Hr.
  destruct sync_enum_facts as (F0 & F1 & F2 & N1 & N2 & N3).
  open_machine m.
  unfold ca_sync_step_encode, encoder_get_data, on_encoder,
    ca_sync_write_archive, ca_sync_write_archive_digest,
    ca_sync_allocate_archive_digest, ca_sync_write_chunks, read_block in H.
  mcases; try (zbool; lia).
  all: match goal with
       | Hg : ca_encoder_get_data _ = (_, _, ?p) |- _ => exists p
       end.
  all: rewrite ?firstn_len.
  all: try match goal with
         | Hl : write_chunks_loop _ _ _ = Ret (_, _) |- _ =>
             let Hk := fresh "Hk" in
             let Ha := fresh "Ha" in
             destruct (framed_write_chunks_loop _ _ _ _ _ Hl)
               as (Hk & t' & Ht & Hq);
             apply kept_fields in Hk; fields;
             destruct Hk as (K1 & K2 & K3 & K4 & K5 & K6 & K7 & K8);
             apply chunk_event_stream in Hq;
             destruct Hq as (Q1 & Q2 & Q3 & Q4 & Q5);
             pose proof (write_chunks_loop_account _ _ _ _ _ Hl) as Ha;
             fields; destruct Ha as (A1 & A2); [zbool; lia|];
             rewrite ?A1, ?A2, ?K1, ?K2, ?K3, ?K4, ?K5, ?K6, ?K7, ?K8;
             rewrite Ht
         end.
  all: rewrite ?archive_stream_app, ?chunked_app, ?submitted_app,
         ?renamed_app, ?digests_set_app;
       cbn [archive_stream chunked submitted renamed digests_set
            digest_bytes];
       rewrite ?Q1, ?Q3, ?Q4; use_tests; cbn [negb andb is_some];
       rewrite ?app_nil_r, <- ?app_assoc.
  all: repeat split; auto.
  all: try intros fd; rewrite ?written_app, ?firstn_len;
       cbn [written digest_bytes app]; rewrite ?Q2, ?app_nil_r; auto.
Qed.

(** ** Lazy start seen from the projections *)

Lemma start_view (m m1 : Machine) (r0 : Z) :
  ca_sync_start m = Ret (r0, m1) ->
  core (sync m1) = core (sync m) /\
  archive_stream (trace m1) = archive_stream (trace m) /\
  (forall fd, written fd (trace m1) = written fd (trace m)) /\
  chunked (trace m1) = chunked (trace m) /\
  submitted (trace m1) = submitted (trace m) /\
  indexed (trace m1) = indexed (trace m) /\
  handed (trace m1) = handed (trace m) /\
  renamed (trace m1) = renamed (trace m) /\
  digests_set (trace m1) = digests_set (trace m).
Proof.
  intros H. destruct (framed_start _ _ _ H) as (Hc & t' & Ht & Hq).
  split; [exact Hc|]. rewrite Ht.
  rewrite archive_stream_app, chunked_app, submitted_app, indexed_app,
    handed_app, renamed_app, digests_set_app.
  rewrite (archive_stream_quiet _ Hq), (chunked_quiet _ Hq),
    (submitted_quiet _ Hq), (indexed_quiet _ Hq), (handed_quiet _ Hq),
    (renamed_quiet _ Hq), (digests_set_quiet _ Hq).
  rewrite !app_nil_r. repeat split; auto.
  intros fd. rewrite written_app, (written_quiet _ _ Hq), app_nil_r.
  reflexivity.
Qed.

(** A step that does not fail is a lazy start that does not fail followed
    by the step of the driver's direction. *)
Lemma step_split (m m' : Machine) (r : Z) :
  ca_sync_step m = Ret (r, m') ->
  0 <= r ->
  exists r0 m1,
    ca_sync_start m = Ret (r0, m1) /\ 0 <= r0 /\
    match direction (sync m) with
    | CA_SYNC_ENCODE => ca_sync_step_encode m1 = Ret (r, m')
    | CA_SYNC_DECODE => ca_sync_step_decode m1 = Ret (r, m')
    end.
Proof.
  intros H Hr. unfold ca_sync_step in H. unfold bind at 1 in H.
  destruct (ca_sync_start m) as [[r0 m1]|f] eqn:Hs; [|discriminate].
  destruct (start_view _ _ _ Hs) as (Hc & _).
  apply core_fields in Hc. destruct Hc as (Ed & _).
  destruct (r0 <? 0) eqn:E.
  - inversion H; subst. zbool. lia.
  - exists r0, m1. split; [reflexivity|]. split; [zbool; lia|].
    unfold bind, get_sync in H. fields. rewrite Ed in H.
    destruct (direction (sync m)); exact H.
Qed.


(** ** The encode step that finishes *)

Definition final_event (e : Event) : bool :=
  chunk_event e || is_index_finalization e.

(** As [kept], but blind to whether the archive digest handle exists. *)
Definition kept_final (s : CaSync) :=
  (kept (with_archive_digest None s), digest_bytes (archive_digest s)).

Lemma framed_allocate_archive_digest (ok : Event -> bool) :
  framed_by kept_final ok ca_sync_allocate_archive_digest.
Proof.
  intros m a m' H. unfold ca_sync_allocate_archive_digest in H.
  open_machine m. mcases; (split; [|exists []; rewrite app_nil_r; auto]).
  - reflexivity.
  - use_tests. reflexivity.
Qed.

Lemma framed_final_write_one_chunk (p : list byte) :
  framed_by kept_final final_event (ca_sync_write_one_chunk p).
Proof.
  unfold ca_sync_write_one_chunk, ca_sync_make_object_id, store_put,
    index_write_object.
  framed_auto.
Qed.

Lemma framed_write_final_chunk :
  framed_by kept_final final_event ca_sync_write_final_chunk.
Proof.
  unfold ca_sync_write_final_chunk, index_set_digest, index_write_eof,
    index_close.
  repeat first [ apply framed_allocate_archive_digest
               | apply framed_final_write_one_chunk
               | framed_step ].
Qed.

Lemma final_event_stream (t : list Event) :
  forallb final_event t = true ->
  archive_stream t = [] /\ (forall fd, written fd t = []) /\
  renamed t = [] /\ handed t = [] /\ chunked t = chunked t.
Proof.
  induction t as [|e t IH]; intros Hq; [repeat split; reflexivity|].
  destruct e; simpl in Hq; try discriminate; simpl;
    destruct (IH Hq) as (I1 & I2 & I3 & I4 & _); repeat split; auto.
Qed.

Lemma kept_final_fields (s s' : CaSync) :
  kept_final s' = kept_final s ->
  direction s' = direction s /\ archive_fd s' = archive_fd s /\
  archive_path s' = archive_path s /\
  digest_bytes (archive_digest s') = digest_bytes (archive_digest s) /\
  eof s' = eof s /\
  is_some (encoder s') = is_some (encoder s) /\
  is_some (wstore s') = is_some (wstore s) /\
  is_some (index s') = is_some (index s).
Proof.
  unfold kept_final, kept. fields. intros H. inversion H.
  repeat split; assumption.
Qed.

(** What the final flush submits: the buffered tail, when a writable store
    is configured and the tail is not empty. *)
Lemma write_final_chunk_account (m m' : Machine) (r : Z) :
  ca_sync_write_final_chunk m = Ret (r, m') ->
  0 <= r ->
  is_some (wstore (sync m)) = true ->
  List.concat (submitted (trace m')) =
  List.concat (submitted (trace m)) ++ buffer (sync m).
Proof.
  intros H Hr Hw. open_machine m.
  unfold ca_sync_write_final_chunk, index_set_digest, index_write_eof,
    index_close, ca_sync_allocate_archive_digest, on_index in H.
  use_tests.
  mcases; try (zbool; lia);
    repeat match goal with
      | Hc : ca_sync_write_one_chunk _ _ = Ret _ |- _ =>
          apply write_one_chunk_account in Hc; fields;
          destruct Hc as (Hs & _)
      | Hb : (len _ =? 0) = true |- _ => apply len_eqb_0 in Hb; subst
      end;
    rewrite ?submitted_app; cbn [submitted]; rewrite ?Hs, ?app_nil_r;
    rewrite ?concat_app; cbn [List.concat app]; rewrite ?app_nil_r; auto.
Qed.

Lemma step_encode_finished (m m' : Machine) (r : Z) :
  ca_sync_step_encode m = Ret (r, m') ->
  r = CA_SYNC_FINISHED ->
  eof (sync m') = true /\
  is_some (encoder (sync m')) = true /\
  direction (sync m') = direction (sync m) /\
  archive_fd (sync m') = archive_fd (sync m) /\
  archive_path (sync m') = archive_path (sync m) /\
  digest_bytes (archive_digest (sync m')) =
  digest_bytes (archive_digest (sync m)) /\
  archive_stream (trace m') = archive_stream (trace m) /\
  is_some (wstore (sync m')) = is_some (wstore (sync m)) /\
  is_some (index (sync m')) = is_some (index (sync m)) /\
  (is_some (wstore (sync m)) = true ->
   List.concat (submitted (trace m')) =
   List.concat (submitted (trace m)) ++ buffer (sync m)).
Proof.
  intros H Hr.
  destruct sync_enum_facts as (F0 & F1 & F2 & N1 & N2 & N3).
  open_machine m.
  unfold ca_sync_step_encode, rename_temporary, sys_rename, on_encoder in H.
  mcases; try (zbool; lia); try congruence.
  all: match goal with
       | Hf : ca_sync_write_final_chunk _ = Ret (_, _) |- _ =>
           destruct (framed_write_final_chunk _ _ _ Hf)
             as (Hk & t' & Ht & Hq);
           apply kept_final_fields in Hk; fields;
           destruct Hk as (K1 & K2 & K3 & K4 & K5 & K6 & K7 & K8);
           apply final_event_stream in Hq;
           destruct Hq as (Q1 & Q2 & Q3 & Q4 & _);
           pose proof (write_final_chunk_account _ _ _ Hf) as Ha; fields
       end.
  all: rewrite ?K1, ?K2, ?K3, ?K4, ?K6, ?K7, ?K8, Ht, ?archive_stream_app,
         ?Q1;
       cbn [archive_stream]; rewrite ?app_nil_r; repeat split; auto.
  all: intros Hw; rewrite <- Ht, Ha; auto; try (zbool; lia);
       rewrite ?submitted_app; cbn [submitted]; rewrite ?app_nil_r;
       reflexivity.
Qed.

(** ** The archive and index slots through a step *)

Definition any_event (e : Event) : bool := true.

Definition archive_view (s : CaSync) :=
  (archive_fd s, archive_path s, is_some (index s)).

(** A frame for a finer view and a smaller class of events is a frame for
    a coarser view and a larger class. *)
Lemma framed_weaken {X Y A} (proj1 : CaSync -> X) (proj2 : CaSync -> Y)
  (ok1 ok2 : Event -> bool) (c : M A) :
  (forall s s', proj1 s' = proj1 s -> proj2 s' = proj2 s) ->
  (forall e, ok1 e = true -> ok2 e = true) ->
  framed_by proj1 ok1 c -> framed_by proj2 ok2 c.
Proof.
  intros Hp Hok Hc m a m' H.
  destruct (Hc _ _ _ H) as (Hv & t' & Ht & Hq).
  split; [apply Hp; exact Hv|].
  exists t'. split; [exact Ht|].
  rewrite forallb_forall in *. intros e He. apply Hok. apply Hq. exact He.
Qed.





(** ** Chunks partition the archive stream *)

Lemma step_encode_results (m m' : Machine) (r : Z) :
  ca_sync_step_encode m = Ret (r, m') ->
  0 <= r ->
  r = CA_SYNC_FINISHED \/ r = CA_SYNC_STEP \/ r = CA_SYNC_NEXT_FILE.
Proof.
  intros H Hr. open_machine m.
  unfold ca_sync_step_encode in H.
  mcases; try (zbool; lia); auto.
Qed.

Lemma step_encode_eof (m m' : Machine) (r : Z) :
  eof (sync m) = true ->
  ca_sync_step_encode m = Ret (r, m') ->
  r = - EPIPE /\ m' = m.
Proof.
  intros He H. open_machine m. unfold ca_sync_step_encode in H.
  mcases. auto.
Qed.



(** ** The index follows the store

    When an index is configured, the records appended to it are, in order,
    the identifier and size of the payloads submitted to the store. *)
























(** ** The eof latch *)

Lemma framed_start_rest :
  framed_by archive_view any_event
    (check r <- start_encoder ;;
     check r <- start_decoder ;;
     check r <- start_index ;;
     ret 0).
Proof.
  unfold start_encoder, start_decoder, start_base, start_index, index_open,
    sys_open, sys_mkdir, sys_tempfn_random.
  framed_auto.
Qed.

Lemma start_archive_post (m m1 : Machine) (r : Z) :
  start_archive m = Ret (r, m1) ->
  0 <= r ->
  direction (sync m) = CA_SYNC_ENCODE ->
  is_some (archive_path (sync m1)) = true ->
  (archive_fd (sync m1) <? 0) = false.
Proof.
  intros H Hr Hd Hp. open_machine m.
  unfold start_archive, sys_open, sys_tempfn_random in H.
  mcases; try (zbool; lia); auto; try discriminate.
  all: unfold fd_of; use_tests; auto.
Qed.

Lemma start_archive_fd (m m1 : Machine) (r0 : Z) :
  ca_sync_start m = Ret (r0, m1) ->
  0 <= r0 ->
  direction (sync m) = CA_SYNC_ENCODE ->
  is_some (archive_path (sync m1)) = true ->
  (archive_fd (sync m1) <? 0) = false.
Proof.
  intros H Hr Hd Hp. unfold ca_sync_start in H. unfold bind at 1 in H.
  destruct (start_archive m) as [[ra ma]|f] eqn:Ha; [|discriminate].
  destruct (ra <? 0) eqn:Era.
  - inversion H; subst. zbool. lia.
  - destruct (framed_start_rest _ _ _ H) as (Hv & _).
    unfold archive_view in Hv. inversion Hv as [[Efd Epath Eidx]].
    rewrite Efd. rewrite Epath in Hp.
    eapply start_archive_post; eauto. zbool. lia.
Qed.










(** ** Decode from an index: the request path *)

Lemma decode_step_request (m m1 : Machine) (r0 : Z) (d d' : CaDecoder) :
  direction (sync m) = CA_SYNC_DECODE ->
  ca_sync_start m = Ret (r0, m1) ->
  0 <= r0 ->
  eof (sync m1) = false ->
  decoder (sync m1) = Some d ->
  ca_decoder_step d = (d', CA_DECODER_REQUEST) ->
  ca_sync_step m =
  (check r <- ca_sync_process_decoder_request ;; ret CA_SYNC_STEP)
    (mkMachine (with_decoder (Some d') (sync m1)) (os m1) (trace m1)).
Proof.
  intros Hd Hs Hr0 He Hdec Hstep.
  destruct decoder_enum_facts as (D0 & D1 & D2 & D3 & D4).
  destruct (start_view _ _ _ Hs) as (Hc & _).
  apply core_fields in Hc. destruct Hc as (Ed & _).
  unfold ca_sync_step. unfold bind at 1. rewrite Hs.
  rewrite (ltb_false r0) by lia.
  unfold bind at 1. unfold get_sync at 1. fields. rewrite Ed, Hd.
  unfold ca_sync_step_decode, on_decoder.
  unfold bind at 1. unfold get_sync at 1. fields. rewrite He.
  unfold is_some. rewrite Hdec.
  unfold bind at 1. unfold bind at 1. unfold get_sync at 1. fields.
  rewrite Hdec, Hstep. unfold bind at 1. unfold modify at 1. fields.
  unfold ret at 1.
  rewrite (ltb_false CA_DECODER_REQUEST) by lia.
  rewrite !eqb_false by assumption.
  rewrite Z.eqb_refl. reflexivity.
Qed.

Lemma ca_sync_get_with_decoder (s : CaSync) (x : option CaDecoder)
  (id : option ObjectID) :
  ca_sync_get (with_decoder x s) id = ca_sync_get s id.
Proof. reflexivity. Qed.

(** C8. In a decode step in which the decoder requests data and the index
    yields a record [(id, size)]: when the store fan-in returns for [id] an
    object whose length is not [size], the step fails with [-EBADMSG];
    nothing is handed to the decoder, whose state is the one its own step
    left. *)
Theorem size_mismatch_is_bad_message (m m1 : Machine) (r0 : Z)
  (d d' : CaDecoder) (i i' : CaIndex) (r size rc : Z) (id : ObjectID)
  (obj : list byte) :
  direction (sync m) = CA_SYNC_DECODE ->
  ca_sync_start m = Ret (r0, m1) ->
  0 <= r0 ->
  eof (sync m1) = false ->
  decoder (sync m1) = Some d ->
  ca_decoder_step d = (d', CA_DECODER_REQUEST) ->
  index (sync m1) = Some i ->
  ca_index_read_object i = (i', r, id, size) ->
  0 < r ->
  ca_sync_get (sync m1) (Some id) = (rc, obj) ->
  0 <= rc ->
  len obj <> size ->
  exists m',
    ca_sync_step m = Ret (- EBADMSG, m') /\
    handed (trace m') = handed (trace m) /\
    decoder (sync m') = Some d'.
Proof.
  intros Hd Hs Hr0 He Hdec Hstep Hi Hread Hr Hget Hrc Hsize.
  rewrite (decode_step_request m m1 r0 d d') by assumption.
  unfold bind.
  rewrite (process_request_size_mismatch _ i i' r size rc id obj);
    fields; auto.
  eexists. split; [reflexivity|]. fields.
  destruct (start_view _ _ _ Hs) as (_ & _ & _ & _ & _ & _ & Vh & _).
  auto.
Qed.

Lemma process_request_use_after_free (m : Machine) (i i' : CaIndex)
  (r size rc rp : Z) (id : ObjectID) (obj : list byte) (d d' : CaDecoder) :
  index (sync m) = Some i ->
  ca_index_read_object i = (i', r, id, size) ->
  0 < r ->
  ca_sync_get (sync m) (Some id) = (rc, obj) ->
  0 <= rc ->
  len obj = size ->
  0 < size ->
  decoder (sync m) = Some d ->
  ca_decoder_put_data d obj = (d', rp) ->
  0 <= rp ->
  ca_sync_process_decoder_request m = Undefined UseAfterFree.
Proof.
  intros Hi Hread Hr Hget Hrc Hsize Hpos Hdec Hput Hrp.
  unfold ca_sync_process_decoder_request, index_read_object, on_index,
    decoder_put_data, on_decoder, ca_sync_write_archive_digest,
    ca_sync_allocate_archive_digest, read_block, free.
  munfold. fields. subst size.
  repeat (progress (rewrite ?Hi, ?Hread, ?ca_sync_get_with_index, ?Hget,
                      ?Hdec, ?Hput, ?firstn_len, ?Z.eqb_refl, ?Z.leb_refl,
                      ?(ltb_false r), ?(eqb_false r 0), ?(ltb_false rc),
                      ?(ltb_false rp), ?(eqb_false (len obj) 0)
                      by (lia || congruence);
                    cbn [negb]; fields)).
  destruct (is_some (archive_digest (sync m))); fields;
    rewrite ?Z.ltb_irrefl; reflexivity.
Qed.

(** C3, as the code has it.  In a decode step in which the decoder requests
    data, the index yields a record [(id, size)] and the store fan-in
    returns an object of that size, not empty, which the decoder accepts:
    the object's block is released before the archive digest is given the
    pointer to it, so the step reads a released block and absorbs no
    defined bytes into the archive digest. *)
Theorem digest_reads_released_chunk (m m1 : Machine) (r0 : Z)
  (d d' d'' : CaDecoder) (i i' : CaIndex) (r size rc rp : Z) (id : ObjectID)
  (obj : list byte) :
  direction (sync m) = CA_SYNC_DECODE ->
  ca_sync_start m = Ret (r0, m1) ->
  0 <= r0 ->
  eof (sync m1) = false ->
  decoder (sync m1) = Some d ->
  ca_decoder_step d = (d', CA_DECODER_REQUEST) ->
  index (sync m1) = Some i ->
  ca_index_read_object i = (i', r, id, size) ->
  0 < r ->
  ca_sync_get (sync m1) (Some id) = (rc, obj) ->
  0 <= rc ->
  len obj = size ->
  0 < size ->
  ca_decoder_put_data d' obj = (d'', rp) ->
  0 <= rp ->
  ca_sync_step m = Undefined UseAfterFree.
Proof.
  intros Hd Hs Hr0 He Hdec Hstep Hi Hread Hr Hget Hrc Hsize Hpos Hput Hrp.
  rewrite (decode_step_request m m1 r0 d d') by assumption.
  unfold bind.
  rewrite (process_request_use_after_free _ i i' r size rc rp id obj d' d'');
    fields; auto.
Qed.

(** ** Exclusive configuration groups *)




Definition is_setter (c : Call) : bool :=
  match c with
  | Step | GetDigest => false
  | _ => true
  end.













(** * Further properties of the driver *)

(** ** The archive digest of an encode run *)

Lemma get_digest_after_eof (m : Machine) :
  eof (sync m) = true ->
  exists m',
    ca_sync_get_digest m =
    Ret ((0, Some (sha256 (digest_bytes (archive_digest (sync m))))), m') /\
    digest_bytes (archive_digest (sync m')) =
    digest_bytes (archive_digest (sync m)) /\
    trace m' = trace m.
Proof.
  intros He. open_machine m.
  unfold ca_sync_get_digest, ca_sync_allocate_archive_digest.
  munfold. fields.
  destruct archive_digest0; gsimp;
    (eexists; split; [reflexivity|]); fields; auto.
Qed.

(** The archive digest has absorbed the archive stream, in an encoding
    driver. *)
Definition digest_tracks (m : Machine) : Prop :=
  direction (sync m) = CA_SYNC_ENCODE /\
  digest_bytes (archive_digest (sync m)) = archive_stream (trace m).

Lemma step_digest_tracks (m m' : Machine) (r : Z) :
  digest_tracks m ->
  ca_sync_step m = Ret (r, m') ->
  0 <= r ->
  digest_tracks m'.
Proof.
  intros (Hd & Ht) H Hr.
  destruct (step_split _ _ _ H Hr) as (r0 & m1 & Hs & Hr0 & He).
  rewrite Hd in He.
  destruct (start_view _ _ _ Hs) as (Hc & Vs & _).
  apply core_fields in Hc.
  destruct Hc as (Ed & _ & _ & _ & _ & _ & _ & Edig & _).
  unfold digest_tracks.
  destruct (step_encode_results _ _ _ He Hr) as [Hf | Hdata].
  - destruct (step_encode_finished _ _ _ He Hf)
      as (_ & _ & F3 & _ & _ & F6 & F7 & _).
    rewrite F3, F6, F7, Ed, Edig, Vs. auto.
  - destruct (step_encode_data _ _ _ He Hdata)
      as (p & P1 & _ & P3 & _ & _ & _ & _ & P8 & _).
    rewrite P8, P1, P3, Ed, Edig, Vs, Ht. auto.
Qed.

Lemma run_steps_digest_tracks (n : nat) :
  forall m rs m',
    digest_tracks m ->
    run (repeat Step n) m = Ret (rs, m') ->
    Forall (fun r => 0 <= r) rs ->
    digest_tracks m'.
Proof.
  induction n as [|n IH]; intros m rs m' Hp H Hrs; cbn [repeat run] in H.
  - inversion H; subst. exact Hp.
  - cbn [call] in H.
    destruct (ca_sync_step m) as [[r m1]|f] eqn:E; [|discriminate].
    destruct (run (repeat Step n) m1) as [[rs1 m2]|f] eqn:E2; [|discriminate].
    inversion H; subst. inversion Hrs as [|? ? Hr Hrs1]; subst.
    eapply IH; [|exact E2|exact Hrs1].
    eapply step_digest_tracks; eauto.
Qed.

(** X1. In an encode run stepped from before its first step, as long as no
    step fails, the archive digest has absorbed exactly the archive stream
    obtained from the encoder, whatever store, index or chunker is
    configured; once [eof] is latched [ca_sync_get_digest] returns the
    SHA-256 of that stream. *)
Theorem encode_digest_covers_stream (n : nat) (m0 m : Machine)
  (rs : list Z) :
  direction (sync m0) = CA_SYNC_ENCODE ->
  digest_bytes (archive_digest (sync m0)) = [] ->
  archive_stream (trace m0) = [] ->
  run (repeat Step n) m0 = Ret (rs, m) ->
  Forall (fun r => 0 <= r) rs ->
  digest_bytes (archive_digest (sync m)) = archive_stream (trace m) /\
  (eof (sync m) = true ->
   exists m',
     ca_sync_get_digest m =
     Ret ((0, Some (sha256 (archive_stream (trace m)))), m')).
Proof.
  intros Hd Hdig Hs Hrun Hrs.
  assert (Ht : digest_tracks m0).
  { unfold digest_tracks. rewrite Hdig, Hs. auto. }
  destruct (run_steps_digest_tracks n m0 rs m Ht Hrun Hrs) as (_ & Hm).
  split; [exact Hm|]. intros He.
  destruct (get_digest_after_eof m He) as (m' & Hg & _).
  exists m'. rewrite <- Hm. exact Hg.
Qed.

(** ** The archive file of an encode run *)












(** ** When the index is finalized *)

Inductive IndexOp :=
| OpSetDigest (q : ObjectID)
| OpWriteEof
| OpClose.

(** The closing operations made on the index, in order. *)
Fixpoint finalization (t : list Event) : list IndexOp :=
  match t with
  | [] => []
  | EvIndexSetDigest q _ :: t' => OpSetDigest q :: finalization t'
  | EvIndexWriteEof _ :: t' => OpWriteEof :: finalization t'
  | EvIndexClose _ :: t' => OpClose :: finalization t'
  | _ :: t' => finalization t'
  end.

Lemma finalization_app (t : list Event) :
  forall t2, finalization (t ++ t2) = finalization t ++ finalization t2.
Proof. proj_app t. Qed.

Lemma finalization_quiet (t : list Event) :
  forallb quiet t = true -> finalization t = [].
Proof. proj_quiet t. Qed.

Lemma finalization_chunk_event (t : list Event) :
  forallb chunk_event t = true -> finalization t = [].
Proof.
  induction t as [|e t IH]; intros Hq; [reflexivity|].
  destruct e; simpl in Hq; try discriminate; simpl; apply IH; exact Hq.
Qed.

(** The test under which [ca_sync_write_final_chunk] reaches the index. *)
Definition flushes_index (s : CaSync) : bool :=
  is_some (wstore s) && negb (len (buffer s) =? 0) && is_some (index s).

Lemma write_final_chunk_finalization (m m' : Machine) (r : Z) :
  ca_sync_write_final_chunk m = Ret (r, m') ->
  0 <= r ->
  finalization (trace m') =
  finalization (trace m) ++
  (if flushes_index (sync m)
   then [OpSetDigest (sha256 (digest_bytes (archive_digest (sync m))));
         OpWriteEof; OpClose]
   else []) /\
  buffer (sync m') = buffer (sync m).
Proof.
  intros H Hr. open_machine m.
  unfold ca_sync_write_final_chunk, index_set_digest, index_write_eof,
    index_close, ca_sync_allocate_archive_digest, on_index in H.
  unfold flushes_index. fields.
  mcases; try (zbool; lia);
    repeat match goal with
      | Hc : ca_sync_write_one_chunk _ _ = Ret _ |- _ =>
          let Hk := fresh "Hk" in
          destruct (framed_write_one_chunk _ _ _ _ Hc)
            as (Hk & t1 & Ht1 & Hq1);
          apply kept_fields in Hk; fields;
          destruct Hk as (_ & _ & _ & K4 & _ & _ & _ & K8);
          apply finalization_chunk_event in Hq1;
          apply write_one_chunk_account in Hc; fields;
          destruct Hc as (_ & _ & Hb & _)
      end;
    rewrite ?K4 in *; rewrite <- ?K8; use_tests; cbn [negb andb is_some];
    rewrite ?andb_false_r, ?app_nil_r; auto;
    rewrite ?finalization_app; cbn [finalization];
    rewrite ?Ht1, ?finalization_app, ?Hq1, ?app_nil_r;
    cbn [digest_bytes] in *; try congruence; split; try congruence;
    rewrite <- ?app_assoc; cbn [app]; try congruence.
Qed.

Lemma step_encode_data_finalization (m m' : Machine) (r : Z) :
  ca_sync_step_encode m = Ret (r, m') ->
  r = CA_SYNC_STEP \/ r = CA_SYNC_NEXT_FILE ->
  finalization (trace m') = finalization (trace m).
Proof.
  intros H Hr.
  destruct sync_enum_facts as (F0 & F1 & F2 & N1 & N2 & N3).
  open_machine m.
  unfold ca_sync_step_encode, encoder_get_data, on_encoder,
    ca_sync_write_archive, ca_sync_write_archive_digest,
    ca_sync_allocate_archive_digest, ca_sync_write_chunks, read_block in H.
  mcases; try (zbool; lia).
  all: try match goal with
         | Hl : write_chunks_loop _ _ _ = Ret (_, _) |- _ =>
             destruct (framed_write_chunks_loop _ _ _ _ _ Hl)
               as (_ & t' & Ht & Hq);
             apply finalization_chunk_event in Hq; fields; rewrite Ht
         end.
  all: rewrite ?finalization_app; cbn [finalization];
       rewrite ?Hq, ?app_nil_r; reflexivity.
Qed.

Lemma step_encode_finished_finalization (m m' : Machine) (r : Z) :
  ca_sync_step_encode m = Ret (r, m') ->
  r = CA_SYNC_FINISHED ->
  finalization (trace m') =
  finalization (trace m) ++
  (if flushes_index (sync m)
   then [OpSetDigest (sha256 (digest_bytes (archive_digest (sync m))));
         OpWriteEof; OpClose]
   else []) /\
  buffer (sync m') = buffer (sync m).
Proof.
  intros H Hr.
  destruct sync_enum_facts as (F0 & F1 & F2 & N1 & N2 & N3).
  open_machine m.
  unfold ca_sync_step_encode, rename_temporary, sys_rename, on_encoder in H.
  mcases; try (zbool; lia); try congruence.
  all: match goal with
       | Hf : ca_sync_write_final_chunk _ = Ret (_, _) |- _ =>
           apply write_final_chunk_finalization in Hf; [|zbool; lia];
           unfold flushes_index in *; fields; destruct Hf as (Hfin & Hbuf)
       end.
  all: rewrite Hfin, Hbuf, ?finalization_app; cbn [finalization];
       rewrite ?app_nil_r; auto.
Qed.

(** The closing operations made so far are those of a finished run that
    reached the index. *)
Definition finalization_tracks (m : Machine) : Prop :=
  digest_tracks m /\
  finalization (trace m) =
  if eof (sync m) && flushes_index (sync m)
  then [OpSetDigest (sha256 (archive_stream (trace m))); OpWriteEof; OpClose]
  else [].

Lemma step_finalization_tracks (m m' : Machine) (r : Z) :
  finalization_tracks m ->
  ca_sync_step m = Ret (r, m') ->
  0 <= r ->
  finalization_tracks m'.
Proof.
  intros (Ht & Hfin) H Hr.
  pose proof (step_digest_tracks _ _ _ Ht H Hr) as Ht'.
  split; [exact Ht'|].
  destruct Ht as (Hd & Hdig). destruct Ht' as (_ & Hdig').
  destruct (step_split _ _ _ H Hr) as (r0 & m1 & Hs & Hr0 & He).
  rewrite Hd in He.
  destruct (start_view _ _ _ Hs) as (Hc & Vs & _).
  destruct (framed_start _ _ _ Hs) as (_ & t0 & Et0 & Hq0).
  apply finalization_quiet in Hq0.
  apply core_fields in Hc.
  destruct Hc as (_ & Ew & _ & _ & _ & _ & Eb & Edig & Ei & Eeof).
  destruct (eof (sync m1)) eqn:Heof.
  { destruct (step_encode_eof _ _ _ Heof He) as (Er & _).
    subst r. unfold EPIPE in Hr. lia. }
  rewrite <- Eeof in Hfin. cbn [andb] in Hfin.
  assert (Hfin1 : finalization (trace m1) = []).
  { rewrite Et0, finalization_app, Hq0, Hfin. reflexivity. }
  destruct (step_encode_results _ _ _ He Hr) as [Hf | Hdata].
  - destruct (step_encode_finished _ _ _ He Hf)
      as (F1 & _ & _ & _ & _ & F6 & F7 & F8 & F9 & _).
    destruct (step_encode_finished_finalization _ _ _ He Hf) as (G1 & G2).
    rewrite G1, Hfin1, F1. cbn [app andb].
    unfold flushes_index. rewrite F8, F9, G2.
    rewrite <- F6, Hdig'. reflexivity.
  - rewrite (step_encode_data_finalization _ _ _ He Hdata), Hfin1.
    destruct (step_encode_data _ _ _ He Hdata)
      as (_ & _ & _ & _ & _ & _ & _ & _ & _ & _ & _ & P11 & _).
    rewrite P11. reflexivity.
Qed.

Lemma run_steps_finalization_tracks (n : nat) :
  forall m rs m',
    finalization_tracks m ->
    run (repeat Step n) m = Ret (rs, m') ->
    Forall (fun r => 0 <= r) rs ->
    finalization_tracks m'.
Proof.
  induction n as [|n IH]; intros m rs m' Hp H Hrs; cbn [repeat run] in H.
  - inversion H; subst. exact Hp.
  - cbn [call] in H.
    destruct (ca_sync_step m) as [[r m1]|f] eqn:E; [|discriminate].
    destruct (run (repeat Step n) m1) as [[rs1 m2]|f] eqn:E2; [|discriminate].
    inversion H; subst. inversion Hrs as [|? ? Hr Hrs1]; subst.
    eapply IH; [|exact E2|exact Hrs1].
    eapply step_finalization_tracks; eauto.
Qed.

(** X3. In an encode run stepped from before its first step, as long as no
    step fails, the index is given its closing operations exactly when the
    run has finished with a writable store, a pending tail that is not
    empty and an index: then, once and in this order, the SHA-256 of the
    whole archive stream, the EOF record and the close.  In every other
    case the index receives none of the three. *)
Theorem index_finalization (n : nat) (m0 m : Machine) (rs : list Z) :
  direction (sync m0) = CA_SYNC_ENCODE ->
  eof (sync m0) = false ->
  digest_bytes (archive_digest (sync m0)) = [] ->
  archive_stream (trace m0) = [] ->
  finalization (trace m0) = [] ->
  run (repeat Step n) m0 = Ret (rs, m) ->
  Forall (fun r => 0 <= r) rs ->
  finalization (trace m) =
  if eof (sync m) && flushes_index (sync m)
  then [OpSetDigest (sha256 (archive_stream (trace m))); OpWriteEof; OpClose]
  else [].
Proof.
  intros Hd He Hdig Hs Hf Hrun Hrs.
  assert (Ht : finalization_tracks m0).
  { unfold finalization_tracks, digest_tracks.
    rewrite Hdig, Hs, Hf, He. auto. }
  apply (run_steps_finalization_tracks n m0 rs m Ht Hrun Hrs).
Qed.

(** ** What a step of one direction never does *)

Definition decode_view (s : CaSync) :=
  (direction s, wstore s, rstores s, chunker s, buffer s, object_digest s).

(** The events a decode step can emit: those of lazy start, the rename of
    the finished base, and what the decoder is given. *)
Definition decode_event (e : Event) : bool :=
  match e with
  | EvRename _ _ _ | EvDecoderPutData _ _ | EvDecoderPutDataFd _ _
  | EvDecoderPutEof _ => true
  | _ => quiet e
  end.

Lemma decode_event_silent (t : list Event) :
  forallb decode_event t = true ->
  submitted t = [] /\ indexed t = [] /\ chunked t = [] /\
  (forall fd, written fd t = []) /\ archive_stream t = [] /\
  finalization t = [].
Proof.
  induction t as [|e t IH]; intros Hq; [repeat split; reflexivity|].
  destruct e; simpl in Hq; try discriminate; simpl; apply IH; exact Hq.
Qed.

Lemma framed_decode_step_decode :
  framed_by decode_view decode_event ca_sync_step_decode.
Proof.
  unfold ca_sync_step_decode, rename_temporary, sys_rename,
    ca_sync_process_decoder_request, index_read_object, decoder_put_eof,
    decoder_put_data, decoder_put_data_fd, ca_sync_write_archive_digest,
    ca_sync_allocate_archive_digest.
  framed_auto.
Qed.

Lemma framed_decode_start : framed_by decode_view decode_event ca_sync_start.
Proof.
  apply (framed_weaken core decode_view quiet decode_event);
    [| | apply framed_start].
  - intros s s' H. unfold core in H. inversion H.
    unfold decode_view. congruence.
  - intros e He. destruct e; simpl in *; auto.
Qed.

(** X4. A step of a decoding driver, whether it succeeds or fails, leaves
    the stores, the chunker and the pending buffer as they are, submits
    nothing to the writable store, appends nothing to the index, writes no
    archive bytes and asks nothing of the encoder. *)
Theorem decode_step_is_read_only (m m' : Machine) (r : Z) :
  direction (sync m) = CA_SYNC_DECODE ->
  ca_sync_step m = Ret (r, m') ->
  wstore (sync m') = wstore (sync m) /\
  rstores (sync m') = rstores (sync m) /\
  buffer (sync m') = buffer (sync m) /\
  submitted (trace m') = submitted (trace m) /\
  indexed (trace m') = indexed (trace m) /\
  finalization (trace m') = finalization (trace m) /\
  chunked (trace m') = chunked (trace m) /\
  archive_stream (trace m') = archive_stream (trace m) /\
  (forall fd, written fd (trace m') = written fd (trace m)).
Proof.
  intros Hd H.
  assert (Hframe : decode_view (sync m') = decode_view (sync m) /\
                   exists t', trace m' = trace m ++ t' /\
                              forallb decode_event t' = true).
  { unfold ca_sync_step in H. unfold bind at 1 in H.
    destruct (ca_sync_start m) as [[r1 m1]|f] eqn:Hs; [|discriminate].
    destruct (framed_decode_start _ _ _ Hs) as (Hv1 & t1 & Et1 & Hq1).
    destruct (r1 <? 0).
    - unfold ret in H. inversion H; subst. split; [exact Hv1|].
      exists t1. auto.
    - unfold bind, get_sync in H. fields.
      assert (Hd1 : direction (sync m1) = CA_SYNC_DECODE).
      { unfold decode_view in Hv1. inversion Hv1. congruence. }
      rewrite Hd1 in H.
      destruct (framed_decode_step_decode _ _ _ H) as (Hv2 & t2 & Et2 & Hq2).
      split; [congruence|]. exists (t1 ++ t2). split.
      + rewrite Et2, Et1, app_assoc. reflexivity.
      + rewrite forallb_app, Hq1, Hq2. reflexivity. }
  destruct Hframe as (Hv & t' & Et & Hq).
  apply decode_event_silent in Hq.
  destruct Hq as (Q1 & Q2 & Q3 & Q4 & Q5 & Q6).
  unfold decode_view in Hv. inversion Hv.
  rewrite Et, submitted_app, indexed_app, finalization_app, chunked_app,
    archive_stream_app, Q1, Q2, Q3, Q5, Q6, !app_nil_r.
  repeat split; auto.
  intros fd. rewrite written_app, Q4, app_nil_r. reflexivity.
Qed.

(** ** Renames in a decode run *)

(** What answering a request of the decoder can emit. *)
Definition request_event (e : Event) : bool :=
  match e with
  | EvDecoderPutData _ _ | EvDecoderPutDataFd _ _ | EvDecoderPutEof _ => true
  | _ => false
  end.

Definition paths_view (s : CaSync) :=
  (direction s, base_path s, temporary_base_path s, eof s).

Lemma framed_request :
  framed_by paths_view request_event ca_sync_process_decoder_request.
Proof.
  unfold ca_sync_process_decoder_request, index_read_object, decoder_put_eof,
    decoder_put_data, decoder_put_data_fd, ca_sync_write_archive_digest,
    ca_sync_allocate_archive_digest.
  framed_auto.
Qed.

Lemma request_event_renamed (t : list Event) :
  forallb request_event t = true -> renamed t = [].
Proof.
  induction t as [|e t IH]; intros Hq; [reflexivity|].
  destruct e; simpl in Hq; try discriminate; simpl; apply IH; exact Hq.
Qed.

Lemma step_decode_renames (m m' : Machine) (r : Z) :
  ca_sync_step_decode m = Ret (r, m') ->
  (renamed (trace m') = renamed (trace m) /\
   (r = CA_SYNC_FINISHED -> eof (sync m') = true)) \/
  (r = CA_SYNC_FINISHED /\ eof (sync m') = true /\
   exists t d,
     temporary_base_path (sync m) = Some t /\ base_path (sync m) = Some d /\
     temporary_base_path (sync m') = None /\
     renamed (trace m') = renamed (trace m) ++ [(t, d)]).
Proof.
  intros H.
  destruct sync_enum_facts as (F0 & F1 & F2 & N1 & N2 & N3).
  open_machine m.
  unfold ca_sync_step_decode, rename_temporary, sys_rename, on_decoder in H.
  mcases.
  all: try (exfalso; zbool; lia).
  all: try match goal with
         | Hq : ca_sync_process_decoder_request _ = Ret (_, _) |- _ =>
             destruct (framed_request _ _ _ Hq) as (Hv & t' & Ht & Hev);
             apply request_event_renamed in Hev; fields;
             rewrite Ht, renamed_app, Hev
         end.
  all: rewrite ?renamed_app; cbn [renamed]; use_tests;
       rewrite ?app_nil_r.
  all: try (left; split; [reflexivity|]; intros E;
            solve [ reflexivity | zbool; lia | congruence
                  | exfalso; zbool; unfold EPIPE, ENOTTY in *; lia ]).
  all: right; repeat split; auto; eexists; eexists; repeat split; reflexivity.
Qed.

(** X5. A step of a decoding driver renames at most once: only the
    temporary base onto the base path, and only in the step that returns
    [CA_SYNC_FINISHED] and latches [eof].  A decode step that fails, or
    that has not finished, renames nothing. *)
Theorem decode_renames_only_on_finish (m m' : Machine) (r : Z) :
  direction (sync m) = CA_SYNC_DECODE ->
  ca_sync_step m = Ret (r, m') ->
  renamed (trace m') = renamed (trace m) \/
  (r = CA_SYNC_FINISHED /\ eof (sync m') = true /\
   exists t d,
     base_path (sync m) = Some d /\
     renamed (trace m') = renamed (trace m) ++ [(t, d)]).
Proof.
  intros Hd H. unfold ca_sync_step in H. unfold bind at 1 in H.
  destruct (ca_sync_start m) as [[r1 m1]|f] eqn:Hs; [|discriminate].
  destruct (start_view _ _ _ Hs)
    as (Hc & _ & _ & _ & _ & _ & _ & Vr & _).
  apply core_fields in Hc. destruct Hc as (Ed & _ & _ & _ & Ebp & _).
  destruct (r1 <? 0).
  - unfold ret in H. inversion H; subst. left. exact Vr.
  - unfold bind, get_sync in H. fields. rewrite Ed, Hd in H.
    destruct (step_decode_renames _ _ _ H) as [(Hsame & _) | Hren].
    + left. congruence.
    + right. destruct Hren as (Hr & He & t & d & _ & Hbp & _ & Hrn).
      split; [exact Hr|]. split; [exact He|].
      exists t, d. rewrite <- Ebp, <- Vr. auto.
Qed.

(** ** Lazy start, block by block *)

Lemma start_cases (m m1 : Machine) (r0 : Z) :
  ca_sync_start m = Ret (r0, m1) ->
  exists ra ma,
    start_archive m = Ret (ra, ma) /\
    if ra <? 0 then r0 = ra /\ m1 = ma
    else
      exists rb mb,
        start_encoder ma = Ret (rb, mb) /\
        if rb <? 0 then r0 = rb /\ m1 = mb
        else
          exists rc mc,
            start_decoder mb = Ret (rc, mc) /\
            if rc <? 0 then r0 = rc /\ m1 = mc
            else
              exists rd,
                start_index mc = Ret (rd, m1) /\
                r0 = (if rd <? 0 then rd else 0).
Proof.
  intros H. unfold ca_sync_start in H. unfold bind at 1 in H.
  destruct (start_archive m) as [[ra ma]|f]; [|discriminate].
  exists ra, ma. split; [reflexivity|].
  destruct (ra <? 0); [unfold ret in H; inversion H; auto|].
  unfold bind at 1 in H.
  destruct (start_encoder ma) as [[rb mb]|f]; [|discriminate].
  exists rb, mb. split; [reflexivity|].
  destruct (rb <? 0); [unfold ret in H; inversion H; auto|].
  unfold bind at 1 in H.
  destruct (start_decoder mb) as [[rc mc]|f]; [|discriminate].
  exists rc, mc. split; [reflexivity|].
  destruct (rc <? 0); [unfold ret in H; inversion H; auto|].
  unfold bind at 1 in H.
  destruct (start_index mc) as [[rd md]|f]; [|discriminate].
  exists rd. destruct (rd <? 0); unfold ret in H; inversion H; auto.
Qed.

Definition objects_view (s : CaSync) :=
  (direction s, is_some (encoder s), is_some (decoder s)).

Lemma framed_objects_start_index :
  framed_by objects_view any_event start_index.
Proof. unfold start_index, index_open. framed_auto. Qed.

Lemma framed_objects_start_archive :
  framed_by objects_view any_event start_archive.
Proof.
  unfold start_archive, sys_open, sys_tempfn_random. framed_auto.
Qed.

Lemma start_encoder_post (m m' : Machine) (r : Z) :
  start_encoder m = Ret (r, m') ->
  0 <= r ->
  direction (sync m') = direction (sync m) /\
  is_some (decoder (sync m')) = is_some (decoder (sync m)) /\
  (direction (sync m) = CA_SYNC_ENCODE -> is_some (encoder (sync m')) = true).
Proof.
  intros H Hr. open_machine m.
  unfold start_encoder, on_encoder in H.
  mcases; try (exfalso; zbool; unfold EUNATCH in *; lia);
    repeat split; auto; intros E; subst;
    cbn [is_encode negb andb] in *; use_tests; auto.
Qed.

Lemma start_decoder_post (m m' : Machine) (r : Z) :
  start_decoder m = Ret (r, m') ->
  0 <= r ->
  direction (sync m') = direction (sync m) /\
  is_some (encoder (sync m')) = is_some (encoder (sync m)) /\
  (direction (sync m) = CA_SYNC_DECODE -> is_some (decoder (sync m')) = true).
Proof.
  intros H Hr.
  unfold start_decoder in H. unfold bind at 1 in H. unfold get_sync at 1 in H.
  fields.
  destruct (is_decode (direction (sync m)) && negb (is_some (decoder (sync m))))
    eqn:Eb.
  - unfold bind at 1 in H.
    destruct (start_base m) as [[rb mb]|f] eqn:Hb; [|discriminate].
    destruct (framed_start_base _ _ _ Hb) as (Hc & _).
    apply core_fields in Hc. destruct Hc as (Ed & _).
    assert (Henc : is_some (encoder (sync mb)) = is_some (encoder (sync m))).
    { clear H. open_machine m.
      unfold start_base, sys_open, sys_mkdir, sys_tempfn_random in Hb.
      mcases; reflexivity. }
    destruct (rb <? 0) eqn:Erb.
    + unfold ret in H. inversion H; subst. zbool. lia.
    + open_machine mb. unfold on_decoder in H. fields.
      mcases; try (exfalso; zbool; unfold EUNATCH in *; lia);
        repeat split; auto.
  - unfold ret in H. inversion H; subst. repeat split; auto.
    intros Ed. rewrite Ed in Eb. cbn [is_decode is_encode negb andb] in Eb.
    apply negb_false_iff in Eb. exact Eb.
Qed.

(** The state lazy start leaves behind when it succeeds. *)
Definition started (m : Machine) : Prop :=
  match direction (sync m) with
  | CA_SYNC_ENCODE =>
      is_some (encoder (sync m)) = true /\
      (is_some (archive_path (sync m)) = true ->
       (archive_fd (sync m) <? 0) = false)
  | CA_SYNC_DECODE => is_some (decoder (sync m)) = true
  end.

Lemma start_success_started (m m1 : Machine) (r0 : Z) :
  ca_sync_start m = Ret (r0, m1) ->
  0 <= r0 ->
  started m1.
Proof.
  intros Hs Hr0.
  destruct (start_view _ _ _ Hs) as (Hc & _).
  apply core_fields in Hc. destruct Hc as (Ed & _).
  destruct (start_cases _ _ _ Hs) as (ra & ma & Ha & Hrest).
  destruct (ra <? 0) eqn:Era; [destruct Hrest; subst; zbool; lia|].
  destruct Hrest as (rb & mb & Hb & Hrest).
  destruct (rb <? 0) eqn:Erb; [destruct Hrest; subst; zbool; lia|].
  destruct Hrest as (rc & mc & Hcc & Hrest).
  destruct (rc <? 0) eqn:Erc; [destruct Hrest; subst; zbool; lia|].
  destruct Hrest as (rd & Hd & Hrd).
  destruct (framed_objects_start_archive _ _ _ Ha) as (Va & _).
  unfold objects_view in Va. inversion Va as [[Va1 Va2 Va3]].
  destruct (start_encoder_post _ _ _ Hb) as (B1 & B2 & B3); [zbool; lia|].
  destruct (start_decoder_post _ _ _ Hcc) as (C1 & C2 & C3); [zbool; lia|].
  destruct (framed_objects_start_index _ _ _ Hd) as (Vd & _).
  unfold objects_view in Vd. inversion Vd as [[Vd1 Vd2 Vd3]].
  unfold started. rewrite Ed.
  destruct (direction (sync m)) eqn:Hdir.
  - split.
    + rewrite Vd2, C2. apply B3. congruence.
    + intros Hp. eapply start_archive_fd; eauto.
  - rewrite Vd3. apply C3. congruence.
Qed.

Lemma started_start (m : Machine) :
  started m ->
  ca_sync_start m = (check r <- start_index ;; ret 0) m.
Proof.
  intros Hst. open_machine m. unfold started in Hst. fields.
  unfold ca_sync_start, start_archive, start_encoder, start_decoder.
  destruct direction0; fields.
  - destruct Hst as (Henc & Hfd).
    destruct encoder0; [|discriminate Henc].
    destruct archive_path0; fields;
      [pose proof (Hfd eq_refl) as Hfd'|]; munfold; gsimp;
      rewrite ?Hfd'; gsimp; reflexivity.
  - destruct decoder0; [|discriminate Hst].
    destruct archive_path0; munfold; gsimp; reflexivity.
Qed.

(** X6. Lazy start is idempotent: on the machine a successful lazy start
    leaves behind, lazy start creates no file, no encoder and no decoder
    and hands over no descriptor; all it does is call [ca_index_open]
    again when an index is configured, and return its error if it fails.
    Without an index it returns 0 and changes nothing. *)
Theorem start_is_idempotent (m m1 : Machine) (r0 : Z) :
  ca_sync_start m = Ret (r0, m1) ->
  0 <= r0 ->
  ca_sync_start m1 = (check r <- start_index ;; ret 0) m1 /\
  (index (sync m1) = None -> ca_sync_start m1 = Ret (0, m1)).
Proof.
  intros Hs Hr0.
  pose proof (started_start m1 (start_success_started _ _ _ Hs Hr0)) as E.
  split; [exact E|]. intros Hi. rewrite E.
  unfold start_index. munfold. fields. rewrite Hi. gsimp.
  destruct m1; reflexivity.
Qed.

(** ** Who owns the base descriptor *)

Definition owner_view (s : CaSync) := (direction s, encoder s, base_fd s).

Lemma framed_owner_start_archive :
  framed_by owner_view any_event start_archive.
Proof.
  unfold start_archive, sys_open, sys_tempfn_random. framed_auto.
Qed.

Lemma framed_owner_start_index : framed_by owner_view any_event start_index.
Proof. unfold start_index, index_open. framed_auto. Qed.

Lemma start_decoder_encode (m : Machine) :
  direction (sync m) = CA_SYNC_ENCODE ->
  start_decoder m = Ret (0, m).
Proof.
  intros Hd. unfold start_decoder. munfold. fields. rewrite Hd.
  reflexivity.
Qed.

Lemma step_of_failed_start (m m1 : Machine) (r0 : Z) :
  ca_sync_start m = Ret (r0, m1) ->
  r0 < 0 ->
  ca_sync_step m = Ret (r0, m1).
Proof.
  intros Hs Hr. unfold ca_sync_step. unfold bind at 1. rewrite Hs.
  apply Z.ltb_lt in Hr. rewrite Hr. reflexivity.
Qed.

(** X7. The base descriptor has one owner.  When lazy start runs on an
    encoding driver that holds a base descriptor and has no encoder yet,
    then afterwards either the driver still holds the descriptor and has
    no encoder (lazy start failed before the encoder took it, or the
    encoder refused it), or the encoder that accepted the descriptor is
    installed and the driver's slot is -1.  A successful lazy start always
    ends in the second case. *)
Theorem base_fd_has_one_owner (m m1 : Machine) (r0 : Z) :
  direction (sync m) = CA_SYNC_ENCODE ->
  encoder (sync m) = None ->
  0 <= base_fd (sync m) ->
  ca_sync_start m = Ret (r0, m1) ->
  (r0 < 0 /\ encoder (sync m1) = None /\
   base_fd (sync m1) = base_fd (sync m)) \/
  (0 <= snd (ca_encoder_set_base_fd ca_encoder_new (base_fd (sync m))) /\
   encoder (sync m1) =
   Some (fst (ca_encoder_set_base_fd ca_encoder_new (base_fd (sync m)))) /\
   base_fd (sync m1) = -1).
Proof.
  intros Hd Henc Hfd Hs.
  destruct (start_cases _ _ _ Hs) as (ra & ma & Ha & Hrest).
  destruct (framed_owner_start_archive _ _ _ Ha) as (Va & _).
  unfold owner_view in Va. inversion Va as [[Va1 Va2 Va3]].
  destruct (ra <? 0) eqn:Era.
  { destruct Hrest; subst. left. zbool. repeat split; auto; congruence. }
  destruct Hrest as (rb & mb & Hb & Hrest).
  assert (Hblock :
    (rb < 0 /\ mb = ma) \/
    (0 <= rb /\ direction (sync mb) = CA_SYNC_ENCODE /\
     0 <= snd (ca_encoder_set_base_fd ca_encoder_new (base_fd (sync m))) /\
     encoder (sync mb) =
     Some (fst (ca_encoder_set_base_fd ca_encoder_new (base_fd (sync m)))) /\
     base_fd (sync mb) = -1)).
  { clear Hrest Hs Ha. rewrite <- Va3. rewrite Hd in Va1. rewrite Henc in Va2.
    open_machine ma. unfold start_encoder, on_encoder in Hb.
    cbn [is_encode negb andb is_some] in Hb.
    mcases; cbn [is_encode negb andb] in *; try congruence;
      try (exfalso; zbool; lia);
      first [ left; split; [zbool; lia | reflexivity]
            | right; fields; zbool; repeat split; auto; lia ]. }
  destruct Hblock as [(Hrb & Emb) | (Hrb & Hdb & Hre & Heb & Hfb)].
  - apply Z.ltb_lt in Hrb. rewrite Hrb in Hrest. destruct Hrest; subst.
    left. zbool. repeat split; auto; congruence.
  - rewrite (ltb_false rb Hrb) in Hrest.
    destruct Hrest as (rc & mc & Hc & Hrest).
    rewrite (start_decoder_encode mb Hdb) in Hc. inversion Hc; subst rc mc.
    rewrite Z.ltb_irrefl in Hrest. destruct Hrest as (rd & Hdx & _).
    destruct (framed_owner_start_index _ _ _ Hdx) as (Vd & _).
    unfold owner_view in Vd. inversion Vd as [[Vd1 Vd2 Vd3]].
    right. repeat split; congruence.
Qed.

(** X8. An encoding driver with no base descriptor and no encoder cannot
    step: every step fails, with [-EUNATCH] unless creating the archive
    output failed first; the encoder is never created, no data is obtained,
    and the driver is left in the same situation for the next step. *)
Theorem encode_without_base_fails (m m' : Machine) (r : Z) :
  direction (sync m) = CA_SYNC_ENCODE ->
  encoder (sync m) = None ->
  base_fd (sync m) < 0 ->
  ca_sync_step m = Ret (r, m') ->
  r < 0 /\
  direction (sync m') = CA_SYNC_ENCODE /\
  encoder (sync m') = None /\
  base_fd (sync m') = base_fd (sync m) /\
  archive_stream (trace m') = archive_stream (trace m) /\
  (archive_path (sync m) = None \/ (archive_fd (sync m) <? 0) = false ->
   r = - EUNATCH).
Proof.
  intros Hd Henc Hfd H.
  unfold ca_sync_step in H. unfold bind at 1 in H.
  destruct (ca_sync_start m) as [[r0 m1]|f] eqn:Hs; [|discriminate].
  destruct (start_view _ _ _ Hs) as (_ & Vs & _).
  destruct (start_cases _ _ _ Hs) as (ra & ma & Ha & Hrest).
  destruct (framed_owner_start_archive _ _ _ Ha) as (Va & _).
  unfold owner_view in Va. inversion Va as [[Va1 Va2 Va3]].
  assert (Hra : archive_path (sync m) = None \/
                (archive_fd (sync m) <? 0) = false -> ra = 0).
  { clear H Hs Hrest. intros Hnone. open_machine m.
    unfold start_archive, sys_open, sys_tempfn_random in Ha.
    destruct Hnone as [Hn | Hn]; subst; mcases; try reflexivity;
      match goal with
      | Hb : _ && (_ <? 0) = true |- _ =>
          rewrite Hn, andb_false_r in Hb; discriminate Hb
      end. }
  destruct (ra <? 0) eqn:Era.
  - destruct Hrest; subst r0 m1. rewrite Era in H. unfold ret in H.
    inversion H; subst. zbool. repeat split; try congruence.
    intros Hn. rewrite (Hra Hn) in Era. lia.
  - destruct Hrest as (rb & mb & Hb & Hrest).
    assert (Hblock : rb = - EUNATCH /\ mb = ma).
    { clear Hrest Hs Ha H. rewrite <- Va3 in Hfd. rewrite Hd in Va1.
      rewrite Henc in Va2. apply Z.ltb_lt in Hfd.
      open_machine ma. unfold start_encoder in Hb.
      mcases; cbn [is_encode negb andb] in *; try congruence; auto. }
    destruct Hblock; subst rb mb. cbn in Hrest. destruct Hrest; subst r0 m1.
    cbn in H. unfold ret in H. inversion H; subst.
    unfold EUNATCH. repeat split; try congruence; lia.
Qed.

(** ** The mode of a new archive file *)

Definition PERM_MASK : Z :=
  lor_all [S_IRUSR; S_IWUSR; S_IRGRP; S_IWGRP; S_IROTH; S_IWOTH].

Definition CREATE_FLAGS : Z :=
  lor_all [O_WRONLY; O_CLOEXEC; O_NOCTTY; O_CREAT; O_EXCL].

(** A mode with no bit outside the mask is unchanged by the mask. *)
Lemma land_perm_mask (pm : Z) :
  0 <= pm < 2 ^ 32 ->
  Z.land pm (mode_not PERM_MASK) = 0 ->
  Z.land pm 438 = pm.
Proof.
  intros Hpm Hmask. apply Z.bits_inj'. intros n Hn.
  rewrite Z.land_spec.
  destruct (Z.testbit pm n) eqn:Ebit; [|reflexivity].
  cbn [andb].
  assert (Hbit : Z.testbit (Z.land pm (mode_not PERM_MASK)) n = false)
    by (rewrite Hmask; apply Z.bits_0).
  rewrite Z.land_spec, Ebit in Hbit. cbn [andb] in Hbit.
  unfold mode_not, MODE_INVALID in Hbit. rewrite Z.lxor_spec in Hbit.
  change (2 ^ 32 - 1) with (Z.ones 32) in Hbit.
  destruct (Z.ltb_spec n 32) as [Hlt | Hge].
  - rewrite Z.ones_spec_low in Hbit by lia.
    change PERM_MASK with 438 in Hbit.
    destruct (Z.testbit 438 n); [reflexivity | discriminate Hbit].
  - exfalso.
    assert (Hhigh : Z.testbit pm n = false).
    { destruct (Z.eq_dec pm 0) as [E | E]; [subst; apply Z.bits_0|].
      apply Z.bits_above_log2; [lia|].
      assert (Z.log2 pm < 32) by (apply Z.log2_lt_pow2; lia). lia. }
    congruence.
Qed.

(** The events of lazy start in an encoding driver: the creation of the
    archive with the given mode, and the opening of the index. *)
Definition archive_open_event (mode : Z) (e : Event) : bool :=
  match e with
  | EvOpen _ fl md _ => (fl =? CREATE_FLAGS) && (md =? mode)
  | EvIndexOpen _ => true
  | _ => false
  end.

Lemma framed_silent_start_encoder :
  framed_by direction (fun _ => false) start_encoder.
Proof. unfold start_encoder. framed_auto. Qed.

Lemma framed_open_start_index (mode : Z) :
  framed_by direction (archive_open_event mode) start_index.
Proof. unfold start_index, index_open. framed_auto. Qed.

Lemma start_archive_events (m ma : Machine) (ra : Z) :
  start_archive m = Ret (ra, ma) ->
  direction (sync ma) = direction (sync m) /\
  exists t',
    trace ma = trace m ++ t' /\
    forallb (archive_open_event (Z.land (make_perm_mode (sync m)) 438)) t'
    = true.
Proof.
  intros H. open_machine m.
  unfold start_archive, sys_open, sys_tempfn_random in H.
  mcases; (split; [reflexivity|]);
    first [ exists []; rewrite app_nil_r; split; reflexivity
          | eexists; split; [reflexivity|];
            cbn [forallb archive_open_event]; unfold CREATE_FLAGS;
            rewrite !Z.eqb_refl; reflexivity ].
Qed.

Lemma start_encode_events (m m1 : Machine) (r0 : Z) :
  direction (sync m) = CA_SYNC_ENCODE ->
  ca_sync_start m = Ret (r0, m1) ->
  exists t',
    trace m1 = trace m ++ t' /\
    forallb (archive_open_event (Z.land (make_perm_mode (sync m)) 438)) t'
    = true.
Proof.
  intros Hd Hs.
  set (ok := archive_open_event (Z.land (make_perm_mode (sync m)) 438)).
  destruct (start_cases _ _ _ Hs) as (ra & ma & Ha & Hrest).
  destruct (start_archive_events _ _ _ Ha) as (Da & ta & Eta & Hqa).
  fold ok in Hqa.
  destruct (ra <? 0).
  { destruct Hrest; subst. exists ta. auto. }
  destruct Hrest as (rb & mb & Hb & Hrest).
  destruct (framed_silent_start_encoder _ _ _ Hb) as (Db & tb & Etb & Hqb).
  assert (Htb : tb = []).
  { destruct tb; [reflexivity | discriminate Hqb]. }
  subst tb. rewrite app_nil_r in Etb.
  destruct (rb <? 0).
  { destruct Hrest; subst. exists ta. rewrite Etb. auto. }
  destruct Hrest as (rc & mc & Hc & Hrest).
  rewrite start_decoder_encode in Hc by congruence.
  inversion Hc; subst rc mc. rewrite Z.ltb_irrefl in Hrest.
  destruct Hrest as (rd & Hdx & _).
  destruct (framed_open_start_index (Z.land (make_perm_mode (sync m)) 438)
              _ _ _ Hdx) as (_ & td & Etd & Hqd).
  fold ok in Hqd.
  exists (ta ++ td). split.
  - rewrite Etd, Etb, Eta, app_assoc. reflexivity.
  - rewrite forallb_app, Hqa, Hqd. reflexivity.
Qed.

(** X9. After [ca_sync_set_make_perm_mode] has accepted a mode, every file
    that lazy start creates is the temporary archive, opened write-only
    with [O_CREAT|O_EXCL] and with exactly that mode; lazy start of an
    encoding driver opens nothing else besides the index. *)
Theorem archive_created_with_perm_mode (m0 m m1 : Machine) (pm r0 : Z) :
  0 <= pm < 2 ^ 32 ->
  call (SetMakePermMode pm) m0 = Ret (0, m) ->
  ca_sync_start m = Ret (r0, m1) ->
  exists t',
    trace m1 = trace m ++ t' /\
    forallb (archive_open_event pm) t' = true.
Proof.
  intros Hpm Hset Hs.
  assert (Hm : direction (sync m) = CA_SYNC_ENCODE /\
               Z.land (make_perm_mode (sync m)) 438 = pm).
  { clear Hs. open_machine m0. cbn [call] in Hset.
    unfold ca_sync_set_make_perm_mode in Hset.
    mcases; try (exfalso; unfold EINVAL, ENOTTY, EBUSY in *; lia).
    destruct direction0; [|discriminate].
    split; [reflexivity|]. apply land_perm_mask; [exact Hpm|].
    zbool. assumption. }
  destruct Hm as (Hd & Hland).
  rewrite <- Hland. apply (start_encode_events m m1 r0); assumption.
Qed.

(** ** Lazy start returns

    [ca_sync_start] contains one assertion, on the type of [base_mode].
    The base mode of a driver is either unset or one that
    [ca_sync_set_base_mode] accepted. *)

Definition valid_base_mode (s : CaSync) : bool :=
  (base_mode s =? MODE_INVALID) || S_ISREG (base_mode s) ||
  S_ISDIR (base_mode s) || S_ISBLK (base_mode s).

Definition returns {A} (c : M A) (m : Machine) : Prop :=
  exists a m', c m = Ret (a, m').

Ltac returned := eexists; eexists; reflexivity.

Lemma start_archive_returns (m : Machine) : returns start_archive m.
Proof.
  unfold returns. open_machine m.
  unfold start_archive, sys_open, sys_tempfn_random. munfold. gsimp.
  repeat gcase; try discriminate; returned.
Qed.

Lemma start_encoder_returns (m : Machine) : returns start_encoder m.
Proof.
  unfold returns. open_machine m.
  unfold start_encoder, on_encoder. munfold. gsimp.
  repeat gcase; try discriminate; returned.
Qed.

Lemma start_base_returns (m : Machine) :
  valid_base_mode (sync m) = true -> returns start_base m.
Proof.
  unfold returns, valid_base_mode. open_machine m. intros Hv.
  unfold start_base, sys_open, sys_mkdir, sys_tempfn_random. munfold. gsimp.
  repeat gcase; try discriminate; returned.
Qed.

Lemma start_decoder_returns (m : Machine) :
  valid_base_mode (sync m) = true -> returns start_decoder m.
Proof.
  intros Hv.
  destruct (start_base_returns m Hv) as (rb & mb & Hb).
  unfold returns, start_decoder. unfold bind at 1. unfold get_sync at 1.
  fields.
  destruct (is_decode (direction (sync m)) &&
            negb (is_some (decoder (sync m)))); [|unfold ret; returned].
  unfold bind at 1. rewrite Hb. clear Hb Hv.
  destruct (rb <? 0); [unfold ret; returned|].
  open_machine mb. unfold on_decoder. munfold. gsimp.
  repeat gcase; try discriminate; returned.
Qed.

Lemma start_index_returns (m : Machine) : returns start_index m.
Proof.
  unfold returns. open_machine m.
  unfold start_index, index_open, on_index. munfold. gsimp.
  repeat gcase; try discriminate; returned.
Qed.

Lemma valid_base_mode_core (s s' : CaSync) :
  core s' = core s -> valid_base_mode s' = valid_base_mode s.
Proof.
  intros H. unfold core in H. inversion H. unfold valid_base_mode.
  congruence.
Qed.

Lemma start_returns_with (m : Machine) :
  (forall mb, core (sync mb) = core (sync m) -> returns start_decoder mb) ->
  returns ca_sync_start m.
Proof.
  intros Hdec. unfold returns, ca_sync_start.
  destruct (start_archive_returns m) as (ra & ma & Ha).
  unfold bind at 1. rewrite Ha.
  destruct (ra <? 0); [unfold ret; returned|].
  destruct (start_encoder_returns ma) as (rb & mb & Hb).
  unfold bind at 1. rewrite Hb.
  destruct (rb <? 0); [unfold ret; returned|].
  assert (Hcore : core (sync mb) = core (sync m)).
  { destruct (framed_start_archive _ _ _ Ha) as (Ca & _).
    destruct (framed_start_encoder _ _ _ Hb) as (Cb & _).
    rewrite Cb. exact Ca. }
  destruct (Hdec mb Hcore) as (rc & mc & Hc).
  unfold bind at 1. rewrite Hc.
  destruct (rc <? 0); [unfold ret; returned|].
  destruct (start_index_returns mc) as (rd & md & Hd).
  unfold bind at 1. rewrite Hd.
  destruct (rd <? 0); unfold ret; returned.
Qed.

Lemma start_returns (m : Machine) :
  valid_base_mode (sync m) = true -> returns ca_sync_start m.
Proof.
  intros Hv. apply start_returns_with. intros mb Hcore.
  apply start_decoder_returns.
  rewrite (valid_base_mode_core _ _ Hcore). exact Hv.
Qed.

Lemma start_returns_encode (m : Machine) :
  direction (sync m) = CA_SYNC_ENCODE -> returns ca_sync_start m.
Proof.
  intros Hd. apply start_returns_with. intros mb Hcore.
  apply core_fields in Hcore. destruct Hcore as (Ed & _).
  exists 0, mb. apply start_decoder_encode. congruence.
Qed.

Lemma framed_mode_write_chunks_loop (fuel : nat) (p : list byte) :
  framed_by base_mode any_event (write_chunks_loop fuel p).
Proof.
  apply (framed_weaken kept base_mode chunk_event any_event);
    [| reflexivity | apply framed_write_chunks_loop].
  intros s s' H. unfold kept in H. inversion H. reflexivity.
Qed.

Lemma framed_mode_write_final_chunk :
  framed_by base_mode any_event ca_sync_write_final_chunk.
Proof.
  apply (framed_weaken kept_final base_mode final_event any_event);
    [| reflexivity | apply framed_write_final_chunk].
  intros s s' H. destruct s, s'. unfold kept_final, kept in H. fields.
  inversion H. reflexivity.
Qed.

Lemma framed_mode_start : framed_by base_mode any_event ca_sync_start.
Proof.
  apply (framed_weaken core base_mode quiet any_event);
    [| reflexivity | apply framed_start].
  intros s s' H. unfold core in H. inversion H. reflexivity.
Qed.

Lemma framed_mode_step : framed_by base_mode any_event ca_sync_step.
Proof.
  unfold ca_sync_step, ca_sync_step_encode, ca_sync_step_decode,
    rename_temporary, sys_rename, encoder_get_data, ca_sync_write_archive,
    ca_sync_write_archive_digest, ca_sync_allocate_archive_digest,
    ca_sync_write_chunks, ca_sync_process_decoder_request,
    index_read_object, decoder_put_eof, decoder_put_data,
    decoder_put_data_fd.
  repeat first [ apply framed_mode_start
               | apply framed_mode_write_chunks_loop
               | apply framed_mode_write_final_chunk
               | framed_step ].
Qed.

Lemma call_valid_base_mode (c : Call) (m m' : Machine) (r : Z) :
  valid_base_mode (sync m) = true ->
  call c m = Ret (r, m') ->
  valid_base_mode (sync m') = true.
Proof.
  intros Hv H.
  destruct c;
    try (destruct (framed_mode_step _ _ _ H) as (E & _);
         unfold valid_base_mode in *; rewrite E; exact Hv);
    unfold valid_base_mode in *; open_machine m;
    unfold_setters H; mcases; auto.
  cbn [negb andb orb] in *.
  repeat match goal with
         | H : context [S_ISREG ?x] |- _ => destruct (S_ISREG x)
         | H : context [S_ISDIR ?x] |- _ => destruct (S_ISDIR x)
         | H : context [S_ISBLK ?x] |- _ => destruct (S_ISBLK x)
         end;
    cbn [negb andb orb] in *; try discriminate;
    rewrite ?orb_true_r; reflexivity.
Qed.

Lemma run_valid_base_mode (cs : list Call) :
  forall m rs m',
    valid_base_mode (sync m) = true ->
    run cs m = Ret (rs, m') ->
    valid_base_mode (sync m') = true.
Proof.
  induction cs as [|c cs IH]; intros m rs m' Hv H; cbn [run] in H.
  - inversion H; subst. exact Hv.
  - destruct (call c m) as [[r m1]|f] eqn:Hc; [|discriminate].
    destruct (run cs m1) as [[rs1 m2]|f] eqn:Hr; [|discriminate].
    inversion H; subst.
    eapply IH; [|exact Hr]. eapply call_valid_base_mode; eassumption.
Qed.

(** X10. The assertions of lazy start cannot fail on a driver that was
    made by [ca_sync_new_encode] or [ca_sync_new_decode] and has since
    been used through its interface only: whatever calls were made, and
    whatever they returned, [ca_sync_start] returns. *)
Theorem start_never_asserts (d : CaDirection) (o : OS) (cs : list Call)
  (rs : list Z) (m : Machine) :
  run cs (start_machine (with_direction d ca_sync_new) o) = Ret (rs, m) ->
  exists r m', ca_sync_start m = Ret (r, m').
Proof.
  intros H. apply start_returns.
  eapply run_valid_base_mode; [|exact H]. reflexivity.
Qed.

(** ** An encode step returns *)

Lemma write_archive_returns (p : list byte) (m : Machine) :
  returns (ca_sync_write_archive p) m.
Proof.
  unfold returns. open_machine m. unfold ca_sync_write_archive.
  munfold. gsimp. repeat gcase; returned.
Qed.

Lemma write_archive_digest_returns (p : list byte) (m : Machine) :
  returns (ca_sync_write_archive_digest (Live p) (len p)) m.
Proof.
  unfold returns. open_machine m.
  unfold ca_sync_write_archive_digest, ca_sync_allocate_archive_digest,
    read_block.
  munfold. gsimp. rewrite Z.leb_refl. repeat gcase; returned.
Qed.

Lemma write_final_chunk_returns (m : Machine) :
  returns ca_sync_write_final_chunk m.
Proof.
  unfold returns. open_machine m.
  unfold ca_sync_write_final_chunk, ca_sync_write_one_chunk,
    ca_sync_make_object_id, store_put, index_write_object,
    ca_sync_allocate_archive_digest, index_set_digest, index_write_eof,
    index_close, on_wstore, on_index.
  munfold. gsimp. repeat gcase; try discriminate; returned.
Qed.

Lemma rename_temporary_returns (tmp dst : option string)
  (clear : CaSync -> CaSync) (m : Machine) :
  returns (rename_temporary tmp dst clear) m.
Proof.
  unfold returns, rename_temporary, sys_rename.
  destruct tmp, dst; munfold; repeat gcase; returned.
Qed.

Ltac settle :=
  repeat first
    [ match goal with
      | |- context [rename_temporary ?t ?d ?c ?M] =>
          let H := fresh in
          destruct (rename_temporary_returns t d c M) as (? & ? & H);
          rewrite H; clear H
      | |- context [ca_sync_write_final_chunk ?M] =>
          let H := fresh in
          destruct (write_final_chunk_returns M) as (? & ? & H);
          rewrite H; clear H
      | |- context [ca_sync_write_archive ?p ?M] =>
          let H := fresh in
          destruct (write_archive_returns p M) as (? & ? & H);
          rewrite H; clear H
      | |- context [ca_sync_write_archive_digest (Live ?p) (len ?p) ?M] =>
          let H := fresh in
          destruct (write_archive_digest_returns p M) as (? & ? & H);
          rewrite H; clear H
      | Hc : chunker_contract |- context [ca_sync_write_chunks ?p ?M] =>
          let H := fresh in
          destruct (write_chunks_returns Hc p M) as (? & ? & H);
          rewrite H; clear H
      | |- context [match ?x with _ => _ end] =>
          lazymatch x with
          | context [match _ with _ => _ end] => fail
          | _ => destruct x eqn:?
          end
      end
    | progress fields ].

Lemma step_encode_returns (Hc : chunker_contract) (m : Machine)
  (e : CaEncoder) :
  encoder (sync m) = Some e ->
  snd (ca_encoder_step e) < 0 \/
  In (snd (ca_encoder_step e))
    [CA_ENCODER_FINISHED; CA_ENCODER_NEXT_FILE; CA_ENCODER_DATA] ->
  returns ca_sync_step_encode m.
Proof.
  intros He Hok. unfold returns.
  destruct (ca_encoder_step e) as [e' step] eqn:Es. cbn [snd] in Hok.
  open_machine m.
  unfold ca_sync_step_encode, on_encoder, encoder_get_data, on_encoder.
  munfold. fields.
  destruct eof0; [returned|]. cbn [is_some]. fields. rewrite Es. fields.
  destruct (step <? 0) eqn:Eneg; [returned|].
  destruct (step =? CA_ENCODER_FINISHED) eqn:Efin.
  { settle; returned. }
  assert (Hdata : (step =? CA_ENCODER_NEXT_FILE) || (step =? CA_ENCODER_DATA)
                  = true).
  { zbool. cbn [In] in Hok.
    destruct Hok as [H | [H | [H | [H | []]]]]; try lia; try congruence;
      subst; rewrite Z.eqb_refl; rewrite ?orb_true_r; reflexivity. }
  rewrite Hdata. fields.
  settle; returned.
Qed.

Lemma start_keeps_encoder (m m1 : Machine) (r0 : Z) (e : CaEncoder) :
  direction (sync m) = CA_SYNC_ENCODE ->
  encoder (sync m) = Some e ->
  ca_sync_start m = Ret (r0, m1) ->
  encoder (sync m1) = Some e.
Proof.
  intros Hd He Hs.
  destruct (start_cases _ _ _ Hs) as (ra & ma & Ha & Hrest).
  destruct (framed_owner_start_archive _ _ _ Ha) as (Oa & _).
  unfold owner_view in Oa. inversion Oa as [[Da Ea Fa]].
  rewrite Hd in Da. rewrite He in Ea.
  destruct (ra <? 0); [destruct Hrest; subst; exact Ea|].
  destruct Hrest as (rb & mb & Hb & Hrest).
  assert (Hmb : rb = 0 /\ mb = ma).
  { clear Hrest. open_machine ma. unfold start_encoder in Hb.
    munfold. fields. cbn [is_encode negb andb is_some] in Hb.
    inversion Hb. auto. }
  destruct Hmb; subst rb mb. rewrite Z.ltb_irrefl in Hrest.
  destruct Hrest as (rc & mc & Hc & Hrest).
  rewrite start_decoder_encode in Hc by exact Da.
  inversion Hc; subst rc mc. rewrite Z.ltb_irrefl in Hrest.
  destruct Hrest as (rd & Hdx & _).
  destruct (framed_owner_start_index _ _ _ Hdx) as (Od & _).
  unfold owner_view in Od. inversion Od. congruence.
Qed.

(** X11. An encode step on a driver whose encoder is in place always
    returns, with an error code or one of the three step results: given a
    chunker that reports no boundary or a cut of at least one byte inside
    its input, and an encoder whose step result is one the driver knows,
    no assertion fails, the chunking loop terminates and never reads past
    the data. *)
Theorem encode_step_returns (Hc : chunker_contract) (m : Machine)
  (e : CaEncoder) :
  direction (sync m) = CA_SYNC_ENCODE ->
  encoder (sync m) = Some e ->
  snd (ca_encoder_step e) < 0 \/
  In (snd (ca_encoder_step e))
    [CA_ENCODER_FINISHED; CA_ENCODER_NEXT_FILE; CA_ENCODER_DATA] ->
  exists r m',
    ca_sync_step m = Ret (r, m') /\
    (r < 0 \/ In r [CA_SYNC_FINISHED; CA_SYNC_STEP; CA_SYNC_NEXT_FILE]).
Proof.
  intros Hd He Hok.
  destruct (start_returns_encode m Hd) as (r0 & m1 & Hs).
  pose proof (start_keeps_encoder _ _ _ _ Hd He Hs) as He1.
  destruct (framed_start _ _ _ Hs) as (Hcore & _).
  apply core_fields in Hcore. destruct Hcore as (Ed & _).
  destruct (step_encode_returns Hc m1 e He1 Hok) as (r & m' & Hstep).
  assert (Hrun : ca_sync_step m =
                 if r0 <? 0 then Ret (r0, m1) else Ret (r, m')).
  { unfold ca_sync_step. unfold bind at 1. rewrite Hs.
    destruct (r0 <? 0); [reflexivity|].
    unfold bind, get_sync. fields. rewrite Ed, Hd. exact Hstep. }
  destruct (r0 <? 0) eqn:E0.
  - exists r0, m1. split; [exact Hrun|]. left. zbool. lia.
  - exists r, m'. split; [exact Hrun|].
    destruct (Z.ltb_spec r 0) as [Hneg | Hpos]; [left; exact Hneg|].
    right. cbn [In].
    destruct (step_encode_results _ _ _ Hstep Hpos) as [H | [H | H]];
      auto.
Qed.

(** ** A setter that fails

    The two descriptor slots hold a descriptor or -1. *)

Definition fds_ok (s : CaSync) : Prop :=
  -1 <= base_fd s /\ -1 <= archive_fd s.

Definition fds_view (s : CaSync) := (base_fd s, archive_fd s).

Lemma fd_of_ge (r : Z) : -1 <= fd_of r.
Proof. unfold fd_of. destruct (Z.ltb_spec r 0); lia. Qed.

Ltac fds_solve :=
  unfold fds_ok in *; fields;
  repeat match goal with
         | |- context [fd_of ?r] => pose proof (fd_of_ge r); generalize dependent (fd_of r); intros
         end;
  lia.

Lemma start_archive_fds (m m' : Machine) (r : Z) :
  start_archive m = Ret (r, m') -> fds_ok (sync m) -> fds_ok (sync m').
Proof.
  intros H Hf. open_machine m.
  unfold start_archive, sys_open, sys_tempfn_random in H.
  mcases; fds_solve.
Qed.

Lemma start_encoder_fds (m m' : Machine) (r : Z) :
  start_encoder m = Ret (r, m') -> fds_ok (sync m) -> fds_ok (sync m').
Proof.
  intros H Hf. open_machine m. unfold start_encoder, on_encoder in H.
  mcases; fds_solve.
Qed.

Lemma start_base_fds (m m' : Machine) (r : Z) :
  start_base m = Ret (r, m') -> fds_ok (sync m) -> fds_ok (sync m').
Proof.
  intros H Hf. open_machine m.
  unfold start_base, sys_open, sys_mkdir, sys_tempfn_random in H.
  mcases; fds_solve.
Qed.

Lemma start_decoder_fds (m m' : Machine) (r : Z) :
  start_decoder m = Ret (r, m') -> fds_ok (sync m) -> fds_ok (sync m').
Proof.
  intros H Hf. unfold start_decoder in H. unfold bind at 1 in H.
  unfold get_sync at 1 in H. fields.
  destruct (is_decode (direction (sync m)) &&
            negb (is_some (decoder (sync m))));
    [|unfold ret in H; inversion H; subst; exact Hf].
  unfold bind at 1 in H.
  destruct (start_base m) as [[rb mb]|f] eqn:Hb; [|discriminate].
  pose proof (start_base_fds _ _ _ Hb Hf) as Hfb. clear Hb Hf.
  destruct (rb <? 0); [unfold ret in H; inversion H; subst; exact Hfb|].
  open_machine mb. unfold on_decoder in H.
  mcases; fds_solve.
Qed.

Lemma start_index_fds (m m' : Machine) (r : Z) :
  start_index m = Ret (r, m') -> fds_ok (sync m) -> fds_ok (sync m').
Proof.
  intros H Hf. open_machine m. unfold start_index, index_open, on_index in H.
  mcases; fds_solve.
Qed.

Lemma start_fds (m m' : Machine) (r : Z) :
  ca_sync_start m = Ret (r, m') -> fds_ok (sync m) -> fds_ok (sync m').
Proof.
  intros Hs Hf.
  destruct (start_cases _ _ _ Hs) as (ra & ma & Ha & Hrest).
  pose proof (start_archive_fds _ _ _ Ha Hf) as Hfa.
  destruct (ra <? 0); [destruct Hrest; subst; exact Hfa|].
  destruct Hrest as (rb & mb & Hb & Hrest).
  pose proof (start_encoder_fds _ _ _ Hb Hfa) as Hfb.
  destruct (rb <? 0); [destruct Hrest; subst; exact Hfb|].
  destruct Hrest as (rc & mc & Hc & Hrest).
  pose proof (start_decoder_fds _ _ _ Hc Hfb) as Hfc.
  destruct (rc <? 0); [destruct Hrest; subst; exact Hfc|].
  destruct Hrest as (rd & Hd & _).
  exact (start_index_fds _ _ _ Hd Hfc).
Qed.

Lemma framed_fds_write_chunks_loop (fuel : nat) (p : list byte) :
  framed_by fds_view any_event (write_chunks_loop fuel p).
Proof.
  apply (framed_weaken kept fds_view chunk_event any_event);
    [| reflexivity | apply framed_write_chunks_loop].
  intros s s' H. unfold kept in H. inversion H. unfold fds_view.
  congruence.
Qed.

Lemma framed_fds_write_final_chunk :
  framed_by fds_view any_event ca_sync_write_final_chunk.
Proof.
  apply (framed_weaken kept_final fds_view final_event any_event);
    [| reflexivity | apply framed_write_final_chunk].
  intros s s' H. destruct s, s'. unfold kept_final, kept in H. fields.
  inversion H. unfold fds_view. fields. congruence.
Qed.

Lemma framed_fds_step_encode :
  framed_by fds_view any_event ca_sync_step_encode.
Proof.
  unfold ca_sync_step_encode, rename_temporary, sys_rename,
    encoder_get_data, ca_sync_write_archive, ca_sync_write_archive_digest,
    ca_sync_allocate_archive_digest, ca_sync_write_chunks.
  repeat first [ apply framed_fds_write_chunks_loop
               | apply framed_fds_write_final_chunk
               | framed_step ].
Qed.

Lemma framed_fds_step_decode :
  framed_by fds_view any_event ca_sync_step_decode.
Proof.
  unfold ca_sync_step_decode, rename_temporary, sys_rename,
    ca_sync_process_decoder_request, index_read_object, decoder_put_eof,
    decoder_put_data, decoder_put_data_fd, ca_sync_write_archive_digest,
    ca_sync_allocate_archive_digest.
  framed_auto.
Qed.

Lemma fds_view_ok (s s' : CaSync) :
  fds_view s' = fds_view s -> fds_ok s -> fds_ok s'.
Proof.
  unfold fds_view, fds_ok. intros H. inversion H as [[E1 E2]].
  rewrite E1, E2. auto.
Qed.

Lemma step_fds (m m' : Machine) (r : Z) :
  ca_sync_step m = Ret (r, m') -> fds_ok (sync m) -> fds_ok (sync m').
Proof.
  intros H Hf. unfold ca_sync_step in H. unfold bind at 1 in H.
  destruct (ca_sync_start m) as [[r0 m1]|f] eqn:Hs; [|discriminate].
  pose proof (start_fds _ _ _ Hs Hf) as Hf1.
  destruct (r0 <? 0); [unfold ret in H; inversion H; subst; exact Hf1|].
  unfold bind, get_sync in H. fields.
  destruct (direction (sync m1)).
  - destruct (framed_fds_step_encode _ _ _ H) as (E & _).
    exact (fds_view_ok _ _ E Hf1).
  - destruct (framed_fds_step_decode _ _ _ H) as (E & _).
    exact (fds_view_ok _ _ E Hf1).
Qed.

Lemma call_fds (c : Call) (m m' : Machine) (r : Z) :
  call c m = Ret (r, m') -> fds_ok (sync m) -> fds_ok (sync m').
Proof.
  intros H Hf.
  destruct c; try (exact (step_fds _ _ _ H Hf));
    open_machine m; unfold_setters H; mcases; zbool; fds_solve.
Qed.

Lemma run_fds (cs : list Call) :
  forall m rs m',
    run cs m = Ret (rs, m') -> fds_ok (sync m) -> fds_ok (sync m').
Proof.
  induction cs as [|c cs IH]; intros m rs m' H Hf; cbn [run] in H.
  - inversion H; subst. exact Hf.
  - destruct (call c m) as [[r m1]|f] eqn:Hc; [|discriminate].
    destruct (run cs m1) as [[rs1 m2]|f] eqn:Hr; [|discriminate].
    inversion H; subst.
    eapply IH; [exact Hr|]. eapply call_fds; eassumption.
Qed.

Lemma failed_setter_keeps (c : Call) (m m' : Machine) (r : Z) :
  fds_ok (sync m) ->
  is_setter c = true ->
  call c m = Ret (r, m') ->
  r < 0 ->
  sync m' = sync m.
Proof.
  intros Hf Hc H Hr.
  destruct c; try discriminate Hc; clear Hc;
    open_machine m; unfold fds_ok in Hf; fields; destruct Hf as (Hb & Ha);
    unfold_setters H; mcases; try lia; try reflexivity;
    zbool; unfold fd_of;
    repeat match goal with
           | |- context [?x <? 0] =>
               destruct (Z.ltb_spec x 0); try lia
           | H : is_some ?x = false |- _ =>
               destruct x; [discriminate H|]; clear H
           end;
    unfold with_base_fd, with_archive_fd; fields; try reflexivity;
    f_equal; lia.
Qed.

(** X12. Configuration is all or nothing: on a driver made by one of the
    constructors and used through its interface, a configuration call that
    returns an error leaves the driver object exactly as it was. *)
Theorem failed_setter_changes_nothing (d : CaDirection) (o : OS)
  (cs : list Call) (rs : list Z) (m m' : Machine) (c : Call) (r : Z) :
  run cs (start_machine (with_direction d ca_sync_new) o) = Ret (rs, m) ->
  is_setter c = true ->
  call c m = Ret (r, m') ->
  r < 0 ->
  sync m' = sync m.
Proof.
  intros Hrun Hc H Hr.
  apply (failed_setter_keeps c m m' r); try assumption.
  eapply run_fds; [exact Hrun|]. unfold fds_ok. cbn. lia.
Qed.

(** ** Seed stores *)

Lemma get_rstores_app (l l' : list CaStore) (id : ObjectID) :
  get_rstores (l ++ l') id =
  if fst (get_rstores l id) =? - ENOENT then get_rstores l' id
  else get_rstores l id.
Proof.
  induction l as [|st l IH]; cbn [app get_rstores].
  - cbn [fst]. rewrite Z.eqb_refl. reflexivity.
  - destruct (ca_store_get (Some st) id) as [r obj].
    destruct (r =? - ENOENT) eqn:E; cbn [negb].
    + exact IH.
    + cbn [fst]. rewrite E. reflexivity.
Qed.

(** X13. A seed store answers only what was missing: after
    [ca_sync_add_seed_store_local] has succeeded, [ca_sync_get] returns
    what it returned before for every object that the writable store or
    an earlier seed had an answer for (an object or an error), and asks
    the new store for the others. *)
Theorem seed_answers_only_misses (m m' : Machine) (path : string)
  (id : ObjectID) :
  call (AddSeedStoreLocal (Some path)) m = Ret (0, m') ->
  ca_sync_get (sync m') (Some id) =
  if fst (ca_sync_get (sync m) (Some id)) =? - ENOENT
  then get_rstores [fst (ca_store_set_local ca_store_new path)] id
  else ca_sync_get (sync m) (Some id).
Proof.
  intros H. cbn [call] in H. unfold ca_sync_add_seed_store_local in H.
  destruct (ca_store_set_local ca_store_new path) as [store r] eqn:Es.
  cbn [fst]. open_machine m.
  destruct (r <? 0) eqn:Er.
  - unfold ret in H. inversion H; subst. discriminate Er.
  - munfold. fields. inversion H; subst. clear H.
    unfold ca_sync_get. fields.
    destruct (ca_store_get wstore0 id) as [rw objw].
    destruct (rw =? - ENOENT) eqn:Ew; cbn [negb].
    + apply get_rstores_app.
    + cbn [fst]. rewrite Ew. reflexivity.
Qed.

(** ** The store is content-addressed *)

Definition id_eqb (a b : ObjectID) : bool :=
  if list_eq_dec Byte.byte_eq_dec a b then true else false.

Lemma id_eqb_refl (a : ObjectID) : id_eqb a a = true.
Proof. unfold id_eqb. destruct (list_eq_dec _ a a); congruence. Qed.

Lemma id_eqb_eq (a b : ObjectID) : id_eqb a b = true -> a = b.
Proof.
  unfold id_eqb. destruct (list_eq_dec _ a b); [auto | discriminate].
Qed.

(** A put files its object under the digest of the object. *)
Definition content_addressed (e : Event) : bool :=
  match e with
  | EvStorePut id p _ => id_eqb id (sha256 p)
  | _ => true
  end.

Definition no_view (s : CaSync) : unit := tt.

Lemma addressed_write_one_chunk (p : list byte) :
  framed_by no_view content_addressed (ca_sync_write_one_chunk p).
Proof.
  intros m a m' H. split; [reflexivity|]. open_machine m.
  unfold ca_sync_write_one_chunk, ca_sync_make_object_id, store_put,
    index_write_object, on_wstore, on_index in H.
  mcases; cbn [digest_bytes app] in *;
    try match goal with H : (0 <? 0) = true |- _ => discriminate H end;
    (eexists; split; [rewrite <- ?app_assoc; reflexivity|]);
    cbn [forallb content_addressed app]; rewrite ?id_eqb_refl; reflexivity.
Qed.

Lemma addressed_write_chunks_loop (fuel : nat) :
  forall p,
    framed_by no_view content_addressed (write_chunks_loop fuel p).
Proof.
  induction fuel as [|fuel IH]; intros p; cbn [write_chunks_loop].
  - framed_auto.
  - unfold chunker_scan.
    repeat first
      [ match goal with
        | |- framed_by _ _ (write_chunks_loop _ _) => apply IH
        | |- framed_by _ _ (ca_sync_write_one_chunk _) =>
            apply addressed_write_one_chunk
        end
      | framed_step ].
Qed.

Lemma addressed_call (c : Call) :
  framed_by no_view content_addressed (call c).
Proof.
  destruct c; cbn [call];
    unfold ca_sync_set_index_fd, ca_sync_set_index_path,
      ca_sync_allocate_index, ca_sync_set_base_fd, ca_sync_set_base_path,
      ca_sync_set_make_perm_mode, ca_sync_set_base_mode,
      ca_sync_set_archive_fd, ca_sync_set_archive_path,
      ca_sync_set_store_local, ca_sync_add_seed_store_local,
      ca_sync_get_digest, ca_sync_step, ca_sync_start, start_archive,
      start_encoder, start_decoder, start_base, start_index, index_open,
      ca_sync_step_encode, ca_sync_step_decode, rename_temporary,
      sys_open, sys_rename, sys_mkdir, sys_tempfn_random,
      encoder_get_data, ca_sync_write_archive,
      ca_sync_write_archive_digest, ca_sync_allocate_archive_digest,
      ca_sync_write_chunks, ca_sync_write_final_chunk, index_set_digest,
      index_write_eof, index_close, ca_sync_process_decoder_request,
      index_read_object, decoder_put_eof, decoder_put_data,
      decoder_put_data_fd;
    repeat first [ apply addressed_write_chunks_loop
                 | apply addressed_write_one_chunk
                 | framed_step ].
Qed.

Lemma addressed_run (cs : list Call) :
  forall m rs m',
    run cs m = Ret (rs, m') ->
    exists t',
      trace m' = trace m ++ t' /\ forallb content_addressed t' = true.
Proof.
  induction cs as [|c cs IH]; intros m rs m' H; cbn [run] in H.
  - inversion H; subst. exists []. rewrite app_nil_r. auto.
  - destruct (call c m) as [[r m1]|f] eqn:Hc; [|discriminate].
    destruct (run cs m1) as [[rs1 m2]|f] eqn:Hr; [|discriminate].
    inversion H; subst.
    destruct (addressed_call c _ _ _ Hc) as (_ & t1 & E1 & Q1).
    destruct (IH _ _ _ Hr) as (t2 & E2 & Q2).
    exists (t1 ++ t2). split.
    + rewrite E2, E1, app_assoc. reflexivity.
    + rewrite forallb_app, Q1, Q2. reflexivity.
Qed.

(** X14. The store is content-addressed: whatever calls are made on a
    driver, every object the driver puts into the writable store is filed
    under the SHA-256 digest of that object. *)
Theorem store_is_content_addressed (cs : list Call) (m m' : Machine)
  (rs : list Z) :
  run cs m = Ret (rs, m') ->
  exists t',
    trace m' = trace m ++ t' /\
    forall id p rc, In (EvStorePut id p rc) t' -> id = sha256 p.
Proof.
  intros H. destruct (addressed_run cs _ _ _ H) as (t' & E & Q).
  exists t'. split; [exact E|]. intros id p rc Hin.
  rewrite forallb_forall in Q. apply Q in Hin. cbn in Hin.
  apply id_eqb_eq. exact Hin.
Qed.

(** ** Temporary files

    [ca_sync_unref] as the list of the calls it makes on what the driver
    holds, in order; releasing memory is left out. *)

Inductive Release :=
| RelEncoder (e : option CaEncoder)
| RelDecoder (d : option CaDecoder)
| RelStore (st : option CaStore)
| RelSafeClose (fd : Z)
| RelUnlink (path : string)
| RelIndex (i : option CaIndex).

Definition unlink_temporary (p : option string) : list Release :=
  match p with Some t => [RelUnlink t] | None => [] end.

Definition ca_sync_unref (s : option CaSync) : list Release :=
  match s with
  | None => []
  | Some s =>
      [RelEncoder (encoder s); RelDecoder (decoder s); RelStore (wstore s)]
      ++ map (fun st => RelStore (Some st)) (rstores s)
      ++ [RelSafeClose (base_fd s); RelSafeClose (archive_fd s)]
      ++ unlink_temporary (temporary_base_path s)
      ++ unlink_temporary (temporary_archive_path s)
      ++ [RelIndex (index s)]
  end.

Fixpoint unlinked (l : list Release) : list string :=
  match l with
  | [] => []
  | RelUnlink p :: l' => p :: unlinked l'
  | _ :: l' => unlinked l'
  end.

(** The files the driver has created: the paths of the successful
    [open]s with [O_CREAT|O_EXCL]. *)
Fixpoint created (t : list Event) : list string :=
  match t with
  | [] => []
  | EvOpen path fl _ r :: t' =>
      (if (fl =? CREATE_FLAGS) && negb (r <? 0) then [path] else [])
      ++ created t'
  | _ :: t' => created t'
  end.

Lemma created_app (t : list Event) :
  forall t2, created (t ++ t2) = created t ++ created t2.
Proof. proj_app t. Qed.

(** The temporary files the driver still knows of. *)
Definition pending (s : CaSync) : list string :=
  unlinked (unlink_temporary (temporary_base_path s)) ++
  unlinked (unlink_temporary (temporary_archive_path s)).

Lemma unlinked_app (l : list Release) :
  forall l2, unlinked (l ++ l2) = unlinked l ++ unlinked l2.
Proof.
  induction l as [|r l IH]; intros l2; cbn [app]; [reflexivity|].
  destruct r; cbn [unlinked app]; rewrite ?IH; reflexivity.
Qed.

Lemma unlinked_stores (l : list CaStore) :
  unlinked (map (fun st => RelStore (Some st)) l) = [].
Proof. induction l as [|st l IH]; cbn; [reflexivity | exact IH]. Qed.

Lemma unlinked_unref (s : CaSync) :
  unlinked (ca_sync_unref (Some s)) = pending s.
Proof.
  unfold ca_sync_unref, pending. cbn [app unlinked].
  rewrite !unlinked_app, unlinked_stores. cbn [app unlinked].
  rewrite !unlinked_app. cbn [unlinked]. rewrite app_nil_r. reflexivity.
Qed.

(** Events that neither create a file nor rename one. *)
Definition plain (e : Event) : bool :=
  match e with
  | EvOpen _ fl _ r => negb ((fl =? CREATE_FLAGS) && negb (r <? 0))
  | EvRename _ _ r => r <? 0
  | _ => true
  end.

Lemma plain_events (t : list Event) :
  forallb plain t = true -> created t = [] /\ renamed t = [].
Proof.
  induction t as [|e t IH]; intros Hq; [split; reflexivity|].
  cbn [forallb] in Hq. apply andb_true_iff in Hq. destruct Hq as (He & Hq).
  destruct (IH Hq) as (I1 & I2).
  destruct e; cbn [created renamed plain] in *; auto.
  - apply negb_true_iff in He. rewrite He. auto.
  - rewrite He. auto.
Qed.

(** What is known of the temporaries of a driver between calls. *)
Definition tidy (m : Machine) : Prop :=
  created (trace m) = map fst (renamed (trace m)) ++ pending (sync m) /\
  match direction (sync m) with
  | CA_SYNC_ENCODE =>
      temporary_base_path (sync m) = None /\
      (is_some (temporary_archive_path (sync m)) = true ->
       (archive_fd (sync m) <? 0) = false)
  | CA_SYNC_DECODE =>
      temporary_archive_path (sync m) = None /\
      (is_some (temporary_base_path (sync m)) = true ->
       is_some (decoder (sync m)) = true)
  end.

Definition temps_view (s : CaSync) :=
  (direction s, temporary_base_path s, temporary_archive_path s,
   archive_fd s, is_some (decoder s)).

Lemma tidy_framed {A} (c : M A) (m m' : Machine) (a : A) :
  framed_by temps_view plain c ->
  c m = Ret (a, m') -> tidy m -> tidy m'.
Proof.
  intros Hc H (Ht & Hd).
  destruct (Hc _ _ _ H) as (Hv & t' & Et & Hq).
  apply plain_events in Hq. destruct Hq as (Q1 & Q2).
  unfold temps_view in Hv. inversion Hv as [[E1 E2 E3 E4 E5]].
  unfold tidy, pending.
  rewrite Et, created_app, renamed_app, Q1, Q2, !app_nil_r, E1, E2, E3, E4,
    E5.
  split; assumption.
Qed.

Lemma setter_tidy (c : Call) (m m' : Machine) (r : Z) :
  is_setter c = true ->
  call c m = Ret (r, m') -> tidy m -> tidy m'.
Proof.
  intros Hc H (Ht & Hd).
  destruct c; try discriminate Hc; clear Hc;
    open_machine m; unfold tidy, pending in *; fields;
    unfold_setters H; mcases;
    rewrite ?created_app, ?renamed_app; cbn [created renamed];
    rewrite ?app_nil_r;
    try (split; [exact Ht|]);
    try match goal with
      | |- context [match ?d with CA_SYNC_ENCODE => _ | _ => _ end] =>
          destruct d
      end;
    try exact Hd.
  all: destruct Hd as (H1 & H2); split; [exact H1|]; intros E;
    try (apply H2 in E); zbool; try lia; try assumption.
Qed.

Ltac tidy_open m Ht :=
  destruct Ht as (Ht & Hd); open_machine m; unfold pending in *; fields;
  repeat match goal with
         | d : CaDirection |- _ => destruct d
         | H : context [unlink_temporary ?p] |- _ => is_var p; destruct p
         end;
  cbn [unlinked unlink_temporary is_some app] in *;
  destruct Hd as (Hd1 & Hd2); try discriminate Hd1;
  try specialize (Hd2 eq_refl).

Ltac tidy_leaf :=
  unfold tidy, pending; fields;
  cbn [is_encode is_decode negb andb orb is_some] in *;
  rewrite ?created_app, ?renamed_app, ?map_app;
  cbn [created renamed map fst app unlinked unlink_temporary];
  unfold CREATE_FLAGS, fd_of in *; rewrite ?Z.eqb_refl; cbn [andb negb];
  repeat match goal with
         | H : (?r <? 0) = _ |- context [?r <? 0] => rewrite H
         end;
  cbn [andb negb app];
  rewrite ?app_nil_r in *;
  try congruence;
  try match goal with
      | H1 : negb ?b = true, H2 : ?b = true |- _ =>
          rewrite H2 in H1; discriminate H1
      end;
  try (split;
       [ try match goal with H : created _ = _ |- _ => rewrite H end;
         rewrite <- ?app_assoc; reflexivity|]);
  try (split; [reflexivity|]);
  try (intros; solve [assumption | discriminate | congruence]).

Lemma start_archive_tidy (m m' : Machine) (r : Z) :
  start_archive m = Ret (r, m') -> tidy m -> tidy m'.
Proof.
  intros H Ht. unfold tidy in Ht.
  tidy_open m Ht; unfold start_archive, sys_open, sys_tempfn_random in H;
    mcases; tidy_leaf.
Qed.

Lemma start_encoder_tidy (m m' : Machine) (r : Z) :
  start_encoder m = Ret (r, m') -> tidy m -> tidy m'.
Proof.
  intros H Ht. unfold tidy in Ht.
  tidy_open m Ht; unfold start_encoder, on_encoder in H; mcases; tidy_leaf.
Qed.

Lemma start_index_tidy (m m' : Machine) (r : Z) :
  start_index m = Ret (r, m') -> tidy m -> tidy m'.
Proof.
  intros H Ht. unfold tidy in Ht.
  tidy_open m Ht; unfold start_index, index_open, on_index in H; mcases;
    tidy_leaf.
Qed.

Lemma start_decoder_tidy (m m' : Machine) (r : Z) :
  start_decoder m = Ret (r, m') -> tidy m -> tidy m'.
Proof.
  intros H Ht. unfold tidy in Ht.
  tidy_open m Ht;
    unfold start_decoder, start_base, sys_open, sys_mkdir,
      sys_tempfn_random, on_decoder in H;
    mcases; tidy_leaf.
Qed.

Lemma start_tidy (m m' : Machine) (r : Z) :
  ca_sync_start m = Ret (r, m') -> tidy m -> tidy m'.
Proof.
  intros Hs Ht.
  destruct (start_cases _ _ _ Hs) as (ra & ma & Ha & Hrest).
  pose proof (start_archive_tidy _ _ _ Ha Ht) as Hta.
  destruct (ra <? 0); [destruct Hrest; subst; exact Hta|].
  destruct Hrest as (rb & mb & Hb & Hrest).
  pose proof (start_encoder_tidy _ _ _ Hb Hta) as Htb.
  destruct (rb <? 0); [destruct Hrest; subst; exact Htb|].
  destruct Hrest as (rc & mc & Hc & Hrest).
  pose proof (start_decoder_tidy _ _ _ Hc Htb) as Htc.
  destruct (rc <? 0); [destruct Hrest; subst; exact Htc|].
  destruct Hrest as (rd & Hd & _).
  exact (start_index_tidy _ _ _ Hd Htc).
Qed.

Lemma chunk_event_plain (e : Event) : chunk_event e = true -> plain e = true.
Proof. destruct e; cbn; congruence. Qed.

Lemma final_event_plain (e : Event) : final_event e = true -> plain e = true.
Proof. destruct e; cbn; congruence. Qed.

Lemma framed_temps_write_chunks (p : list byte) :
  framed_by temps_view plain (ca_sync_write_chunks p).
Proof.
  unfold ca_sync_write_chunks.
  apply framed_bind; [apply framed_get_sync|]. intros s.
  destruct (negb (is_some (wstore s))); [apply framed_ret|].
  apply (framed_weaken kept temps_view chunk_event plain);
    [| apply chunk_event_plain | apply framed_write_chunks_loop].
  intros s1 s2 H. unfold kept in H. inversion H. unfold temps_view.
  destruct (decoder s1), (decoder s2); congruence.
Qed.

Lemma framed_temps_write_final_chunk :
  framed_by temps_view plain ca_sync_write_final_chunk.
Proof.
  apply (framed_weaken kept_final temps_view final_event plain);
    [| apply final_event_plain | apply framed_write_final_chunk].
  intros s1 s2 H. destruct s1, s2. unfold kept_final, kept in H. fields.
  inversion H. unfold temps_view. fields. congruence.
Qed.

Lemma framed_temps_request :
  framed_by temps_view plain ca_sync_process_decoder_request.
Proof.
  unfold ca_sync_process_decoder_request, index_read_object, decoder_put_eof,
    decoder_put_data, decoder_put_data_fd, ca_sync_write_archive_digest,
    ca_sync_allocate_archive_digest.
  framed_auto.
Qed.

Lemma tidy_with_eof (m : Machine) (b : bool) :
  tidy m -> tidy (mkMachine (with_eof b (sync m)) (os m) (trace m)).
Proof. destruct m as [[] ? ?]. unfold tidy, pending. fields. auto. Qed.

Ltac tidy_after :=
  repeat match goal with
         | Hf : ca_sync_write_final_chunk _ = Ret (_, ?m1) |- tidy ?m1 =>
             apply (tidy_framed _ _ _ _ framed_temps_write_final_chunk Hf)
         | Hf : ca_sync_write_chunks ?p _ = Ret (_, ?m1) |- tidy ?m1 =>
             apply (tidy_framed _ _ _ _ (framed_temps_write_chunks p) Hf)
         | Hf : ca_sync_process_decoder_request _ = Ret (_, ?m1)
           |- tidy ?m1 =>
             apply (tidy_framed _ _ _ _ framed_temps_request Hf)
         | |- tidy (mkMachine _ (os ?m1) (trace ?m1)) =>
             apply (tidy_with_eof m1)
         end.

Lemma step_encode_tidy (m m' : Machine) (r : Z) :
  ca_sync_step_encode m = Ret (r, m') -> tidy m -> tidy m'.
Proof.
  intros H Ht. unfold tidy in Ht.
  tidy_open m Ht;
    unfold ca_sync_step_encode, rename_temporary, sys_rename, on_encoder,
      encoder_get_data, on_encoder, ca_sync_write_archive,
      ca_sync_write_archive_digest, ca_sync_allocate_archive_digest,
      read_block in H;
    mcases; tidy_after; tidy_leaf.
Qed.

Lemma step_decode_tidy (m m' : Machine) (r : Z) :
  ca_sync_step_decode m = Ret (r, m') -> tidy m -> tidy m'.
Proof.
  intros H Ht. unfold tidy in Ht.
  tidy_open m Ht;
    unfold ca_sync_step_decode, rename_temporary, sys_rename, on_decoder in H;
    mcases; tidy_after; tidy_leaf.
Qed.

Lemma step_tidy (m m' : Machine) (r : Z) :
  ca_sync_step m = Ret (r, m') -> tidy m -> tidy m'.
Proof.
  intros H Ht. unfold ca_sync_step in H. unfold bind at 1 in H.
  destruct (ca_sync_start m) as [[r0 m1]|f] eqn:Hs; [|discriminate].
  pose proof (start_tidy _ _ _ Hs Ht) as Ht1.
  destruct (r0 <? 0); [unfold ret in H; inversion H; subst; exact Ht1|].
  unfold bind, get_sync in H. fields.
  destruct (direction (sync m1)).
  - exact (step_encode_tidy _ _ _ H Ht1).
  - exact (step_decode_tidy _ _ _ H Ht1).
Qed.

Lemma get_digest_tidy (m m' : Machine) (r : Z) :
  call GetDigest m = Ret (r, m') -> tidy m -> tidy m'.
Proof.
  intros H Ht. unfold tidy in Ht.
  tidy_open m Ht; unfold_setters H; mcases; tidy_leaf.
Qed.

Lemma call_tidy (c : Call) (m m' : Machine) (r : Z) :
  call c m = Ret (r, m') -> tidy m -> tidy m'.
Proof.
  intros H Ht. destruct (is_setter c) eqn:Hc.
  - exact (setter_tidy c _ _ _ Hc H Ht).
  - destruct c; try discriminate Hc.
    + exact (step_tidy _ _ _ H Ht).
    + exact (get_digest_tidy _ _ _ H Ht).
Qed.

Lemma run_tidy (cs : list Call) :
  forall m rs m', run cs m = Ret (rs, m') -> tidy m -> tidy m'.
Proof.
  induction cs as [|c cs IH]; intros m rs m' H Ht; cbn [run] in H.
  - inversion H; subst. exact Ht.
  - destruct (call c m) as [[r m1]|f] eqn:Hc; [|discriminate].
    destruct (run cs m1) as [[rs1 m2]|f] eqn:Hr; [|discriminate].
    inversion H; subst.
    eapply IH; [exact Hr|]. eapply call_tidy; eassumption.
Qed.

(** X15. No temporary file is left behind.  On a driver made by one of
    the constructors and used through its interface, every file the driver
    has created with [O_CREAT|O_EXCL] has either been renamed onto its
    final path or is unlinked by [ca_sync_unref]: the created files are
    the renamed ones followed by the ones [ca_sync_unref] removes. *)
Theorem no_temporary_left_behind (d : CaDirection) (o : OS)
  (cs : list Call) (rs : list Z) (m : Machine) :
  run cs (start_machine (with_direction d ca_sync_new) o) = Ret (rs, m) ->
  created (trace m) =
  map fst (renamed (trace m)) ++ unlinked (ca_sync_unref (Some (sync m))).
Proof.
  intros H. rewrite unlinked_unref.
  assert (Ht : tidy m).
  { eapply run_tidy; [exact H|].
    unfold tidy, pending. destruct d; cbn; auto. }
  exact (proj1 Ht).
Qed.

End Properties.

(** * Concrete runs *)

(** The machine a sequence of calls leaves behind. *)
Definition machine_after {C : Collaborators} (cs : list Call) (m : Machine)
  : Machine :=
  match run cs m with
  | Ret (_, m') => m'
  | Undefined _ => m
  end.

Definition never_cut (p : list byte) : Z := SIZE_MAX.

(** An encoder that yields three bytes, then two, then finishes; chunks are
    cut after every second byte of the input at hand. *)
Definition toy_encode : Collaborators :=
  Toy.collaborators
    (Toy.mkKnobs [(2, [x01; x02; x03]); (1, [x04; x05]); (0, [])] []
       0 0 [] Toy.no_disk Toy.cut2).

Definition toy_encode_ready : Machine :=
  machine_after (C := toy_encode)
    [SetBaseFd 5; SetArchivePath (Some "/tmp/X"%string);
     SetStoreLocal (Some "store"%string); SetIndexPath (Some "index"%string)]
    (start_machine (C := toy_encode) ca_sync_new_encode 3).


Definition toy_encode_stepped : Machine :=
  machine_after (C := toy_encode) [Step] toy_encode_ready.


(** The results of a run together with what it renamed, which digests and
    closing records it wrote to the index, and whether [eof] is latched. *)
Definition summary {C : Collaborators} (o : Outcome (list Z * Machine))
  : option (list Z * list (string * string) * list Event * bool) :=
  match o with
  | Ret (rs, m) =>
      Some (rs, renamed (trace m),
            filter is_index_finalization (trace m), eof (sync m))
  | Undefined _ => None
  end.

(** An encoder that yields one byte and finishes; the chunker never cuts,
    so the byte is still pending at the end; the store refuses objects with
    [-ENOSPC]. *)
Definition toy_store_full : Collaborators :=
  Toy.collaborators
    (Toy.mkKnobs [(2, [x01]); (0, [])] [] (- ENOSPC) 0 [] Toy.no_disk
       never_cut).

(** C1, on the code.  Encoding to [/tmp/X] with a store that is full: the
    step in which the encoder finishes renames the temporary archive onto
    [/tmp/X] and then fails with [-ENOSPC] in the final flush; [eof] is not
    latched. *)
Theorem archive_renamed_by_failing_step :
  summary (C := toy_store_full)
    (run (C := toy_store_full)
       [SetBaseFd 5; SetArchivePath (Some "/tmp/X"%string);
        SetStoreLocal (Some "store"%string); Step; Step]
       (start_machine (C := toy_store_full) ca_sync_new_encode 3)) =
  Some ([0; 0; 0; 1; - ENOSPC],
        [("/tmp/X.tmp"%string, "/tmp/X"%string)], [], false).
Proof. vm_compute. reflexivity. Qed.

(** An encoder that yields two bytes and finishes, with an index and no
    store. *)
Definition toy_index_only : Collaborators :=
  Toy.collaborators
    (Toy.mkKnobs [(2, [x01; x02]); (0, [])] [] 0 0 [] Toy.no_disk Toy.cut2).

(** C2, on the code.  With an index and no writable store, and with an
    index and a store when the stream ends on a chunk boundary, the run
    reaches [FINISHED] and latches [eof] without a digest, an EOF record or
    a close ever reaching the index. *)
Theorem index_left_open_at_finish :
  summary (C := toy_index_only)
    (run (C := toy_index_only)
       [SetBaseFd 5; SetIndexPath (Some "index"%string); Step; Step]
       (start_machine (C := toy_index_only) ca_sync_new_encode 3)) =
  Some ([0; 0; 1; 0], [], [], true) /\
  summary (C := toy_index_only)
    (run (C := toy_index_only)
       [SetBaseFd 5; SetStoreLocal (Some "store"%string);
        SetIndexPath (Some "index"%string); Step; Step]
       (start_machine (C := toy_index_only) ca_sync_new_encode 3)) =
  Some ([0; 0; 0; 1; 0], [], [], true).
Proof. split; vm_compute; reflexivity. Qed.

(** A decoder that requests data once and finishes; the index holds one
    record, for an object of two bytes that the store has. *)
Definition toy_disk (path : string) : list (ObjectID * list byte) :=
  [([x01], [x0a; x0b])].

Definition toy_decode : Collaborators :=
  Toy.collaborators
    (Toy.mkKnobs [] [4; 0] 0 0 [([x01], 2)] toy_disk Toy.cut2).

Definition toy_decode_ready : Machine :=
  machine_after (C := toy_decode)
    [SetBaseFd 5; SetStoreLocal (Some "store"%string);
     SetIndexPath (Some "index"%string)]
    (start_machine (C := toy_decode) ca_sync_new_decode 3).

Definition after_start {C : Collaborators} (m : Machine) : Machine :=
  match ca_sync_start m with
  | Ret (_, m') => m'
  | Undefined _ => m
  end.

Lemma digest_reads_released_chunk_witness :
  ca_sync_step (C := toy_decode) toy_decode_ready = Undefined UseAfterFree.
Proof.
  apply (digest_reads_released_chunk (C := toy_decode) toy_decode_ready
           (after_start (C := toy_decode) toy_decode_ready) 0
           ([4; 0], []) ([0], []) ([0], [[x0a; x0b]])
           (Toy.mkIndex false [([x01], 2)] None false)
           (Toy.mkIndex false [] None false)
           1 2 0 0 [x01] [x0a; x0b]);
    solve [ vm_compute; reflexivity | vm_compute; discriminate ].
Defined.

(** The same decode, with an index record that declares five bytes. *)
Definition toy_decode_mismatch : Collaborators :=
  Toy.collaborators
    (Toy.mkKnobs [] [4; 0] 0 0 [([x01], 5)] toy_disk Toy.cut2).

Definition toy_mismatch_ready : Machine :=
  machine_after (C := toy_decode_mismatch)
    [SetBaseFd 5; SetStoreLocal (Some "store"%string);
     SetIndexPath (Some "index"%string)]
    (start_machine (C := toy_decode_mismatch) ca_sync_new_decode 3).

Lemma size_mismatch_is_bad_message_witness :
  exists m',
    ca_sync_step (C := toy_decode_mismatch) toy_mismatch_ready =
    Ret (- EBADMSG, m') /\
    handed (trace m') = handed (trace toy_mismatch_ready) /\
    decoder (sync m') = Some ([0], []).
Proof.
  apply (size_mismatch_is_bad_message (C := toy_decode_mismatch)
           toy_mismatch_ready
           (after_start (C := toy_decode_mismatch) toy_mismatch_ready) 0
           ([4; 0], []) ([0], [])
           (Toy.mkIndex false [([x01], 5)] None false)
           (Toy.mkIndex false [] None false)
           1 5 0 [x01] [x0a; x0b]);
    solve [ vm_compute; reflexivity | vm_compute; discriminate ].
Defined.










Definition toy_plain : Collaborators :=
  Toy.collaborators
    (Toy.mkKnobs [(2, [x01]); (0, [])] [4; 0] 0 0 [] Toy.no_disk never_cut).


Definition toy_plain_start : Machine :=
  start_machine (C := toy_plain) ca_sync_new_encode 3.




Definition toy_raw_decode : list Call :=
  [SetBaseFd 5; SetArchiveFd 6; Step; Step].

Lemma decode_without_index_digest_witness :
  exists rs m,
    run (C := toy_plain) toy_raw_decode
      (start_machine (C := toy_plain) ca_sync_new_decode 3) = Ret (rs, m) /\
    eof (sync m) = true /\
    digest_bytes (archive_digest (sync m)) = [] /\
    exists m',
      ca_sync_get_digest (C := toy_plain) m = Ret ((0, Some []), m').
Proof.
  pose proof (decode_without_index_digest (C := toy_plain) toy_raw_decode 3
                [0; 0; 1; 0]
                (machine_after (C := toy_plain) toy_raw_decode
                   (start_machine (C := toy_plain) ca_sync_new_decode 3))
                eq_refl) as H.
  exists [0; 0; 1; 0].
  exists (machine_after (C := toy_plain) toy_raw_decode
            (start_machine (C := toy_plain) ca_sync_new_decode 3)).
  split; [vm_compute; reflexivity|].
  split; [vm_compute; reflexivity|].
  destruct H as [Hd Hg]; [vm_compute; reflexivity|].
  split; [exact Hd|]. apply Hg. vm_compute. reflexivity.
Defined.

(** ** Runs for the further properties *)

Definition toy_encode_done : Machine :=
  machine_after (C := toy_encode) (repeat Step 3) toy_encode_ready.

Lemma encode_digest_covers_stream_witness :
  archive_stream (trace toy_encode_done) = [x01; x02; x03; x04; x05] /\
  digest_bytes (archive_digest (sync toy_encode_done)) =
  archive_stream (trace toy_encode_done) /\
  (eof (sync toy_encode_done) = true ->
   exists m',
     ca_sync_get_digest (C := toy_encode) toy_encode_done =
     Ret ((0, Some (sha256 (Collaborators := toy_encode)
                      (archive_stream (trace toy_encode_done)))), m')).
Proof.
  split; [vm_compute; reflexivity|].
  apply (encode_digest_covers_stream (C := toy_encode) 3 toy_encode_ready
           toy_encode_done [1; 2; 0]);
    try (vm_compute; reflexivity).
  repeat constructor; vm_compute; discriminate.
Defined.


(** An encoder that yields three bytes and finishes: the third byte is
    still pending when it does. *)
Definition toy_tail : Collaborators :=
  Toy.collaborators
    (Toy.mkKnobs [(2, [x01; x02; x03]); (0, [])] [] 0 0 [] Toy.no_disk
       Toy.cut2).

Definition toy_tail_ready : Machine :=
  machine_after (C := toy_tail)
    [SetBaseFd 5; SetStoreLocal (Some "store"%string);
     SetIndexPath (Some "index"%string)]
    (start_machine (C := toy_tail) ca_sync_new_encode 3).

Definition toy_tail_done : Machine :=
  machine_after (C := toy_tail) (repeat Step 2) toy_tail_ready.

Lemma index_finalization_witness :
  finalization (trace toy_tail_done) =
  [OpSetDigest [x01; x02; x03]; OpWriteEof; OpClose] /\
  finalization (trace toy_tail_done) =
  if eof (sync toy_tail_done) && flushes_index (sync toy_tail_done)
  then [OpSetDigest (sha256 (Collaborators := toy_tail)
                       (archive_stream (trace toy_tail_done)));
        OpWriteEof; OpClose]
  else [].
Proof.
  split; [vm_compute; reflexivity|].
  apply (index_finalization (C := toy_tail) 2 toy_tail_ready toy_tail_done
           [1; 0]);
    try (vm_compute; reflexivity).
  repeat constructor; vm_compute; discriminate.
Defined.

(** A decode from an archive descriptor, before its first step and after
    it. *)
Definition toy_raw_ready : Machine :=
  machine_after (C := toy_plain) [SetBaseFd 5; SetArchiveFd 6]
    (start_machine (C := toy_plain) ca_sync_new_decode 3).

Definition toy_raw_stepped : Machine :=
  machine_after (C := toy_plain) [Step] toy_raw_ready.

Definition toy_raw_done : Machine :=
  machine_after (C := toy_plain) [Step] toy_raw_stepped.

Lemma decode_step_is_read_only_witness :
  ca_sync_step (C := toy_plain) toy_raw_ready = Ret (1, toy_raw_stepped) /\
  wstore (sync toy_raw_stepped) = wstore (sync toy_raw_ready) /\
  rstores (sync toy_raw_stepped) = rstores (sync toy_raw_ready) /\
  buffer (sync toy_raw_stepped) = buffer (sync toy_raw_ready) /\
  submitted (trace toy_raw_stepped) = submitted (trace toy_raw_ready) /\
  indexed (trace toy_raw_stepped) = indexed (trace toy_raw_ready) /\
  finalization (trace toy_raw_stepped) = finalization (trace toy_raw_ready) /\
  chunked (trace toy_raw_stepped) = chunked (trace toy_raw_ready) /\
  archive_stream (trace toy_raw_stepped) =
  archive_stream (trace toy_raw_ready) /\
  (forall fd,
      written fd (trace toy_raw_stepped) = written fd (trace toy_raw_ready)).
Proof.
  split; [vm_compute; reflexivity|].
  apply (decode_step_is_read_only (C := toy_plain) toy_raw_ready
           toy_raw_stepped 1);
    vm_compute; reflexivity.
Defined.

Lemma decode_renames_only_on_finish_witness :
  ca_sync_step (C := toy_plain) toy_raw_stepped = Ret (0, toy_raw_done) /\
  (renamed (trace toy_raw_done) = renamed (trace toy_raw_stepped) \/
   (0 = CA_SYNC_FINISHED (Collaborators := toy_plain) /\
    eof (sync toy_raw_done) = true /\
    exists t d,
      base_path (sync toy_raw_stepped) = Some d /\
      renamed (trace toy_raw_done) =
      renamed (trace toy_raw_stepped) ++ [(t, d)])).
Proof.
  split; [vm_compute; reflexivity|].
  apply (decode_renames_only_on_finish (C := toy_plain) toy_raw_stepped
           toy_raw_done 0);
    vm_compute; reflexivity.
Defined.

Definition toy_encode_started : Machine :=
  after_start (C := toy_encode) toy_encode_ready.

Lemma start_is_idempotent_witness :
  ca_sync_start (C := toy_encode) toy_encode_ready =
  Ret (0, toy_encode_started) /\
  ca_sync_start (C := toy_encode) toy_encode_started =
  (check r <- start_index (C := toy_encode) ;; ret 0) toy_encode_started /\
  (index (sync toy_encode_started) = None ->
   ca_sync_start (C := toy_encode) toy_encode_started =
   Ret (0, toy_encode_started)).
Proof.
  split; [vm_compute; reflexivity|].
  apply (start_is_idempotent (C := toy_encode) toy_encode_ready
           toy_encode_started 0);
    [vm_compute; reflexivity | lia].
Defined.

Definition toy_plain_based : Machine :=
  machine_after (C := toy_plain) [SetBaseFd 5] toy_plain_start.

Lemma base_fd_has_one_owner_witness :
  base_fd (sync toy_plain_based) = 5 /\
  ((0 < 0 /\ encoder (sync (after_start (C := toy_plain) toy_plain_based))
            = None /\
    base_fd (sync (after_start (C := toy_plain) toy_plain_based)) =
    base_fd (sync toy_plain_based)) \/
   (0 <= snd (ca_encoder_set_base_fd (Collaborators := toy_plain)
                (ca_encoder_new (Collaborators := toy_plain))
                (base_fd (sync toy_plain_based))) /\
    encoder (sync (after_start (C := toy_plain) toy_plain_based)) =
    Some (fst (ca_encoder_set_base_fd (Collaborators := toy_plain)
                 (ca_encoder_new (Collaborators := toy_plain))
                 (base_fd (sync toy_plain_based)))) /\
    base_fd (sync (after_start (C := toy_plain) toy_plain_based)) = -1)).
Proof.
  split; [vm_compute; reflexivity|].
  apply (base_fd_has_one_owner (C := toy_plain) toy_plain_based
           (after_start (C := toy_plain) toy_plain_based) 0);
    solve [ vm_compute; reflexivity | vm_compute; discriminate ].
Defined.

Definition toy_plain_unbased : Machine :=
  machine_after (C := toy_plain) [Step] toy_plain_start.

Lemma encode_without_base_fails_witness :
  ca_sync_step (C := toy_plain) toy_plain_start =
  Ret (- EUNATCH, toy_plain_unbased) /\
  - EUNATCH < 0 /\
  direction (sync toy_plain_unbased) = CA_SYNC_ENCODE /\
  encoder (sync toy_plain_unbased) = None /\
  base_fd (sync toy_plain_unbased) = base_fd (sync toy_plain_start) /\
  archive_stream (trace toy_plain_unbased) =
  archive_stream (trace toy_plain_start) /\
  (archive_path (sync toy_plain_start) = None \/
   (archive_fd (sync toy_plain_start) <? 0) = false ->
   - EUNATCH = - EUNATCH).
Proof.
  split; [vm_compute; reflexivity|].
  apply (encode_without_base_fails (C := toy_plain) toy_plain_start
           toy_plain_unbased (- EUNATCH));
    solve [ vm_compute; reflexivity | vm_compute; discriminate ].
Defined.

(** An archive path and mode 0644. *)
Definition toy_plain_pathed : Machine :=
  machine_after (C := toy_plain)
    [SetBaseFd 5; SetArchivePath (Some "/tmp/X"%string)] toy_plain_start.

Definition toy_plain_moded : Machine :=
  machine_after (C := toy_plain) [SetMakePermMode 420] toy_plain_pathed.

Lemma archive_created_with_perm_mode_witness :
  trace (after_start (C := toy_plain) toy_plain_moded) =
  [EvOpen "/tmp/X.tmp" CREATE_FLAGS 420 3] /\
  exists t',
    trace (after_start (C := toy_plain) toy_plain_moded) =
    trace toy_plain_moded ++ t' /\
    forallb (archive_open_event 420) t' = true.
Proof.
  split; [vm_compute; reflexivity|].
  apply (archive_created_with_perm_mode (C := toy_plain) toy_plain_pathed
           toy_plain_moded (after_start (C := toy_plain) toy_plain_moded)
           420 0);
    [split; [lia | reflexivity] | vm_compute; reflexivity
    | vm_compute; reflexivity].
Defined.

(** A decode into a regular file, configured by mode, store and index. *)
Definition toy_decode_calls : list Call :=
  [SetBaseMode 33188; SetStoreLocal (Some "store"%string);
   SetIndexPath (Some "index"%string)].

Lemma start_never_asserts_witness :
  exists r m',
    ca_sync_start (C := toy_decode)
      (machine_after (C := toy_decode) toy_decode_calls
         (start_machine (C := toy_decode)
            (with_direction (C := toy_decode) CA_SYNC_DECODE
               (ca_sync_new (C := toy_decode))) 3)) =
    Ret (r, m').
Proof.
  apply (start_never_asserts (C := toy_decode) CA_SYNC_DECODE 3
           toy_decode_calls [0; 0; 0]).
  vm_compute. reflexivity.
Defined.

Lemma toy_cut2_contract : chunker_contract (C := toy_encode).
Proof.
  intros c q Hq.
  change (snd (ca_chunker_scan (Collaborators := toy_encode) c q))
    with (Toy.cut2 q).
  unfold Toy.cut2. destruct (len q >=? 2) eqn:E.
  - right. rewrite Z.geb_leb in E. apply Z.leb_le in E. lia.
  - left. reflexivity.
Qed.

Lemma encode_step_returns_witness :
  encoder (sync toy_encode_stepped) =
  Some ([(1, [x04; x05]); (0, [])], [x01; x02; x03]) /\
  exists r m',
    ca_sync_step (C := toy_encode) toy_encode_stepped = Ret (r, m') /\
    (r < 0 \/
     In r [CA_SYNC_FINISHED (Collaborators := toy_encode);
           CA_SYNC_STEP (Collaborators := toy_encode);
           CA_SYNC_NEXT_FILE (Collaborators := toy_encode)]).
Proof.
  split; [vm_compute; reflexivity|].
  apply (encode_step_returns (C := toy_encode) toy_cut2_contract
           toy_encode_stepped
           ([(1, [x04; x05]); (0, [])], [x01; x02; x03]));
    [vm_compute; reflexivity | vm_compute; reflexivity |].
  right. right. left. reflexivity.
Defined.

Lemma failed_setter_changes_nothing_witness :
  call (C := toy_plain) (SetBaseFd 6) toy_plain_based =
  Ret (- EBUSY, toy_plain_based) /\
  sync (machine_after (C := toy_plain) [SetBaseFd 6] toy_plain_based) =
  sync toy_plain_based.
Proof.
  split; [vm_compute; reflexivity|].
  apply (failed_setter_changes_nothing (C := toy_plain) CA_SYNC_ENCODE 3
           [SetBaseFd 5] [0] toy_plain_based
           (machine_after (C := toy_plain) [SetBaseFd 6] toy_plain_based)
           (SetBaseFd 6) (- EBUSY));
    solve [ vm_compute; reflexivity ].
Defined.

(** A disk on which only the seed has the object [01]. *)
Definition toy_seed_disk (path : string) : list (ObjectID * list byte) :=
  if String.eqb path "seed" then [([x01], [x0a])] else [].

Definition toy_seeded : Collaborators :=
  Toy.collaborators (Toy.mkKnobs [] [] 0 0 [] toy_seed_disk Toy.cut2).

Definition toy_seeded_before : Machine :=
  machine_after (C := toy_seeded) [SetStoreLocal (Some "store"%string)]
    (start_machine (C := toy_seeded) ca_sync_new_decode 3).

Definition toy_seeded_after : Machine :=
  machine_after (C := toy_seeded) [AddSeedStoreLocal (Some "seed"%string)]
    toy_seeded_before.

Lemma seed_answers_only_misses_witness :
  ca_sync_get (C := toy_seeded) (sync toy_seeded_before) (Some [x01]) =
  (- ENOENT, []) /\
  ca_sync_get (C := toy_seeded) (sync toy_seeded_after) (Some [x01]) =
  (0, [x0a]) /\
  ca_sync_get (C := toy_seeded) (sync toy_seeded_after) (Some [x01]) =
  if fst (ca_sync_get (C := toy_seeded) (sync toy_seeded_before)
            (Some [x01])) =? - ENOENT
  then get_rstores (C := toy_seeded)
         [fst (ca_store_set_local (Collaborators := toy_seeded)
                 (ca_store_new (Collaborators := toy_seeded)) "seed")]
         [x01]
  else ca_sync_get (C := toy_seeded) (sync toy_seeded_before) (Some [x01]).
Proof.
  split; [vm_compute; reflexivity|].
  split; [vm_compute; reflexivity|].
  apply (seed_answers_only_misses (C := toy_seeded) toy_seeded_before
           toy_seeded_after "seed" [x01]).
  vm_compute. reflexivity.
Defined.

Lemma store_is_content_addressed_witness :
  submitted (trace toy_encode_done) = [[x01; x02]; [x03; x04; x05]] /\
  exists t',
    trace toy_encode_done = trace toy_encode_ready ++ t' /\
    forall id p rc,
      In (EvStorePut id p rc) t' -> id = sha256 (Collaborators := toy_encode) p.
Proof.
  split; [vm_compute; reflexivity|].
  apply (store_is_content_addressed (C := toy_encode) (repeat Step 3)
           toy_encode_ready toy_encode_done [1; 2; 0]).
  vm_compute. reflexivity.
Defined.

Definition toy_store_full_calls : list Call :=
  [SetBaseFd 5; SetArchivePath (Some "/tmp/X"%string);
   SetStoreLocal (Some "store"%string); Step; Step].

Definition toy_store_full_end : Machine :=
  machine_after (C := toy_store_full) toy_store_full_calls
    (start_machine (C := toy_store_full)
       (with_direction (C := toy_store_full) CA_SYNC_ENCODE
          (ca_sync_new (C := toy_store_full))) 3).

Lemma no_temporary_left_behind_witness :
  created (trace toy_store_full_end) = ["/tmp/X.tmp"%string] /\
  created (trace toy_store_full_end) =
  map fst (renamed (trace toy_store_full_end)) ++
  unlinked (ca_sync_unref (C := toy_store_full)
              (Some (sync toy_store_full_end))).
Proof.
  split; [vm_compute; reflexivity|].
  apply (no_temporary_left_behind (C := toy_store_full) CA_SYNC_ENCODE 3
           toy_store_full_calls [0; 0; 0; 1; - ENOSPC]).
  vm_compute. reflexivity.
Defined.
